(** * clamb: Universal Lambda interpreter (src/clamb.c)

    A shallow embedding of the interpreter: tagged cells as 32-bit words,
    the two-space heap with its copying collector, the reduction stack,
    the bit-stream loader, the bracket-abstraction compiler and the
    graph reducer, as a state-and-error monad over one machine state. *)

From Stdlib Require Import ZArith Lia String Ascii DecimalString.
From stdpp Require Import gmap list strings.

#[local] Set Warnings "-clear-no-such-hyp".
Local Open Scope Z_scope.

(** ** Cells: the tagged word layer *)

Module Cells.

(** A [Cell] is a pointer-sized word; the code casts it to [int], so the
    word is 32 bits wide.  It is kept as its unsigned value. *)
Abbreviation Cell := Z (only parsing).

Definition WORD : Z := 2 ^ 32.

(** [CELL(x)]: an [int] stored in a word. *)
Definition CELL (x : Z) : Cell := x mod WORD.

(** [(int)(c)]: the word read back as a signed [int]. *)
Definition to_int (c : Cell) : Z :=
  if c mod WORD <? 2 ^ 31 then c mod WORD else c mod WORD - WORD.

(** [int] arithmetic wraps around. *)
Definition int32 (x : Z) : Z := to_int (CELL x).

(** [TAG(c) = (int)(c) & 0x03]; the low bits of the word are those of
    its [int] value. *)
Definition TAG (c : Cell) : Z := Z.land c 3.

Definition ispair (c : Cell) : bool := TAG c =? 0.

Definition isint (c : Cell) : bool := TAG c =? 1.
Definition mkint (n : Z) : Cell := CELL (Z.shiftl n 2 + 1).
Definition intof (c : Cell) : Z := Z.shiftr (to_int c) 2.

Definition iscomb (c : Cell) : bool := TAG c =? 2.
Definition mkcomb (n : Z) : Cell := CELL (Z.shiftl n 2 + 2).
Definition combof (c : Cell) : Z := Z.shiftr (to_int c) 2.

Definition COMB_S : Cell := Eval cbv in mkcomb 0.
Definition COMB_K : Cell := Eval cbv in mkcomb 1.
Definition COMB_I : Cell := Eval cbv in mkcomb 2.
Definition COMB_B : Cell := Eval cbv in mkcomb 3.
Definition COMB_C : Cell := Eval cbv in mkcomb 4.
Definition COMB_SP : Cell := Eval cbv in mkcomb 5.
Definition COMB_BS : Cell := Eval cbv in mkcomb 6.
Definition COMB_CP : Cell := Eval cbv in mkcomb 7.
Definition COMB_IOTA : Cell := Eval cbv in mkcomb 8.
Definition COMB_KI : Cell := Eval cbv in mkcomb 9.
Definition COMB_READ : Cell := Eval cbv in mkcomb 10.
Definition COMB_WRITE : Cell := Eval cbv in mkcomb 11.
Definition COMB_INC : Cell := Eval cbv in mkcomb 12.
Definition COMB_CONS : Cell := Eval cbv in mkcomb 13.
Definition COMB_PUTC : Cell := Eval cbv in mkcomb 14.
Definition COMB_RETURN : Cell := Eval cbv in mkcomb 15.

Definition ischar (c : Cell) : bool := Z.land c 7 =? 3.
Definition mkchar (n : Z) : Cell := CELL (Z.shiftl n 3 + 3).
Definition charof (c : Cell) : Z := Z.shiftr (to_int c) 3.

Definition isimm (c : Cell) : bool := Z.land c 7 =? 7.
Definition mkimm (n : Z) : Cell := CELL (Z.shiftl n 3 + 7).
Definition NIL : Cell := Eval cbv in mkimm 0.
Definition COPIED : Cell := Eval cbv in mkimm 1.
Definition UNUSED_MARKER : Cell := Eval cbv in mkimm 2.
Definition LAMBDA : Cell := Eval cbv in mkimm 3.

(** [sizeof(Pair)]: two words. *)
Definition PAIR_SIZE : Z := 8.

(** Pointer arithmetic on [Pair *]: [p + n]. *)
Definition padd (p : Z) (n : Z) : Z := p + PAIR_SIZE * n.

End Cells.
Export Cells.

(** ** The machine state *)

Definition INITIAL_HEAP_SIZE : Z := 128 * 1024.
Definition RDSTACK_SIZE : Z := 100000.
Definition EOF : Z := -1.

(** One command-line file name: [fdata = None] when [fopen] fails. *)
Record file : Type := File { fname : string; fdata : option (list Z) }.

(** [InputStream].  [in_argv] is what [input.argv] points at (the current
    name first), [in_fp] the unread bytes of the open handle, and
    [in_stdin] the bytes standard input delivers once it is opened. *)
Record InputStream : Type := mkInput {
  in_argv : list file;
  in_fp : list Z;
  in_stdin : list Z;
  in_ch : Z;
  in_bit : Z
}.

(** The globals of the program.  [mem] is the memory holding the Pair
    records, by address; [brk] is the next address [malloc] hands out;
    [rd_stack] lists the live slots [sp .. stack+RDSTACK_SIZE-1] of the
    reduction stack, top first, so that [sp - stack] is
    [RDSTACK_SIZE - length rd_stack].  The slots below [sp] are not
    part of the state: the value a [PUSH] leaves there after the [POP]
    and the [UNUSED_MARKER] fill of [rs_init] are read by
    [rs_max_depth] alone, which is not embedded.  [free_area] is the static local
    of [gc_run] ([None] is [NULL]).  [output] is standard output. *)
Record state : Type := mkState {
  mem : gmap Z (Cell * Cell);
  brk : Z;
  heap_area : Z;
  free_ptr : Z;
  heap_size : Z;
  next_heap_size : Z;
  free_area : option Z;
  rd_stack : list Cell;
  input : InputStream;
  output : list Z;
  reductions : Z
}.

Definition set_mem (f : gmap Z (Cell * Cell) -> gmap Z (Cell * Cell)) (s : state) : state :=
  mkState (f (mem s)) (brk s) (heap_area s) (free_ptr s) (heap_size s)
          (next_heap_size s) (free_area s) (rd_stack s) (input s) (output s)
          (reductions s).

Definition set_free_ptr (p : Z) (s : state) : state :=
  mkState (mem s) (brk s) (heap_area s) p (heap_size s)
          (next_heap_size s) (free_area s) (rd_stack s) (input s) (output s)
          (reductions s).

Definition set_rd_stack (f : list Cell -> list Cell) (s : state) : state :=
  mkState (mem s) (brk s) (heap_area s) (free_ptr s) (heap_size s)
          (next_heap_size s) (free_area s) (f (rd_stack s)) (input s) (output s)
          (reductions s).

Definition set_input (i : InputStream) (s : state) : state :=
  mkState (mem s) (brk s) (heap_area s) (free_ptr s) (heap_size s)
          (next_heap_size s) (free_area s) (rd_stack s) i (output s)
          (reductions s).

Definition set_output (o : list Z) (s : state) : state :=
  mkState (mem s) (brk s) (heap_area s) (free_ptr s) (heap_size s)
          (next_heap_size s) (free_area s) (rd_stack s) (input s) o
          (reductions s).

Definition set_reductions (n : Z) (s : state) : state :=
  mkState (mem s) (brk s) (heap_area s) (free_ptr s) (heap_size s)
          (next_heap_size s) (free_area s) (rd_stack s) (input s) (output s) n.

(** [sp - stack], the index of the top slot in the stack array. *)
Definition sp (s : state) : Z := RDSTACK_SIZE - Z.of_nat (length (rd_stack s)).

(** [car(c)] and [cdr(c)].  A Pair that was never written reads as two
    zero words. *)
Definition car (s : state) (c : Cell) : Cell := (default (0, 0) (mem s !! c)).1.
Definition cdr (s : state) (c : Cell) : Cell := (default (0, 0) (mem s !! c)).2.

Definition set_car (c v : Cell) (s : state) : state :=
  set_mem (fun m => <[c := (v, cdr s c)]> m) s.
Definition set_cdr (c v : Cell) (s : state) : state :=
  set_mem (fun m => <[c := (car s c, v)]> m) s.
(** [SET(c,fst,snd)] *)
Definition SET (c fst snd : Cell) (s : state) : state :=
  set_mem (fun m => <[c := (fst, snd)]> m) s.

(** ** Outcomes *)

(** The fatal errors of [errexit], with the values their messages print. *)
Inductive error : Type :=
| Err_heap (cells : Z)
| Err_stack_overflow
| Err_cannot_open (name : string)
| Err_unexpected_EOF
| Err_not_a_number
| Err_invalid_character (n : Z)
| Err_inc_non_number
| Err_apply_number.

Definition newline : string := String (ascii_of_nat 10) EmptyString.

Definition show_int (n : Z) : string := NilZero.string_of_int (Z.to_int n).

(** The text [errexit] writes to standard error. *)
Definition error_message (e : error) : string :=
  match e with
  | Err_heap n =>
      "Cannot allocate heap storage (" +:+ show_int n +:+ " cells)" +:+ newline
  | Err_stack_overflow => "runtime error: stack overflow" +:+ newline
  | Err_cannot_open name => "cannot open " +:+ name +:+ newline
  | Err_unexpected_EOF => "unexpected EOF" +:+ newline
  | Err_not_a_number =>
      "invalid output format (result was not a number)" +:+ newline
  | Err_invalid_character n => "invalid character " +:+ show_int n +:+ newline
  | Err_inc_non_number =>
      "invalid output format (attempted to apply inc to a non-number)" +:+ newline
  | Err_apply_number =>
      "invalid output format (attempted to apply a number)" +:+ newline
  end.

(** How a call ends: it returns [a] in state [s]; [errexit] ends the
    process; an [assert] fails; a stack slot outside the live part of the
    stack is touched; or the fuel bounding the loops of the model ran
    out. *)
Inductive result (A : Type) : Type :=
| Ok (a : A) (s : state)
| Exit (e : error) (s : state)
| AssertFail (s : state)
| Undefined
| OutOfFuel.
Arguments Ok {A} a s.
Arguments Exit {A} e s.
Arguments AssertFail {A} s.
Arguments Undefined {A}.
Arguments OutOfFuel {A}.

Definition M (A : Type) : Type := state -> result A.

Definition ret {A} (a : A) : M A := fun s => Ok a s.

Definition bind {A B} (m : M A) (k : A -> M B) : M B :=
  fun s =>
    match m s with
    | Ok a s' => k a s'
    | Exit e s' => Exit e s'
    | AssertFail s' => AssertFail s'
    | Undefined => Undefined
    | OutOfFuel => OutOfFuel
    end.

Notation "'let*' x ':=' m 'in' k" := (bind m (fun x => k))
  (at level 10, x name, m at level 100, k at level 200).
Notation "'let*' ' p ':=' m 'in' k" :=
  (bind m (fun x => match x with p => k end))
  (at level 10, p pattern, m at level 100, k at level 200).
Notation "m ;; k" := (bind m (fun _ => k))
  (at level 100, k at level 200, right associativity).

Definition errexit {A} (e : error) : M A := fun s => Exit e s.
Definition get {A} (f : state -> A) : M A := fun s => Ok (f s) s.
Definition modify (f : state -> state) : M unit := fun s => Ok tt (f s).
Definition assert (b : bool) : M unit :=
  fun s => if b then Ok tt s else AssertFail s.

Definition set_brk (p : Z) (s : state) : state :=
  mkState (mem s) p (heap_area s) (free_ptr s) (heap_size s)
          (next_heap_size s) (free_area s) (rd_stack s) (input s) (output s)
          (reductions s).

Definition set_heap_area (p : Z) (s : state) : state :=
  mkState (mem s) (brk s) p (free_ptr s) (heap_size s)
          (next_heap_size s) (free_area s) (rd_stack s) (input s) (output s)
          (reductions s).

Definition set_heap_size (n : Z) (s : state) : state :=
  mkState (mem s) (brk s) (heap_area s) (free_ptr s) n
          (next_heap_size s) (free_area s) (rd_stack s) (input s) (output s)
          (reductions s).

Definition set_next_heap_size (n : Z) (s : state) : state :=
  mkState (mem s) (brk s) (heap_area s) (free_ptr s) (heap_size s)
          n (free_area s) (rd_stack s) (input s) (output s)
          (reductions s).

Definition set_free_area (p : option Z) (s : state) : state :=
  mkState (mem s) (brk s) (heap_area s) (free_ptr s) (heap_size s)
          (next_heap_size s) p (rd_stack s) (input s) (output s)
          (reductions s).

(** ** Storage management *)

(** [malloc(sizeof(Pair) * cells)]: a bump allocator over the 32-bit
    address space that never hands an address out twice; [None] is
    [NULL].  [free] is not embedded: a block the code has freed stays
    readable here, so what is proved of a cell read from the heap holds
    of the code only where the cell is reached from a root the
    collector knows (a stack slot or one of the two cells handed to
    [gc_run]). *)
Definition malloc (cells : Z) : M (option Z) :=
  fun s =>
    if (0 <=? cells) && (brk s + PAIR_SIZE * cells <=? WORD)
    then Ok (Some (brk s)) (set_brk (brk s + PAIR_SIZE * cells) s)
    else Ok None s.

(** The address of the first block [malloc] returns. *)
Definition FIRST_BLOCK : Z := 4096.

Definition storage_init (size : Z) : M unit :=
  modify (set_heap_size size);;
  let* p := malloc size in
  match p with
  | None => errexit (Err_heap size)
  | Some a =>
      assert ((Z.land a 3 =? 0) && (Z.land PAIR_SIZE 3 =? 0));;
      modify (set_free_ptr a);;
      modify (set_heap_area (padd a size));;
      modify (set_next_heap_size (Z.quot (int32 (size * 3)) 2))
  end.

(** The inner loop of [copy_cell]:
    [while (ispair(tmp) && car(tmp) == COMB_I) tmp = cdr(tmp);] *)
Fixpoint skip_I (fuel : nat) (tmp : Cell) : M Cell :=
  match fuel with
  | O => fun _ => OutOfFuel
  | S fuel' =>
      let* a := get (fun s => car s tmp) in
      if ispair tmp && (a =? COMB_I)
      then let* d := get (fun s => cdr s tmp) in skip_I fuel' d
      else ret tmp
  end.

Definition copy_cell (fuel : nat) (c : Cell) : M Cell :=
  if negb (ispair c) then ret c
  else
    let* a := get (fun s => car s c) in
    if a =? COPIED then get (fun s => cdr s c)
    else
      let* r := get free_ptr in
      modify (set_free_ptr (padd r 1));;
      modify (set_car r a);;
      let* a' := get (fun s => car s c) in
      (if a' =? COMB_I
       then
         let* tmp := get (fun s => cdr s c) in
         let* tmp := skip_I fuel tmp in
         modify (set_cdr r tmp)
       else
         let* d := get (fun s => cdr s c) in
         modify (set_cdr r d));;
      modify (set_car c COPIED);;
      modify (set_cdr c r);;
      ret r.

(** ** The reduction stack *)

Definition rs_init : M unit := modify (set_rd_stack (fun _ => [])).

(** [rs_copy]: the slots from [stack + RDSTACK_SIZE - 1] down to [sp];
    [k] slots, those of list index below [k], are still to be copied. *)
Fixpoint rs_copy_loop (fuel : nat) (k : nat) : M unit :=
  match k with
  | O => ret tt
  | S i =>
      let* slot := get (fun s => rd_stack s !! i) in
      match slot with
      | None => fun _ => Undefined
      | Some c =>
          let* r := copy_cell fuel c in
          modify (set_rd_stack (fun st => <[i := r]> st));;
          rs_copy_loop fuel i
      end
  end.

Definition rs_copy (fuel : nat) : M unit :=
  let* n := get (fun s => length (rd_stack s)) in
  rs_copy_loop fuel n.

Definition rs_push (c : Cell) : M unit :=
  let* p := get sp in
  if p <=? 0 then errexit Err_stack_overflow
  else modify (set_rd_stack (fun st => c :: st)).

(** [PUSHED(n)], read; [TOP] is [PUSHED(0)]. *)
Definition PUSHED (n : nat) : M Cell :=
  fun s => match rd_stack s !! n with
           | Some c => Ok c s
           | None => Undefined
           end.
Definition TOP : M Cell := PUSHED 0.

(** [PUSHED(n) = c] *)
Definition set_PUSHED (n : nat) (c : Cell) : M unit :=
  fun s => if decide (n < length (rd_stack s))%nat
           then Ok tt (set_rd_stack (fun st => <[n := c]> st) s)
           else Undefined.
Definition set_TOP (c : Cell) : M unit := set_PUSHED 0 c.

(** [DROP(n)] *)
Definition DROP (n : nat) : M unit :=
  fun s => if decide (n <= length (rd_stack s))%nat
           then Ok tt (set_rd_stack (fun st => drop n st) s)
           else Undefined.

(** [POP] *)
Definition POP : M Cell := let* c := TOP in DROP 1;; ret c.

(** [ARG(n)] is [cdr(PUSHED(n))]. *)
Definition ARG (n : nat) : M Cell :=
  let* p := PUSHED n in get (fun s => cdr s p).

(** ** The collector *)

(** [while (scan < free_ptr) { ...; scan++; }] *)
Fixpoint gc_scan (fuel : nat) (scan : Z) : M unit :=
  match fuel with
  | O => fun _ => OutOfFuel
  | S fuel' =>
      let* fp := get free_ptr in
      if scan <? fp then
        let* a := get (fun s => car s scan) in
        let* a := copy_cell fuel' a in
        modify (set_car scan a);;
        let* d := get (fun s => cdr s scan) in
        let* d := copy_cell fuel' d in
        modify (set_cdr scan d);;
        gc_scan fuel' (padd scan 1)
      else ret tt
  end.

Definition copy_save (fuel : nat) (save : option Cell) : M (option Cell) :=
  match save with
  | Some c => let* r := copy_cell fuel c in ret (Some r)
  | None => ret None
  end.

(** [gc_run(save1, save2)]; the cells behind the two pointers are passed
    in and handed back. *)
Fixpoint gc_run (fuel : nat) (save1 save2 : option Cell)
  : M (option Cell * option Cell) :=
  match fuel with
  | O => fun _ => OutOfFuel
  | S fuel' =>
      let* fa := get free_area in
      let* to := match fa with
                 | Some a => ret a
                 | None =>
                     let* n := get next_heap_size in
                     let* p := malloc n in
                     match p with
                     | None => errexit (Err_heap n)
                     | Some a => ret a
                     end
                 end in
      modify (set_free_ptr to);;
      let scan := to in
      let* old := get (fun s => padd (heap_area s) (- heap_size s)) in
      modify (set_free_area (Some old));;
      let* n := get next_heap_size in
      modify (set_heap_area (padd to n));;
      rs_copy fuel';;
      let* save1 := copy_save fuel' save1 in
      let* save2 := copy_save fuel' save2 in
      gc_scan fuel' scan;;
      let* num_alive :=
        get (fun s => (free_ptr s - padd (heap_area s) (- next_heap_size s))
                        / PAIR_SIZE) in
      let* hs := get heap_size in
      let* n := get next_heap_size in
      (if negb (hs =? n) || (int32 (num_alive * 8) >? n) then
         modify (set_heap_size n);;
         (if int32 (num_alive * 8) >? n
          then modify (set_next_heap_size (int32 (num_alive * 8)))
          else ret tt);;
         modify (set_free_area None)
       else ret tt);;
      let* fp := get free_ptr in
      let* ha := get heap_area in
      if fp >=? ha then gc_run fuel' save1 save2
      else ret (save1, save2)
  end.

Definition pair (fuel : nat) (fst snd : Cell) : M Cell :=
  let* fp := get free_ptr in
  let* ha := get heap_area in
  let* '(fst, snd) :=
    (if fp >=? ha then
       let* '(s1, s2) := gc_run fuel (Some fst) (Some snd) in
       ret (default fst s1, default snd s2)
     else ret (fst, snd)) in
  let* fp := get free_ptr in
  let* ha := get heap_area in
  assert (fp <? ha);;
  let c := fp in
  modify (set_free_ptr (padd fp 1));;
  modify (set_car c fst);;
  modify (set_cdr c snd);;
  ret c.

Definition alloc (fuel : nat) (n : Z) : M Cell :=
  let* fp := get free_ptr in
  let* ha := get heap_area in
  (if padd fp n >? ha then gc_run fuel None None;; ret tt else ret tt);;
  let* fp := get free_ptr in
  let* ha := get heap_area in
  assert (padd fp n <=? ha);;
  let p := fp in
  modify (set_free_ptr (padd fp n));;
  ret p.

(** ** Loader *)

Definition set_in_handle (argv : list file) (fp : list Z) (i : InputStream)
  : InputStream :=
  mkInput argv fp (in_stdin i) (in_ch i) (in_bit i).

Definition set_in_ch (ch : Z) (i : InputStream) : InputStream :=
  mkInput (in_argv i) (in_fp i) (in_stdin i) ch (in_bit i).

Definition set_in_bit (bit : Z) (i : InputStream) : InputStream :=
  mkInput (in_argv i) (in_fp i) (in_stdin i) (in_ch i) bit.

Definition input_init (argv : list file) (stdin : list Z) : M unit :=
  match argv with
  | f :: _ =>
      match fdata f with
      | None => errexit (Err_cannot_open (fname f))
      | Some bytes => modify (set_input (mkInput argv bytes stdin 0 0))
      end
  | [] => modify (set_input (mkInput [] stdin stdin 0 0))
  end.

(** The loop of [read_char], by recursion on the names still ahead:
    [fgetc] takes the next byte of the handle; at its end the handle is
    closed and the next name, or standard input, is opened.  The result
    is the byte or [EOF], or the name that could not be opened. *)
Fixpoint read_char_loop (argv : list file) (fp : list Z) (stdin : list Z)
  : list file * list Z * (Z + string) :=
  match fp with
  | b :: fp' => (argv, fp', inl b)
  | [] =>
      match argv with
      | [] => (argv, fp, inl EOF)
      | _ :: argv' =>
          match argv' with
          | f :: _ =>
              match fdata f with
              | None => (argv', [], inr (fname f))
              | Some bytes => read_char_loop argv' bytes stdin
              end
          | [] => read_char_loop argv' stdin stdin
          end
      end
  end.

Definition read_char : M Z :=
  let* i := get input in
  let '(argv, fp, r) := read_char_loop (in_argv i) (in_fp i) (in_stdin i) in
  modify (set_input (set_in_handle argv fp i));;
  match r with
  | inl c => ret c
  | inr name => errexit (Err_cannot_open name)
  end.

Definition read_bit : M Z :=
  let* bit := get (fun s => in_bit (input s)) in
  (if bit =? 0 then
     let* c := read_char in
     modify (fun s => set_input (set_in_ch c (input s)) s);;
     (if c =? EOF then errexit Err_unexpected_EOF else ret tt);;
     modify (fun s => set_input (set_in_bit 128 (input s)) s)
   else ret tt);;
  let* i := get input in
  let r := if Z.land (in_ch i) (in_bit i) =? 0 then 0 else 1 in
  modify (fun s => set_input (set_in_bit (Z.shiftr (in_bit i) 1) (input s)) s);;
  ret r.

(** [for (i = 0; read_bit(); i++) ;] *)
Fixpoint read_index (fuel : nat) (i : Z) : M Z :=
  match fuel with
  | O => fun _ => OutOfFuel
  | S fuel' =>
      let* b := read_bit in
      if b =? 0 then ret i else read_index fuel' (int32 (i + 1))
  end.

Fixpoint parse (fuel : nat) : M Cell :=
  match fuel with
  | O => fun _ => OutOfFuel
  | S fuel' =>
      let* b := read_bit in
      if negb (b =? 0) then
        (* variable *)
        let* i := read_index fuel' 0 in
        ret (mkint i)
      else
        let* b := read_bit in
        if negb (b =? 0) then
          (* application *)
          let* c := parse fuel' in
          rs_push c;;
          let* c := parse fuel' in
          let* f := TOP in
          let* c := pair fuel' f c in
          POP;;
          ret c
        else
          (* lambda *)
          let* c := parse fuel' in
          pair fuel' LAMBDA c
  end.

(** ** Bracket abstraction *)

Definition IS_K1 (s : state) (x : Cell) : bool :=
  ispair x && (car s x =? COMB_K).
Definition IS_B2 (s : state) (x : Cell) : bool :=
  ispair x && ispair (car s x) && (car s (car s x) =? COMB_B).

(** The part of [unabstract] after the two recursive calls: [f] is [TOP]
    and [g] is [PUSHED(1)]. *)
Definition unabstract_combine (fuel : nat) (f g : Cell) : M Cell :=
  let* f_k1 := get (fun s => IS_K1 s f) in
  if f_k1 then
    if g =? COMB_I then
      (* S (K x) I => x *)
      get (fun s => cdr s f)
    else
      let* g_k1 := get (fun s => IS_K1 s g) in
      if g_k1 then
        (* S (K x) (K y) => K (x y) *)
        let* x := get (fun s => cdr s f) in
        modify (set_car g x);;
        modify (set_cdr f g);;
        ret f
      else
        let* g_b2 := get (fun s => IS_B2 s g) in
        if g_b2 then
          (* S (K x) (B y z) => B* x y z *)
          modify (set_car f COMB_BS);;
          let* by_ := get (fun s => car s g) in
          modify (set_car by_ f);;
          ret g
        else
          (* S (K x) y => B x y *)
          modify (set_car f COMB_B);;
          pair fuel f g
  else
    let* g_k1 := get (fun s => IS_K1 s g) in
    if g_k1 then
      let* f_b2 := get (fun s => IS_B2 s f) in
      if f_b2 then
        (* S (B x y) (K z) => C' x y z *)
        let* bx := get (fun s => car s f) in
        modify (set_car bx COMB_CP);;
        modify (set_car g f);;
        ret g
      else
        (* S x (K y) => C x y *)
        let* y := get (fun s => cdr s g) in
        let* t := TOP in
        modify (SET g COMB_C t);;
        pair fuel g y
    else
      let* f_b2 := get (fun s => IS_B2 s f) in
      if f_b2 then
        (* S (B x y) z => S' x y z *)
        let* bx := get (fun s => car s f) in
        modify (set_car bx COMB_SP);;
        pair fuel f g
      else
        (* S x y *)
        let* f := pair fuel COMB_S f in
        let* g := PUSHED 1 in
        pair fuel f g.

(** In [g = PUSHED(1) = unabstract(PUSHED(1))] the slot is written
    where the stack pointer stands when the call has returned. *)
Fixpoint unabstract (fuel : nat) (t : Cell) : M Cell :=
  match fuel with
  | O => fun _ => OutOfFuel
  | S fuel' =>
      if isint t then
        if t =? mkint 0 then ret COMB_I
        else pair fuel' COMB_K (mkint (int32 (intof t - 1)))
      else if ispair t then
        let* d := get (fun s => cdr s t) in
        rs_push d;;
        let* a := get (fun s => car s t) in
        let* f := unabstract fuel' a in
        rs_push f;;
        let* d := PUSHED 1 in
        let* g := unabstract fuel' d in
        set_PUSHED 1 g;;
        let* f := TOP in
        let* f := unabstract_combine fuel' f g in
        DROP 2;;
        ret f
      else pair fuel' COMB_K t
  end.

Fixpoint translate (fuel : nat) (t : Cell) : M Cell :=
  match fuel with
  | O => fun _ => OutOfFuel
  | S fuel' =>
      if negb (ispair t) then ret t
      else
        let* a := get (fun s => car s t) in
        if a =? LAMBDA then
          let* d := get (fun s => cdr s t) in
          let* b := translate fuel' d in
          unabstract fuel' b
        else
          let* d := get (fun s => cdr s t) in
          rs_push d;;
          let* a := get (fun s => car s t) in
          let* f := translate fuel' a in
          rs_push f;;
          let* d := PUSHED 1 in
          let* s_ := translate fuel' d in
          let* f := TOP in
          let* s_ := pair fuel' f s_ in
          DROP 2;;
          ret s_
  end.

Definition load_program (fuel : nat) : M Cell :=
  let* t := parse fuel in translate fuel t.

(** ** Reducer *)

(** [APPLICABLE(n)] is [bottom - rd_stack.sp > n]. *)
Definition APPLICABLE (bottom : Z) (n : Z) : M bool :=
  get (fun s => bottom - sp s >? n).

(** [SET(c, fst, snd)] with the two operands read from the machine, the
    first stored before the second is read. *)
Definition SETM (c : Cell) (fst snd : M Cell) : M unit :=
  let* x := fst in
  modify (set_car c x);;
  let* y := snd in
  modify (set_cdr c y).

Definition putchar (c : Z) : M unit :=
  modify (fun s => set_output (output s ++ [c mod 256]) s).

(** [while (ispair(TOP)) PUSH(car(TOP));] *)
Fixpoint unspine (fuel : nat) : M unit :=
  match fuel with
  | O => fun _ => OutOfFuel
  | S fuel' =>
      let* t := TOP in
      if ispair t then
        let* a := get (fun s => car s t) in
        rs_push a;;
        unspine fuel'
      else ret tt
  end.

(** What one turn of the loop of [eval] does after the spine is
    unwound: [Return] for [return], [Continue] when a rule fired. *)
Inductive turn : Type := Continue | Return.

(** The [READ] rule. *)
Definition reduce_READ (fuel : nat) : M turn :=
  let* c := read_char in
  if c =? EOF then
    POP;;
    let* t := TOP in
    modify (SET t COMB_I COMB_KI);;
    ret Continue
  else
    let* a := alloc fuel 2 in
    modify (SET (padd a 0) COMB_CONS (mkchar (if c =? EOF then 256 else c)));;
    modify (SET (padd a 1) COMB_READ NIL);;
    POP;;
    let* t := TOP in
    modify (SET t (padd a 0) (padd a 1));;
    ret Continue.

(** The [PUTC] rule, after the nested [eval(a+1)] has returned. *)
Definition reduce_PUTC_finish : M turn :=
  let* t := TOP in
  (if negb (isint t) then errexit Err_not_a_number else ret tt);;
  (if intof t >=? 256 then errexit (Err_invalid_character (intof t))
   else ret tt);;
  putchar (intof t);;
  POP;;
  let* t := TOP in
  let* y := get (fun s => cdr s t) in
  let* p := PUSHED 1 in
  modify (set_cdr p y);;
  POP;;
  let* t := TOP in
  modify (set_car t COMB_WRITE);;
  ret Continue.

(** The [PUTC] rule up to the nested [eval]: it builds [x INC 0] and
    returns its root [a+1]. *)
Definition reduce_PUTC_start (fuel : nat) : M Cell :=
  let* a := alloc fuel 2 in
  SETM (padd a 0) (ARG 1) (ret COMB_INC);;
  modify (SET (padd a 1) (padd a 0) (mkint 0));;
  DROP 2;;
  ret (padd a 1).

(** The [PUTC] rule; [ev] is the nested [eval]. *)
Definition reduce_PUTC (fuel : nat) (ev : Cell -> M unit) : M turn :=
  let* r := reduce_PUTC_start fuel in
  ev r;;
  reduce_PUTC_finish.

(** The [INC] rule. *)
Definition reduce_INC (ev : Cell -> M unit) : M turn :=
  let* c := ARG 1 in
  POP;;
  ev c;;
  let* c := POP in
  (if negb (isint c) then errexit Err_inc_non_number else ret tt);;
  let* t := TOP in
  modify (SET t COMB_I (mkint (int32 (intof c + 1))));;
  ret Continue.

(** The rule for a character at the head, applied to two arguments. *)
Definition reduce_char (fuel : nat) (top : Cell) : M turn :=
  let c := charof top in
  if c <=? 0 then
    let* z := ARG 2 in
    DROP 2;;
    let* t := TOP in
    modify (SET t COMB_I z);;
    ret Continue
  else
    let* a := alloc fuel 2 in
    let* f := ARG 1 in
    modify (SET (padd a 0) (mkchar (int32 (c - 1))) f);;
    SETM (padd a 1) (ret (padd a 0)) (ARG 2);;
    DROP 2;;
    let* t := TOP in
    modify (SET t f (padd a 1));;
    ret Continue.

(** The chain of tests in the loop of [eval], on the head [TOP]. *)
Definition reduce (fuel : nat) (ev : Cell -> M unit) (bottom : Z) : M turn :=
  let* top := TOP in
  let* depth := get (fun s => bottom - sp s) in
  let applicable n := depth >? n in
  if (top =? COMB_I) && applicable 1 then
    POP;;
    let* t := TOP in
    let* d := get (fun s => cdr s t) in
    set_TOP d;;
    ret Continue
  else if (top =? COMB_S) && applicable 3 then
    let* a := alloc fuel 2 in
    SETM (padd a 0) (ARG 1) (ARG 3);;
    SETM (padd a 1) (ARG 2) (ARG 3);;
    DROP 3;;
    let* t := TOP in
    modify (SET t (padd a 0) (padd a 1));;
    ret Continue
  else if (top =? COMB_K) && applicable 2 then
    let* x := ARG 1 in
    DROP 2;;
    let* t := TOP in
    modify (SET t COMB_I x);;
    let* t := TOP in
    let* d := get (fun s => cdr s t) in
    set_TOP d;;
    ret Continue
  else if (top =? COMB_B) && applicable 3 then
    let* g := ARG 2 in
    let* x := ARG 3 in
    let* gx := pair fuel g x in
    let* f := ARG 1 in
    DROP 3;;
    let* t := TOP in
    modify (SET t f gx);;
    ret Continue
  else if (top =? COMB_C) && applicable 3 then
    let* f := ARG 1 in
    let* x := ARG 3 in
    let* fx := pair fuel f x in
    let* g := ARG 2 in
    DROP 3;;
    let* t := TOP in
    modify (SET t fx g);;
    ret Continue
  else if (top =? COMB_SP) && applicable 4 then
    let* a := alloc fuel 3 in
    SETM (padd a 0) (ARG 2) (ARG 4);;
    SETM (padd a 1) (ARG 3) (ARG 4);;
    SETM (padd a 2) (ARG 1) (ret (padd a 0));;
    DROP 4;;
    let* t := TOP in
    modify (SET t (padd a 2) (padd a 1));;
    ret Continue
  else if (top =? COMB_BS) && applicable 4 then
    let* a := alloc fuel 2 in
    SETM (padd a 0) (ARG 3) (ARG 4);;
    SETM (padd a 1) (ARG 2) (ret (padd a 0));;
    let* c := ARG 1 in
    DROP 4;;
    let* t := TOP in
    modify (SET t c (padd a 1));;
    ret Continue
  else if (top =? COMB_CP) && applicable 4 then
    let* a := alloc fuel 2 in
    SETM (padd a 0) (ARG 2) (ARG 4);;
    SETM (padd a 1) (ARG 1) (ret (padd a 0));;
    let* g := ARG 3 in
    DROP 4;;
    let* t := TOP in
    modify (SET t (padd a 1) g);;
    ret Continue
  else if (top =? COMB_IOTA) && applicable 1 then
    let* x := ARG 1 in
    let* xs := pair fuel x COMB_S in
    POP;;
    let* t := TOP in
    modify (SET t xs COMB_K);;
    ret Continue
  else if (top =? COMB_KI) && applicable 2 then
    DROP 2;;
    let* t := TOP in
    modify (set_car t COMB_I);;
    ret Continue
  else if (top =? COMB_CONS) && applicable 3 then
    let* f := ARG 3 in
    let* x := ARG 1 in
    let* fx := pair fuel f x in
    let* y := ARG 2 in
    DROP 3;;
    let* t := TOP in
    modify (SET t fx y);;
    ret Continue
  else if (top =? COMB_READ) && applicable 2 then
    reduce_READ fuel
  else if (top =? COMB_WRITE) && applicable 1 then
    POP;;
    let* t := TOP in
    let* x := get (fun s => cdr s t) in
    let* a := pair fuel x COMB_PUTC in
    let* t := TOP in
    modify (SET t a COMB_RETURN);;
    ret Continue
  else if (top =? COMB_PUTC) && applicable 3 then
    reduce_PUTC fuel ev
  else if top =? COMB_RETURN then
    ret Return
  else if (top =? COMB_INC) && applicable 1 then
    reduce_INC ev
  else if ischar top && applicable 2 then
    reduce_char fuel top
  else if isint top && applicable 1 then
    errexit Err_apply_number
  else
    ret Return.

(** The loop of [eval] below [PUSH(root)]; a nested [eval(c)] records
    its own [bottom], pushes [c] and runs the same loop. *)
Fixpoint eval_loop (fuel : nat) (bottom : Z) : M unit :=
  match fuel with
  | O => fun _ => OutOfFuel
  | S fuel' =>
      unspine fuel';;
      let* r := reduce fuel'
                  (fun root =>
                     let* b := get sp in
                     rs_push root;;
                     eval_loop fuel' b)
                  bottom in
      match r with
      | Return => ret tt
      | Continue =>
          modify (fun s => set_reductions (int32 (reductions s + 1)) s);;
          eval_loop fuel' bottom
      end
  end.

Definition eval (fuel : nat) (root : Cell) : M unit :=
  let* bottom := get sp in
  rs_push root;;
  eval_loop fuel bottom.

Definition eval_print (fuel : nat) (root : Cell) : M unit :=
  let* a := pair fuel COMB_READ NIL in
  let* b := pair fuel root a in
  let* c := pair fuel COMB_WRITE b in
  eval fuel c.

(** ** Main *)

(** The process before [main] runs: nothing allocated, nothing read or
    written. *)
Definition boot : state :=
  mkState ∅ FIRST_BLOCK 0 0 0 0 None [] (mkInput [] [] [] 0 0) [] 0.

(** [main] without its options, for a heap of [size] cells: the files
    named on the command line are [argv]. *)
Definition run (size : Z) (fuel : nat) (argv : list file) (stdin : list Z)
  : result unit :=
  (input_init argv stdin;;
   storage_init size;;
   rs_init;;
   let* root := load_program fuel in
   eval_print fuel root) boot.

Definition main (fuel : nat) (argv : list file) (stdin : list Z)
  : result unit :=
  run INITIAL_HEAP_SIZE fuel argv stdin.

(** * Specification-level notions *)

(** ** The stack pointer across a call *)

(** [shifts d m]: whenever [m] returns it has pushed [d] slots more
    than it dropped. *)
Definition shifts {A} (d : Z) (m : M A) : Prop :=
  forall s a s', m s = Ok a s' -> sp s' = sp s - d.

(** ** Trees in the heap *)

(** A binary tree of cells: what a graph without sharing looks like when
    it is read off the memory. *)
Inductive tree : Type :=
| Leaf (c : Cell)
| Node (l r : tree).

Fixpoint size (t : tree) : Z :=
  match t with
  | Leaf _ => 1
  | Node l r => 1 + size l + size r
  end.

(** [repr s c t F]: in the memory of [s] the cell [c] is the root of
    the tree [t], whose Pairs are those at the addresses [F], each used
    once. *)
Inductive repr (s : state) : Cell -> tree -> gset Z -> Prop :=
| repr_Leaf c :
    ispair c = false -> repr s c (Leaf c) ∅
| repr_Node c L R Fa Fd :
    ispair c = true ->
    repr s (car s c) L Fa ->
    repr s (cdr s c) R Fd ->
    Fa ## Fd -> c ∉ Fa -> c ∉ Fd ->
    repr s c (Node L R) ({[c]} ∪ Fa ∪ Fd).

Definition represents (s : state) (c : Cell) (t : tree) : Prop :=
  exists F, repr s c t F.

(** All addresses of [F] lie in [lo, hi). *)
Definition within (lo hi : Z) (F : gset Z) : Prop :=
  forall a, a ∈ F -> lo <= a < hi.


(** ** What the source denotes: lambda terms and their encoding *)

Inductive term : Type :=
| Var (k : nat)
| App (f g : term)
| Lam (b : term).

(** The tree [parse] builds for a term. *)
Fixpoint tree_of (t : term) : tree :=
  match t with
  | Var k => Leaf (mkint (Z.of_nat k))
  | App f g => Node (tree_of f) (tree_of g)
  | Lam b => Node (Leaf LAMBDA) (tree_of b)
  end.

(** The bits of a term, as [parse] reads them: a variable is a [1],
    then as many [1]s as its index, then a [0]; [0 1] opens an
    application and [0 0] a lambda. *)
Fixpoint encode (t : term) : list Z :=
  match t with
  | Var k => 1 :: repeat 1 k ++ [0]
  | App f g => 0 :: 1 :: encode f ++ encode g
  | Lam b => 0 :: 0 :: encode b
  end.


(** ** Bracket abstraction on trees, after the specification *)

Definition K_ (x : tree) : tree := Node (Leaf COMB_K) x.
Definition B_ (x y : tree) : tree := Node (Node (Leaf COMB_B) x) y.
Definition C_ (x y : tree) : tree := Node (Node (Leaf COMB_C) x) y.
Definition S_ (x y : tree) : tree := Node (Node (Leaf COMB_S) x) y.
Definition SP_ (x y z : tree) : tree :=
  Node (Node (Node (Leaf COMB_SP) x) y) z.
Definition BS_ (x y z : tree) : tree :=
  Node (Node (Node (Leaf COMB_BS) x) y) z.
Definition CP_ (x y z : tree) : tree :=
  Node (Node (Node (Leaf COMB_CP) x) y) z.

(** [t] is [K x]. *)
Definition is_K (t : tree) : option tree :=
  match t with
  | Node (Leaf c) x => if c =? COMB_K then Some x else None
  | _ => None
  end.

(** [t] is [B x y]. *)
Definition is_B (t : tree) : option (tree * tree) :=
  match t with
  | Node (Node (Leaf c) x) y => if c =? COMB_B then Some (x, y) else None
  | _ => None
  end.

(** [t] is [I]. *)
Definition is_I (t : tree) : bool :=
  match t with
  | Leaf c => c =? COMB_I
  | _ => false
  end.

(** The peephole table of the specification, first match winning. *)
Definition peephole_spec (f g : tree) : tree :=
  match is_K f with
  | Some x =>
      if is_I g then x
      else match is_K g with
           | Some y => K_ (Node x y)
           | None =>
               match is_B g with
               | Some (y, z) => BS_ x y z
               | None => B_ x g
               end
           end
  | None =>
      match is_K g with
      | Some y =>
          match is_B f with
          | Some (x, z) => CP_ x z y
          | None => C_ f y
          end
      | None =>
          match is_B f with
          | Some (x, y) => SP_ x y g
          | None => S_ f g
          end
      end
  end.

(** [unabstract] as the specification states it. *)
Fixpoint unabstract_spec (t : tree) : tree :=
  match t with
  | Leaf c =>
      if isint c then
        if c =? mkint 0 then Leaf COMB_I
        else K_ (Leaf (mkint (intof c - 1)))
      else K_ (Leaf c)
  | Node f g => peephole_spec (unabstract_spec f) (unabstract_spec g)
  end.


(** ** Calls that return, and what holds then *)

(** [total m s Q]: from [s] the call [m] returns, with a result and a
    state that satisfy [Q]. *)
Definition total {A} (m : M A) (s : state) (Q : A -> state -> Prop) : Prop :=
  exists a s', m s = Ok a s' /\ Q a s'.

(** The state after [pair(a, b)] took the next free Pair without
    collecting. *)
Definition bump (a b : Cell) (s : state) : state :=
  SET (free_ptr s) a b (set_free_ptr (padd (free_ptr s) 1) s).

(** Pair pointers are aligned to [sizeof(Pair)]. *)
Definition aligned (p : Z) : Prop := p mod PAIR_SIZE = 0.

(** What a call that builds the tree [t] at [c] leaves behind: its Pairs
    lie between [lo] and the new allocation pointer, at most [n] Pairs
    were taken, and nothing below [lo], no register but the allocation
    pointer, and neither the stack nor the input changed. *)
Definition wrote (lo n : Z) (s : state) (t : tree) (c : Cell) (s' : state)
  : Prop :=
  exists F',
    repr s' c t F' /\ within lo (free_ptr s') F' /\
    free_ptr s <= free_ptr s' <= padd (free_ptr s) n /\
    aligned (free_ptr s') /\
    (forall a, a < lo -> mem s' !! a = mem s !! a) /\
    heap_area s' = heap_area s /\ rd_stack s' = rd_stack s /\
    input s' = input s.




(** ** The bits ahead in the input *)

(** The bits of the byte [ch] from the one under the mask [bit] on, at
    most [n] of them. *)
Fixpoint bits_from (n : nat) (ch bit : Z) : list Z :=
  match n with
  | O => []
  | S n' =>
      if bit =? 0 then []
      else (if Z.land ch bit =? 0 then 0 else 1)
             :: bits_from n' ch (Z.shiftr bit 1)
  end.

(** The bytes of the sources that follow the open one: the files named
    after it, then standard input. *)
Fixpoint upcoming (argv : list file) (stdin : list Z) : list Z :=
  match argv with
  | [] => []
  | _ :: argv' =>
      match argv' with
      | [] => stdin
      | f :: _ => default [] (fdata f) ++ upcoming argv' stdin
      end
  end.

(** The bytes [read_char] has still to deliver. *)
Definition pending (i : InputStream) : list Z :=
  in_fp i ++ upcoming (in_argv i) (in_stdin i).

(** The bits [read_bit] has still to deliver. *)
Definition next_bits (s : state) : list Z :=
  bits_from 8 (in_ch (input s)) (in_bit (input s))
    ++ flat_map (fun b => bits_from 8 b 128) (pending (input s)).

(** The input is sound: the bit mask is within a byte, every later file
    can be opened, and every byte ahead is a byte. *)
Definition input_ok (s : state) : Prop :=
  0 <= in_bit (input s) < 256 /\
  Forall (fun f => is_Some (fdata f)) (tail (in_argv (input s))) /\
  Forall (fun b => 0 <= b < 256) (pending (input s)).

(** What [parse] leaves behind when it has read the term behind [t]
    and the bits [bs] are still ahead. *)
Definition parsed (lo n : Z) (s : state) (bs : list Z) (t : tree) (c : Cell)
  (s' : state) : Prop :=
  exists F',
    repr s' c t F' /\ within lo (free_ptr s') F' /\
    free_ptr s <= free_ptr s' <= padd (free_ptr s) n /\
    aligned (free_ptr s') /\
    (forall a, a < lo -> mem s' !! a = mem s !! a) /\
    heap_area s' = heap_area s /\ rd_stack s' = rd_stack s /\
    next_bits s' = bs /\ input_ok s'.

(** The number of bits of a term: it bounds the Pairs, the stack slots
    and the fuel [parse] needs for it. *)
Definition bits (t : term) : Z := Z.of_nat (length (encode t)).


(** ** Predicates on trees *)

(** Every leaf of the tree satisfies [P]. *)
Fixpoint leaves (P : Cell -> Prop) (t : tree) : Prop :=
  match t with
  | Leaf c => P c
  | Node l r => leaves P l /\ leaves P r
  end.



(** The state in which [main] calls [load_program], for a heap of
    [size] cells. *)
Definition startup (size : Z) (argv : list file) (stdin : list Z) : state :=
  match (input_init argv stdin;; storage_init size;; rs_init) boot with
  | Ok _ s => s
  | _ => boot
  end.

(** The deepest nesting of lambdas in a term. *)
Fixpoint lam_depth (t : term) : nat :=
  match t with
  | Var _ => O
  | App f g => Nat.max (lam_depth f) (lam_depth g)
  | Lam b => S (lam_depth b)
  end.


(** ** Reading a tree back from the memory *)

(** The addresses of the Pairs of the tree [t] rooted at [c], if [c] is
    the root of [t] in the memory of [s] and no Pair is used twice. *)
Fixpoint footprint (s : state) (c : Cell) (t : tree) : option (gset Z) :=
  match t with
  | Leaf c' => if (c =? c') && negb (ispair c) then Some ∅ else None
  | Node l r =>
      if ispair c then
        match footprint s (car s c) l, footprint s (cdr s c) r with
        | Some Fa, Some Fd =>
            if decide (Fa ## Fd /\ (c ∉ Fa) /\ (c ∉ Fd))
            then Some ({[c]} ∪ Fa ∪ Fd)
            else None
        | _, _ => None
        end
      else None
  end.

(** [stored s c t]: the tree [t] is rooted at [c] and lies in the part
    of the heap that has been allocated. *)
Definition stored (s : state) (c : Cell) (t : tree) : Prop :=
  exists F, repr s c t F /\ within 0 (free_ptr s) F.

(** The same, decided by reading the memory. *)
Definition stored_check (s : state) (c : Cell) (t : tree) : bool :=
  match footprint s c t with
  | Some F =>
      forallb (fun a => (0 <=? a) && (a <? free_ptr s)) (elements F)
  | None => false
  end.

(** ** Sample runs *)



(** The same for [0 1 1 1 0 1 1 0], the application [1 1] of the
    variable 1 to itself, and the state and cell [parse] returns. *)
Definition demo_app : state := startup INITIAL_HEAP_SIZE [] [118].

Definition demo_app_parsed : Cell * state :=
  match parse 64 demo_app with
  | Ok c s => (c, s)
  | _ => (0, boot)
  end.


(** What [translate] and [unabstract] return for that tree. *)
Definition demo_app_translated : Cell * state :=
  match translate 64 (fst demo_app_parsed) (snd demo_app_parsed) with
  | Ok c s => (c, s)
  | _ => (0, boot)
  end.

Definition demo_app_unabstracted : Cell * state :=
  match unabstract 64 (fst demo_app_parsed) (snd demo_app_parsed) with
  | Ok c s => (c, s)
  | _ => (0, boot)
  end.

(** ** Messages *)

(** [sub] occurs in [s]. *)
Fixpoint contains (sub s : string) : bool :=
  String.prefix sub s ||
  match s with
  | EmptyString => false
  | String _ s' => contains sub s'
  end.

(** ** Sample redexes *)

(** The reducer about to apply the [READ] rule to [READ NIL K], with
    the bytes [stdin] on standard input: the stack holds [READ], then
    the Pairs [(READ, NIL)] and [((READ, NIL), K)]. *)
Definition at_READ (stdin : list Z) : state :=
  match (let* a := pair 0 COMB_READ NIL in
         let* b := pair 0 a COMB_K in
         rs_push b;;
         unspine 8) (startup INITIAL_HEAP_SIZE [] stdin) with
  | Ok _ s => s
  | _ => boot
  end.

(** The reducer about to apply the [PUTC] rule to [PUTC x NIL RETURN]. *)
Definition at_PUTC (x : Cell) : state :=
  match (let* a := pair 0 COMB_PUTC x in
         let* b := pair 0 a NIL in
         let* c := pair 0 b COMB_RETURN in
         rs_push c;;
         unspine 8) (startup INITIAL_HEAP_SIZE [] []) with
  | Ok _ s => s
  | _ => boot
  end.

(** The root of [x INC 0] and the state in which the nested [eval] of
    the [PUTC] rule is entered, and the state in which it returns. *)
Definition at_PUTC_nested (x : Cell) : Cell * state :=
  match reduce_PUTC_start 8 (at_PUTC x) with
  | Ok r s => (r, s)
  | _ => (0, boot)
  end.

Definition at_PUTC_returned (x : Cell) : state :=
  match eval 4000 (fst (at_PUTC_nested x)) (snd (at_PUTC_nested x)) with
  | Ok _ s => s
  | _ => boot
  end.

(** ** The bit buffer of the loader *)

(** The state with the byte and the mask of [read_bit] replaced. *)
Definition with_bitbuf (ch bit : Z) (s : state) : state :=
  set_input (set_in_bit bit (set_in_ch ch (input s))) s.

Definition map_state {A} (f : state -> state) (r : result A) : result A :=
  match r with
  | Ok a s => Ok a (f s)
  | Exit e s => Exit e (f s)
  | AssertFail s => AssertFail (f s)
  | Undefined => Undefined
  | OutOfFuel => OutOfFuel
  end.

(** [blind m]: the call [m] does not depend on the bit buffer and
    leaves it as it is. *)
Definition blind {A} (m : M A) : Prop :=
  forall ch bit s,
    m (with_bitbuf ch bit s) = map_state (with_bitbuf ch bit) (m s).

(** The program [0 0 1 0], the term [\ 0], in a byte whose last four
    bits are ones, then the two bytes of input [72] and [105]; and how
    [main] ends on it. *)
Definition demo_cat : result unit := main 1000 [] [47; 72; 105].

(** * Notions for the properties of the single parts *)

(** ** The loader's bits *)

(** [n] calls of [read_bit], the bits in the order they were read. *)
Fixpoint read_bits (n : nat) : M (list Z) :=
  match n with
  | O => ret []
  | S n' =>
      let* b := read_bit in
      let* bs := read_bits n' in
      ret (b :: bs)
  end.

(** The number the bits [bs] spell, the first one the most significant. *)
Definition from_bits (bs : list Z) : Z :=
  fold_left (fun acc b => 2 * acc + b) bs 0.

(** [(ch & m) ? 1 : 0] *)
Definition bit_of (ch m : Z) : Z := if Z.land ch m =? 0 then 0 else 1.

(** Two files named on the command line, the first one read to its end
    and the second one empty, before one byte of standard input; and the
    same with a second file that cannot be opened. *)
Definition demo_two_files : state :=
  set_input (mkInput [File "a" (Some [1]); File "b" (Some [])] [] [7] 0 0) boot.
Definition demo_lost_file : state :=
  set_input (mkInput [File "a" (Some [1]); File "b" None] [] [7] 0 0) boot.

(** A reduction stack with every slot taken. *)
Definition demo_full_stack : state :=
  set_rd_stack (fun _ => repeat NIL (Z.to_nat RDSTACK_SIZE)) boot.

(** Two bytes ahead on standard input, none of their bits read. *)
Definition demo_byte : state :=
  set_input (mkInput [] [165; 66] [] 0 0) boot.

(** A program that ends in the middle of its term: the byte [00011000]
    opens a lambda, an application, gives a variable and opens a second
    lambda whose body is missing. *)
Definition demo_cut : state := startup INITIAL_HEAP_SIZE [] [24].

(** ** What a call leaves as it was *)

(** [keeps R m]: however the call [m] ends, the state it ends in is
    related by [R] to the one it started from. *)
Definition keeps (R : state -> state -> Prop) {A} (m : M A) : Prop :=
  forall s,
    match m s with
    | Ok _ s' | Exit _ s' | AssertFail s' => R s s'
    | Undefined | OutOfFuel => True
    end.

(** Input, output and the count of reductions are the same, and the
    stack has as many slots. *)
Definition same_io (s s' : state) : Prop :=
  input s' = input s /\ output s' = output s /\
  reductions s' = reductions s /\
  length (rd_stack s') = length (rd_stack s).

(** The planned size of the next heap and the break of the process only
    grow. *)
Definition sizes_grow (s s' : state) : Prop :=
  next_heap_size s <= next_heap_size s' /\ brk s <= brk s'.

(** [unfailing m]: the call [m] never fails an assertion. *)
Definition unfailing {A} (m : M A) : Prop :=
  forall s, match m s with AssertFail _ => False | _ => True end.

(** ** Chains of indirections *)

(** [I_chain s n c r]: from [c], [n] steps along the [cdr] of Pairs
    whose [car] is [I] lead to [r]. *)
Inductive I_chain (s : state) : nat -> Cell -> Cell -> Prop :=
| I_chain_end c : I_chain s 0 c c
| I_chain_step n c r :
    ispair c = true -> car s c = COMB_I ->
    I_chain s n (cdr s c) r ->
    I_chain s (S n) c r.

(** [ispair(c) && car(c) == COMB_I] *)
Definition is_I_pair (s : state) (c : Cell) : bool :=
  ispair c && (car s c =? COMB_I).

(** A heap of one Pair, taken and held by the stack: the next
    allocation has to collect, and to collect twice. *)
Definition demo_tight : state :=
  match (let* c := pair 0 COMB_K COMB_I in rs_push c)
          (startup 1 [] []) with
  | Ok _ s => s
  | _ => boot
  end.

(** The Pairs [(I, K)] at 4096, [(I, 4096)] at 4104 and [(S, 4104)] at
    4112, the last one on the stack. *)
Definition demo_chain : state :=
  match (let* a := pair 0 COMB_I COMB_K in
         let* b := pair 0 COMB_I a in
         let* c := pair 0 COMB_S b in
         rs_push c)
          (startup 8 [] []) with
  | Ok _ s => s
  | _ => boot
  end.

(** ** Graphs read as terms *)

(** [reads s c t]: followed from [c], the graph in the memory of [s]
    unfolds to the tree [t]; a Pair that is reached twice is read twice. *)
Inductive reads (s : state) : Cell -> tree -> Prop :=
| reads_Leaf c : ispair c = false -> reads s c (Leaf c)
| reads_Node c L R :
    ispair c = true ->
    reads s (car s c) L -> reads s (cdr s c) R ->
    reads s c (Node L R).

(** [reach s c a]: the Pair [a] is [c] or is reached from it. *)
Inductive reach (s : state) : Cell -> Cell -> Prop :=
| reach_here c : ispair c = true -> reach s c c
| reach_car c a : ispair c = true -> reach s (car s c) a -> reach s c a
| reach_cdr c a : ispair c = true -> reach s (cdr s c) a -> reach s c a.

(** [unfolds s c t]: [c] reads as [t], and every Pair on the way lies
    below the allocation pointer. *)
Definition unfolds (s : state) (c : Cell) (t : tree) : Prop :=
  reads s c t /\ forall a, reach s c a -> a < free_ptr s.

(** The same, decided by reading the memory. *)
Fixpoint unfolds_check (s : state) (c : Cell) (t : tree) : bool :=
  match t with
  | Leaf k => (c =? k) && negb (ispair c)
  | Node l r =>
      ispair c && (c <? free_ptr s)
      && unfolds_check s (car s c) l && unfolds_check s (cdr s c) r
  end.

(** Application of one term to another. *)
Notation "f · x" := (Node f x) (at level 34, left associativity).

(** ** The rules of the reducer, on terms *)

(** [contracts t t']: the rule for the head of the redex [t], as the
    loop of [eval] has it, leaves [t'] on top of the stack.  The rules
    for [K] and [I] leave the result itself there, those for [KI] and
    for the character zero an [I] applied to it. *)
Inductive contracts : tree -> tree -> Prop :=
| contracts_I x :
    contracts (Leaf COMB_I · x) x
| contracts_S f g x :
    contracts (Leaf COMB_S · f · g · x) (f · x · (g · x))
| contracts_K x y :
    contracts (Leaf COMB_K · x · y) x
| contracts_B f g x :
    contracts (Leaf COMB_B · f · g · x) (f · (g · x))
| contracts_C f g x :
    contracts (Leaf COMB_C · f · g · x) (f · x · g)
| contracts_SP c f g x :
    contracts (Leaf COMB_SP · c · f · g · x) (c · (f · x) · (g · x))
| contracts_BS c f g x :
    contracts (Leaf COMB_BS · c · f · g · x) (c · (f · (g · x)))
| contracts_CP c f g x :
    contracts (Leaf COMB_CP · c · f · g · x) (c · (f · x) · g)
| contracts_IOTA x :
    contracts (Leaf COMB_IOTA · x) (x · Leaf COMB_S · Leaf COMB_K)
| contracts_KI x y :
    contracts (Leaf COMB_KI · x · y) (Leaf COMB_I · y)
| contracts_CONS x y f :
    contracts (Leaf COMB_CONS · x · y · f) (f · x · y)
| contracts_WRITE x :
    contracts (Leaf COMB_WRITE · x) (x · Leaf COMB_PUTC · Leaf COMB_RETURN)
| contracts_zero c f z :
    ischar c = true -> charof c <= 0 ->
    contracts (Leaf c · f · z) (Leaf COMB_I · z)
| contracts_succ c f z :
    ischar c = true -> 0 < charof c ->
    contracts (Leaf c · f · z)
      (f · (Leaf (mkchar (int32 (charof c - 1))) · f · z)).

(** The spine below [c]: [k] Pairs along the [car]s, then a head that
    is no Pair; and the stack [unspine] leaves when it has pushed it. *)
Fixpoint is_spine (s : state) (k : nat) (c : Cell) : Prop :=
  match k with
  | O => ispair c = false
  | S k' => ispair c = true /\ is_spine s k' (car s c)
  end.

Fixpoint spine (s : state) (k : nat) (c : Cell) (st : list Cell) : list Cell :=
  match k with
  | O => c :: st
  | S k' => spine s k' (car s c) (c :: st)
  end.

(** The redex [S K K (K I)], its root on the stack. *)
Definition demo_redex : state :=
  match (let* a := pair 0 COMB_S COMB_K in
         let* b := pair 0 a COMB_K in
         let* x := pair 0 COMB_K COMB_I in
         let* r := pair 0 b x in
         rs_push r)
          (startup 64 [] []) with
  | Ok _ s => s
  | _ => boot
  end.

Definition arity (c : Cell) : option Z :=
  if c =? COMB_I then Some 1
  else if c =? COMB_S then Some 3
  else if c =? COMB_K then Some 2
  else if c =? COMB_B then Some 3
  else if c =? COMB_C then Some 3
  else if c =? COMB_SP then Some 4
  else if c =? COMB_BS then Some 4
  else if c =? COMB_CP then Some 4
  else if c =? COMB_IOTA then Some 1
  else if c =? COMB_KI then Some 2
  else if c =? COMB_CONS then Some 3
  else if c =? COMB_READ then Some 2
  else if c =? COMB_WRITE then Some 1
  else if c =? COMB_PUTC then Some 3
  else if c =? COMB_RETURN then None
  else if c =? COMB_INC then Some 1
  else if ischar c then Some 2
  else if isint c then Some 1
  else None.

Definition demo_partial : state :=
  match (let* a := pair 0 COMB_S COMB_K in
         let* b := pair 0 a COMB_K in
         rs_push b;; unspine 8)
          (startup 64 [] []) with
  | Ok _ s => s
  | _ => boot
  end.

(** ** Equality of terms under the rules *)

(** [converts t u]: [t] and [u] are equal in the theory of the rules of
    the reducer, a rule being used in either direction and anywhere in
    the term. *)
Inductive converts : tree -> tree -> Prop :=
| converts_rule t u : contracts t u -> converts t u
| converts_refl t : converts t t
| converts_sym t u : converts t u -> converts u t
| converts_trans t u v : converts t u -> converts u v -> converts t v
| converts_app f f' x x' :
    converts f f' -> converts x x' -> converts (f · x) (f' · x').

(** The body [t] of an abstraction with [x] put for its variable, in
    the numbering [unabstract] goes by: the Int 0 is the variable, any
    other Int counts one binder less outside. *)
Fixpoint instantiate (x : tree) (t : tree) : tree :=
  match t with
  | Leaf c =>
      if isint c then
        if c =? mkint 0 then x else Leaf (mkint (intof c - 1))
      else Leaf c
  | Node f g => instantiate x f · instantiate x g
  end.

(** [INC] applied to the Int 41, its root on the stack. *)
Definition demo_inc : state :=
  match (let* r := pair 0 COMB_INC (mkint 41) in rs_push r;; unspine 4)
          (startup 64 [] []) with
  | Ok _ s => s
  | _ => boot
  end.

(** The Int 7 applied to [K], its root on the stack. *)
Definition demo_number_applied : state :=
  match (let* r := pair 0 (mkint 7) COMB_K in rs_push r;; unspine 4)
          (startup 64 [] []) with
  | Ok _ s => s
  | _ => boot
  end.

(** ** The stack of a running [eval], read as a term *)

(** The number of arguments the head of [t] is applied to. *)
Fixpoint ldepth (t : tree) : nat :=
  match t with
  | Leaf _ => O
  | Node f _ => S (ldepth f)
  end.

(** [t] applied to the arguments [args], the first one first. *)
Definition applied (t : tree) (args : list tree) : tree :=
  fold_left Node args t.

(** [head_step w w']: the redex at the head of [w], its leftmost
    combinator with as many arguments as its rule takes, is contracted;
    the arguments that follow stay. *)
Inductive head_step : tree -> tree -> Prop :=
| head_here r t : contracts r t -> head_step r t
| head_app f f' x : head_step f f' -> head_step (f · x) (f' · x).

(** [args_converted w w']: the same head, applied to arguments that are
    equal under the rules, one by one. *)
Inductive args_converted : tree -> tree -> Prop :=
| args_same t : args_converted t t
| args_app f f' x x' :
    args_converted f f' -> converts x x' -> args_converted (f · x) (f' · x').

(** [frame s c t ns args]: below the cell [c], which stands for the
    term [t], the stack holds the Pairs [ns], the nearest first; each
    applies what is above it to the argument in its [cdr], and [args]
    are these arguments.  The loop reads a Pair of the stack for its
    [cdr] only: after the rules for [I] and [K], which put the result
    in the place of the top, the [car] of the next Pair still leads to
    the Pair that was reduced, hence to a term that is equal under the
    rules and from which the top is reached. *)
Inductive frame (s : state) : Cell -> tree -> list Cell -> list tree -> Prop :=
| frame_nil c t : frame s c t [] []
| frame_cons c t n ns l a args :
    unfolds s n (l · a) ->
    converts l t ->
    (ispair c = true -> reach s (car s n) c) ->
    frame s n (t · a) ns args ->
    frame s c t (n :: ns) (a :: args).

(** [I K S K] after the turn for [I]: [K] is on top, above the Pairs that
    apply it to [S] and to [K]; the [car] of the first of them still
    leads to the Pair [I K]. *)
Definition demo_stale : state :=
  match (let* a := pair 0 COMB_I COMB_K in
         let* b := pair 0 a COMB_S in
         let* c := pair 0 b COMB_K in
         rs_push c;; unspine 8;; reduce 8 (eval 8) RDSTACK_SIZE)
          (startup 64 [] []) with
  | Ok _ s => s
  | _ => boot
  end.

(** [running s below w]: above the slots [below], which the caller of
    [eval] left on the stack, the slots stand for the term [w]: the top
    unfolds to a term, and the Pairs under it apply it to their
    arguments. *)
Definition running (s : state) (below : list Cell) (w : tree) : Prop :=
  exists hc ns h args,
    rd_stack s = hc :: ns ++ below /\
    unfolds s hc h /\ frame s hc h ns args /\ w = applied h args.

(** ** Terms without input or output *)

(** The cells that start no input or output: all but [READ], [WRITE],
    [PUTC] and [INC]. *)
Definition pure_cell (c : Cell) : bool :=
  negb ((c =? COMB_READ) || (c =? COMB_WRITE) || (c =? COMB_PUTC)
        || (c =? COMB_INC)).

(** The slots of the stack above [below] unfold to terms that hold none
    of them. *)
Definition slots_pure (s : state) (below : list Cell) : Prop :=
  forall ns x t,
    rd_stack s = ns ++ below -> x ∈ ns -> unfolds s x t ->
    leaves (fun k => pure_cell k = true) t.

(** The leftmost leaf of a term. *)
Fixpoint head (t : tree) : Cell :=
  match t with
  | Leaf c => c
  | Node f _ => head f
  end.




(** ** Printing a term *)

(** The code of a character of the source text. *)
Definition chr (a : ascii) : Z := Z.of_nat (nat_of_ascii a).

(** [unparse]: an application is a backquote before its two parts; the
    combinators the translation produces have a letter or two, [KI] is
    written as the application it abbreviates, and anything else is a
    question mark. *)
Fixpoint unparse (fuel : nat) (e : Cell) : M unit :=
  match fuel with
  | O => fun _ => OutOfFuel
  | S fuel' =>
      if ispair e then
        putchar (chr "`");;
        (let* a := get (fun s => car s e) in unparse fuel' a);;
        (let* d := get (fun s => cdr s e) in unparse fuel' d)
      else if e =? COMB_S then putchar (chr "S")
      else if e =? COMB_K then putchar (chr "K")
      else if e =? COMB_I then putchar (chr "I")
      else if e =? COMB_B then putchar (chr "B")
      else if e =? COMB_C then putchar (chr "C")
      else if e =? COMB_SP then putchar (chr "S");; putchar (chr "'")
      else if e =? COMB_BS then putchar (chr "B");; putchar (chr "*")
      else if e =? COMB_CP then putchar (chr "C");; putchar (chr "'")
      else if e =? COMB_KI then
        putchar (chr "`");; putchar (chr "k");; putchar (chr "i")
      else putchar (chr "?")
  end.

(** The text of a term in this notation. *)
Definition leaf_text (c : Cell) : list Z :=
  if c =? COMB_S then [chr "S"]
  else if c =? COMB_K then [chr "K"]
  else if c =? COMB_I then [chr "I"]
  else if c =? COMB_B then [chr "B"]
  else if c =? COMB_C then [chr "C"]
  else if c =? COMB_SP then [chr "S"; chr "'"]
  else if c =? COMB_BS then [chr "B"; chr "*"]
  else if c =? COMB_CP then [chr "C"; chr "'"]
  else if c =? COMB_KI then [chr "`"; chr "k"; chr "i"]
  else [chr "?"].

Fixpoint text (t : tree) : list Z :=
  match t with
  | Leaf c => leaf_text c
  | Node l r => chr "`" :: text l ++ text r
  end.

(** The combinators that have a text of their own. *)
Definition printable (c : Cell) : Prop :=
  c = COMB_S \/ c = COMB_K \/ c = COMB_I \/ c = COMB_B \/ c = COMB_C \/
  c = COMB_SP \/ c = COMB_BS \/ c = COMB_CP \/ c = COMB_KI.

(** The Pairs [(S, K)] at 4096 and [(4096, KI)] at 4104. *)
Definition demo_print : state :=
  match (let* a := pair 0 COMB_S COMB_K in pair 0 a COMB_KI)
          (startup 64 [] []) with
  | Ok _ s => s
  | _ => boot
  end.


(** Nothing was written and no reduction counted. *)
Definition quiet (s s' : state) : Prop :=
  output s' = output s /\ reductions s' = reductions s.



(** ** The room a call takes *)

(** The Pairs [parse] takes for a term: one call of [pair] for each
    application and each abstraction. *)
Fixpoint parse_pairs (t : term) : Z :=
  match t with
  | Var _ => 0
  | App f g => parse_pairs f + parse_pairs g + 1
  | Lam b => parse_pairs b + 1
  end.

(** The stack slots [parse] takes for a term: the function of an
    application waits in one slot while the argument is read. *)
Fixpoint parse_slots (t : term) : Z :=
  match t with
  | Var _ => 0
  | App f g => Z.max (parse_slots f) (1 + parse_slots g)
  | Lam b => parse_slots b
  end.


(** The Pairs the peephole step of [unabstract] takes: the calls of
    [pair] in the row of the table that applies. *)
Definition combine_pairs (f g : tree) : Z :=
  match is_K f with
  | Some _ =>
      if is_I g then 0
      else match is_K g with
           | Some _ => 0
           | None => match is_B g with Some _ => 0 | None => 1 end
           end
  | None =>
      match is_K g with
      | Some _ => match is_B f with Some _ => 0 | None => 1 end
      | None => match is_B f with Some _ => 1 | None => 2 end
      end
  end.

(** The Pairs [unabstract] takes for a tree, and the stack slots: the
    [cdr] waits in one slot while the [car] is abstracted, and the
    abstracted [car] in a second one while the [cdr] is. *)
Fixpoint unabstract_pairs (t : tree) : Z :=
  match t with
  | Leaf c => if c =? mkint 0 then 0 else 1
  | Node f g =>
      unabstract_pairs f + unabstract_pairs g
      + combine_pairs (unabstract_spec f) (unabstract_spec g)
  end.

Fixpoint unabstract_slots (t : tree) : Z :=
  match t with
  | Leaf _ => 0
  | Node f g => Z.max (1 + unabstract_slots f) (2 + unabstract_slots g)
  end.



(** The registers of the heap after a copy: the allocation pointer has
    not gone back, the rest is as it was. *)
Definition grows (s s' : state) : Prop :=
  free_ptr s <= free_ptr s' /\ heap_area s' = heap_area s /\
  heap_size s' = heap_size s /\ next_heap_size s' = next_heap_size s.


(** A heap of six Pairs of which three hold the tree [(I (I K)) K]: the
    tree and its root. *)
Definition demo_collect : Cell * state :=
  match (let* a := pair 0 COMB_I COMB_K in
         let* b := pair 0 COMB_I a in
         pair 0 b COMB_K) (startup 6 [] []) with
  | Ok c s => (c, s)
  | _ => (0, boot)
  end.

Definition demo_collect_tree : tree :=
  Node (Node (Leaf COMB_I) (Node (Leaf COMB_I) (Leaf COMB_K))) (Leaf COMB_K).

(** * Properties *)

(** ** Reasoning about calls that return *)

Lemma bind_Ok {A B} (m : M A) (k : A -> M B) s b s' :
  bind m k s = Ok b s' ->
  exists a s1, m s = Ok a s1 /\ k a s1 = Ok b s'.
Proof.
  unfold bind. destruct (m s) as [a s1| | | |]; try discriminate.
  intros H. exists a, s1. split; [reflexivity | exact H].
Qed.

Lemma bind_Ok_intro {A B} (m : M A) (k : A -> M B) s a s1 :
  m s = Ok a s1 -> bind m k s = k a s1.
Proof. unfold bind. intros ->. reflexivity. Qed.

(** ** The stack pointer across a call *)

Section Shifts.

Lemma shifts_ret {A} (a : A) : shifts 0 (ret a).
Proof. intros s a' s' [= _ <-]. lia. Qed.

Lemma shifts_get {A} (f : state -> A) : shifts 0 (get f).
Proof. intros s a' s' [= _ <-]. lia. Qed.

Lemma shifts_fail {A} d (m : M A) :
  (forall s a s', m s <> Ok a s') -> shifts d m.
Proof. intros H s a s' Hm. destruct (H _ _ _ Hm). Qed.

Lemma shifts_errexit {A} d e : shifts d (@errexit A e).
Proof. apply shifts_fail. discriminate. Qed.

Lemma shifts_modify (f : state -> state) :
  (forall s, rd_stack (f s) = rd_stack s) -> shifts 0 (modify f).
Proof. intros H s a' s' [= _ <-]. unfold sp. rewrite H. lia. Qed.

Lemma shifts_assert b : shifts 0 (assert b).
Proof. intros s a s'. unfold assert. destruct b; [|discriminate]. intros [= _ <-]. lia. Qed.

Lemma shifts_bind {A B} d1 d2 d (m : M A) (k : A -> M B) :
  shifts d1 m -> (forall a, shifts d2 (k a)) -> d = d1 + d2 ->
  shifts d (bind m k).
Proof.
  intros Hm Hk -> s b s' H.
  apply bind_Ok in H as (a & s1 & H1 & H2).
  apply Hm in H1. apply Hk in H2. lia.
Qed.

Lemma shifts_rs_push c : shifts 1 (rs_push c).
Proof.
  intros s a s'. unfold rs_push, bind, get.
  destruct (sp s <=? 0); [discriminate|].
  intros [= _ <-]. unfold sp. simpl. lia.
Qed.

Lemma shifts_PUSHED n : shifts 0 (PUSHED n).
Proof.
  intros s a s'. unfold PUSHED. destruct (rd_stack s !! n); [|discriminate].
  intros [= _ <-]. lia.
Qed.

Lemma shifts_TOP : shifts 0 TOP.
Proof. apply shifts_PUSHED. Qed.

Lemma shifts_set_PUSHED n c : shifts 0 (set_PUSHED n c).
Proof.
  intros s a s'. unfold set_PUSHED. case_decide; [|discriminate].
  intros [= _ <-]. unfold sp. simpl. rewrite length_insert. lia.
Qed.

Lemma shifts_DROP n : shifts (- Z.of_nat n) (DROP n).
Proof.
  intros s a s'. unfold DROP. case_decide; [|discriminate].
  intros [= _ <-]. unfold sp. simpl. rewrite length_drop. lia.
Qed.

Lemma shifts_POP : shifts (-1) POP.
Proof.
  unfold POP. apply (shifts_bind 0 (-1)); [apply shifts_TOP| |lia].
  intros c. apply (shifts_bind (-1) 0); [apply (shifts_DROP 1)| |lia].
  intros _. apply shifts_ret.
Qed.

Lemma shifts_malloc n : shifts 0 (malloc n).
Proof.
  intros s a s'. unfold malloc.
  destruct (_ && _); intros [= _ <-]; unfold sp; simpl; lia.
Qed.

End Shifts.

(** Splits a goal [shifts d m] along the structure of [m]; calls that
    are not primitive are left to the hints. *)
Ltac shift_of m :=
  lazymatch m with
  | rs_push _ => constr:(1)
  | POP => constr:(-1)
  | DROP ?n => constr:(- Z.of_nat n)
  | _ => constr:(0)
  end.

Create HintDb shifts discriminated.
#[local] Hint Resolve shifts_get shifts_rs_push shifts_PUSHED shifts_TOP
  shifts_set_PUSHED shifts_DROP shifts_POP shifts_malloc shifts_assert
  shifts_errexit : shifts.

Ltac shifts_step :=
  lazymatch goal with
  | |- shifts ?d (bind ?m ?k) =>
      let d1 := shift_of m in
      apply (shifts_bind d1 (d - d1) d); [ | intros ? | lia ]
  | |- shifts _ (if ?b then _ else _) => destruct b
  | |- shifts _ (match ?x with Some _ => _ | None => _ end) => destruct x
  | |- shifts _ (match ?x with (_, _) => _ end) => destruct x
  | |- shifts _ (match ?x with Return => _ | Continue => _ end) => destruct x
  | |- shifts _ (match ?x with inl _ => _ | inr _ => _ end) => destruct x
  | |- shifts ?d (ret _) =>
      replace d with 0 by lia; apply shifts_ret
  | |- shifts ?d (modify _) =>
      replace d with 0 by lia;
      first [ apply shifts_modify; intros; reflexivity | idtac ]
  | |- shifts _ (fun _ => Undefined) => apply shifts_fail; discriminate
  | |- shifts _ (fun _ => OutOfFuel) => apply shifts_fail; discriminate
  | |- shifts ?d ?m =>
      first [ solve [eauto with shifts]
            | let d1 := shift_of m in
              replace d with d1 by lia; solve [eauto with shifts] ]
  end.

Ltac shifts_auto := repeat shifts_step.

Section ShiftsCollector.

Lemma shifts_skip_I fuel : forall tmp, shifts 0 (skip_I fuel tmp).
Proof.
  induction fuel as [|fuel IH]; intros tmp; simpl.
  - apply shifts_fail; discriminate.
  - shifts_auto.
Qed.

Lemma shifts_copy_cell fuel c : shifts 0 (copy_cell fuel c).
Proof.
  pose proof (shifts_skip_I fuel).
  unfold copy_cell. shifts_auto.
Qed.

Lemma shifts_rs_copy_loop fuel : forall k, shifts 0 (rs_copy_loop fuel k).
Proof.
  pose proof (shifts_copy_cell fuel).
  induction k as [|k IH]; simpl.
  - apply shifts_ret.
  - shifts_auto.
    intros s0 a0 s0' [= _ <-]. unfold sp. simpl. rewrite length_insert. lia.
Qed.

Lemma shifts_gc_scan fuel : forall scan, shifts 0 (gc_scan fuel scan).
Proof.
  induction fuel as [|fuel IH]; intros scan; simpl.
  - apply shifts_fail; discriminate.
  - pose proof (shifts_copy_cell fuel). shifts_auto.
Qed.

Lemma shifts_gc_run fuel : forall s1 s2, shifts 0 (gc_run fuel s1 s2).
Proof.
  induction fuel as [|fuel IH]; intros s1 s2; simpl.
  - apply shifts_fail; discriminate.
  - pose proof (shifts_copy_cell fuel).
    pose proof (shifts_gc_scan fuel).
    pose proof (shifts_rs_copy_loop fuel).
    unfold rs_copy, copy_save.
    shifts_auto.
Qed.

Lemma shifts_pair fuel a b : shifts 0 (pair fuel a b).
Proof.
  pose proof (shifts_gc_run fuel). unfold pair. shifts_auto.
Qed.

Lemma shifts_alloc fuel n : shifts 0 (alloc fuel n).
Proof.
  pose proof (shifts_gc_run fuel). unfold alloc. shifts_auto.
Qed.

End ShiftsCollector.

#[local] Hint Resolve shifts_pair shifts_alloc shifts_copy_cell : shifts.

Section ShiftsLoader.

Lemma shifts_read_char : shifts 0 read_char.
Proof.
  unfold read_char. shifts_auto.
Qed.

Lemma shifts_read_bit : shifts 0 read_bit.
Proof.
  pose proof shifts_read_char. unfold read_bit. shifts_auto.
Qed.

Lemma shifts_read_index fuel : forall i, shifts 0 (read_index fuel i).
Proof.
  pose proof shifts_read_bit.
  induction fuel as [|fuel IH]; intros i; simpl; shifts_auto.
Qed.

Lemma shifts_parse fuel : shifts 0 (parse fuel).
Proof.
  pose proof shifts_read_bit.
  induction fuel as [|fuel IH]; simpl.
  - apply shifts_fail; discriminate.
  - pose proof (shifts_read_index fuel). shifts_auto.
Qed.

Lemma shifts_unabstract_combine fuel f g :
  shifts 0 (unabstract_combine fuel f g).
Proof.
  unfold unabstract_combine. shifts_auto.
Qed.

Lemma shifts_unabstract fuel : forall t, shifts 0 (unabstract fuel t).
Proof.
  induction fuel as [|fuel IH]; intros t; simpl.
  - apply shifts_fail; discriminate.
  - pose proof (shifts_unabstract_combine fuel). shifts_auto.
Qed.

Lemma shifts_translate fuel : forall t, shifts 0 (translate fuel t).
Proof.
  induction fuel as [|fuel IH]; intros t; simpl.
  - apply shifts_fail; discriminate.
  - pose proof (shifts_unabstract fuel). shifts_auto.
Qed.

End ShiftsLoader.


(** ** Trees in the heap *)

Lemma size_pos t : 0 < size t.
Proof. induction t; simpl; lia. Qed.

Section Repr.

Lemma repr_frame s s' c t F :
  repr s c t F ->
  (forall a, a ∈ F -> car s' a = car s a /\ cdr s' a = cdr s a) ->
  repr s' c t F.
Proof.
  induction 1 as [c Hc | c L R Fa Fd Hc Ha IHa Hd IHd Hdis Hca Hcd];
    intros Hsame.
  - constructor. exact Hc.
  - destruct (Hsame c) as [Hcar Hcdr]; [set_solver|].
    constructor; auto.
    + rewrite Hcar. apply IHa. intros x Hx. apply Hsame. set_solver.
    + rewrite Hcdr. apply IHd. intros x Hx. apply Hsame. set_solver.
Qed.

Lemma repr_functional s c t F :
  repr s c t F -> forall t' F', repr s c t' F' -> t = t' /\ F = F'.
Proof.
  induction 1 as [c Hc | c L R Fa Fd Hc Ha IHa Hd IHd Hdis Hca Hcd];
    intros t' F' H'; inversion H'; subst; try congruence.
  - split; reflexivity.
  - match goal with Hx : repr s (car s c) _ _, Hy : repr s (cdr s c) _ _ |- _ =>
      destruct (IHa _ _ Hx) as [<- <-]; destruct (IHd _ _ Hy) as [<- <-] end.
    split; reflexivity.
Qed.

Lemma within_empty lo hi : within lo hi ∅.
Proof. intros a Ha. set_solver. Qed.

Lemma within_weaken lo hi lo' hi' F :
  within lo hi F -> lo' <= lo -> hi <= hi' -> within lo' hi' F.
Proof. intros H ? ? a Ha. specialize (H a Ha). lia. Qed.

Lemma within_union lo hi F G :
  within lo hi F -> within lo hi G -> within lo hi (F ∪ G).
Proof. intros HF HG a [Ha|Ha]%elem_of_union; auto. Qed.

Lemma within_singleton lo hi a : lo <= a < hi -> within lo hi {[a]}.
Proof. intros H x ->%elem_of_singleton. exact H. Qed.

Lemma within_union_inv lo hi F G :
  within lo hi (F ∪ G) -> within lo hi F /\ within lo hi G.
Proof.
  intros H. split; intros a Ha; apply H; apply elem_of_union; auto.
Qed.

Lemma within_disjoint lo mid hi F G :
  within lo mid F -> within mid hi G -> F ## G.
Proof.
  intros HF HG. apply elem_of_disjoint. intros a Ha Hb.
  specialize (HF a Ha). specialize (HG a Hb). lia.
Qed.

Lemma within_not_elem lo hi F a :
  within lo hi F -> (a < lo \/ hi <= a) -> a ∉ F.
Proof. intros HF Ha Hin. specialize (HF a Hin). lia. Qed.

End Repr.

(** ** Cells *)

Section CellFacts.

Lemma TAG_mod c : TAG c = c mod 4.
Proof. unfold TAG. change 3 with (Z.ones 2). rewrite Z.land_ones by lia. reflexivity. Qed.

Lemma aligned_ispair p : aligned p -> ispair p = true.
Proof.
  unfold aligned, PAIR_SIZE, ispair. rewrite TAG_mod. intros H.
  apply Z.eqb_eq.
  rewrite (Z.div_mod p 8) by lia. rewrite H.
  replace (8 * (p / 8) + 0) with (0 + (2 * (p / 8)) * 4) by lia.
  rewrite Z.mod_add by lia. reflexivity.
Qed.

Lemma aligned_padd p n : aligned p -> aligned (padd p n).
Proof.
  unfold aligned, padd, PAIR_SIZE. intros H.
  replace (p + 8 * n) with (p + n * 8) by lia.
  rewrite Z.mod_add by lia. exact H.
Qed.

Lemma mkint_int32 n : mkint (int32 n) = mkint n.
Proof.
  unfold mkint, int32, to_int, CELL, WORD.
  rewrite !Z.shiftl_mul_pow2 by lia.
  destruct (n mod 2 ^ 32 mod 2 ^ 32 <? 2 ^ 31).
  - rewrite Z.mod_mod by lia.
    rewrite <- (Zplus_mod_idemp_l (n mod 2 ^ 32 * 2 ^ 2)).
    rewrite <- (Zmult_mod_idemp_l (n mod 2 ^ 32)).
    rewrite Z.mod_mod by lia.
    rewrite Zmult_mod_idemp_l, Zplus_mod_idemp_l. reflexivity.
  - rewrite Z.mod_mod by lia.
    replace ((n mod 2 ^ 32 - 2 ^ 32) * 2 ^ 2 + 1)
      with (n mod 2 ^ 32 * 2 ^ 2 + 1 + (-4) * 2 ^ 32) by lia.
    rewrite Z.mod_add by lia.
    rewrite <- (Zplus_mod_idemp_l (n mod 2 ^ 32 * 2 ^ 2)).
    rewrite <- (Zmult_mod_idemp_l (n mod 2 ^ 32)).
    rewrite Z.mod_mod by lia.
    rewrite Zmult_mod_idemp_l, Zplus_mod_idemp_l. reflexivity.
Qed.

Lemma int32_small n : - 2 ^ 31 <= n < 2 ^ 31 -> int32 n = n.
Proof.
  intros H. unfold int32, to_int, CELL, WORD.
  rewrite Z.mod_mod by lia.
  destruct (Z.ltb_spec (n mod 2 ^ 32) (2 ^ 31)) as [Hlt|Hge].
  - destruct (Z_lt_le_dec n 0) as [Hn|Hn].
    + exfalso. rewrite <- (Z.mod_add n 1) in Hlt by lia.
      rewrite Z.mod_small in Hlt by lia. lia.
    + apply Z.mod_small. lia.
  - destruct (Z_lt_le_dec n 0) as [Hn|Hn].
    + rewrite <- (Z.mod_add n 1) by lia.
      rewrite Z.mod_small by lia. lia.
    + exfalso. rewrite Z.mod_small in Hge by lia. lia.
Qed.

End CellFacts.

(** ** Rules for calls that return *)

Section Total.

Context {A B : Type}.

Lemma total_ret (a : A) s (Q : A -> state -> Prop) :
  Q a s -> total (ret a) s Q.
Proof. intros H. exists a, s. split; [reflexivity | exact H]. Qed.

Lemma total_get (f : state -> A) s (Q : A -> state -> Prop) :
  Q (f s) s -> total (get f) s Q.
Proof. intros H. exists (f s), s. split; [reflexivity | exact H]. Qed.

Lemma total_modify (f : state -> state) s (Q : unit -> state -> Prop) :
  Q tt (f s) -> total (modify f) s Q.
Proof. intros H. exists tt, (f s). split; [reflexivity | exact H]. Qed.

Lemma total_bind (m : M A) (k : A -> M B) s (Q : B -> state -> Prop) :
  total m s (fun a s1 => total (k a) s1 Q) -> total (bind m k) s Q.
Proof.
  intros (a & s1 & Hm & b & s2 & Hk & HQ).
  exists b, s2. split; [|exact HQ].
  rewrite (bind_Ok_intro _ _ _ _ _ Hm). exact Hk.
Qed.

Lemma total_weaken (m : M A) s (P Q : A -> state -> Prop) :
  total m s P -> (forall a s', P a s' -> Q a s') -> total m s Q.
Proof. intros (a & s' & Hm & HP) H. exists a, s'. auto. Qed.

Lemma total_eq (m : M A) s a s' (Q : A -> state -> Prop) :
  m s = Ok a s' -> Q a s' -> total m s Q.
Proof. intros Hm HQ. exists a, s'. auto. Qed.

End Total.

(** ** Allocation without collection *)

Section NoCollection.

Lemma pair_bump fuel a b s :
  free_ptr s < heap_area s ->
  pair fuel a b s = Ok (free_ptr s) (bump a b s).
Proof.
  intros Hroom. unfold pair, bind, get.
  destruct (Z.geb_spec (free_ptr s) (heap_area s)) as [Hge|_]; [lia|].
  unfold ret, assert.
  destruct (Z.ltb_spec (free_ptr s) (heap_area s)) as [_|Hge]; [|lia].
  unfold modify. f_equal.
  unfold bump, SET, set_cdr, set_car, set_mem, set_free_ptr, car; simpl.
  rewrite lookup_insert_eq. simpl. rewrite insert_insert_eq. reflexivity.
Qed.

Lemma mem_bump a b s : mem (bump a b s) = <[free_ptr s := (a, b)]> (mem s).
Proof. reflexivity. Qed.

Lemma rs_push_ok c s :
  Z.of_nat (length (rd_stack s)) < RDSTACK_SIZE ->
  rs_push c s = Ok tt (set_rd_stack (fun st => c :: st) s).
Proof.
  intros H. unfold rs_push, bind, get, sp.
  destruct (Z.leb_spec (RDSTACK_SIZE - Z.of_nat (length (rd_stack s))) 0);
    [lia | reflexivity].
Qed.

End NoCollection.

(** ** Reading the shape of a tree off the memory *)

Section ReprShape.

Lemma repr_root s c t F :
  repr s c t F ->
  match t with
  | Leaf c' => c = c' /\ ispair c = false
  | Node _ _ => ispair c = true
  end.
Proof. destruct 1; auto. Qed.

Lemma repr_not_pair s c t F k :
  repr s c t F -> ispair k = false ->
  (c =? k) = match t with Leaf c' => c' =? k | Node _ _ => false end.
Proof.
  intros H Hk. destruct H as [c Hc | c L R Fa Fd Hc]; [reflexivity|].
  apply Z.eqb_neq. intros ->. congruence.
Qed.

Lemma is_I_repr s g t F : repr s g t F -> (g =? COMB_I) = is_I t.
Proof.
  intros H. rewrite (repr_not_pair _ _ _ _ COMB_I H) by reflexivity.
  destruct t; reflexivity.
Qed.

Lemma IS_K1_repr s f t F :
  repr s f t F ->
  IS_K1 s f = match is_K t with Some _ => true | None => false end.
Proof.
  intros H. unfold IS_K1.
  destruct H as [c Hc | c L R Fa Fd Hc Ha Hd _ _ _].
  - rewrite Hc. reflexivity.
  - rewrite Hc. simpl.
    rewrite (repr_not_pair _ _ _ _ COMB_K Ha) by reflexivity.
    destruct L as [c'|]; [|reflexivity]. destruct (c' =? COMB_K); reflexivity.
Qed.

Lemma IS_B2_repr s f t F :
  repr s f t F ->
  IS_B2 s f = match is_B t with Some _ => true | None => false end.
Proof.
  intros H. unfold IS_B2.
  destruct H as [c Hc | c L R Fa Fd Hc Ha Hd _ _ _].
  - rewrite Hc. reflexivity.
  - rewrite Hc. simpl.
    remember (car s c) as a eqn:Ea.
    destruct Ha as [a Ha | a L1 L2 F1 F2 Ha H1 H2 _ _ _].
    + rewrite Ha. reflexivity.
    + rewrite Ha. simpl.
      rewrite (repr_not_pair _ _ _ _ COMB_B H1) by reflexivity.
      destruct L1 as [c'|]; [|reflexivity].
      destruct (c' =? COMB_B); reflexivity.
Qed.

Lemma repr_K_inv s f t F X :
  repr s f t F -> is_K t = Some X ->
  exists Fx,
    ispair f = true /\ car s f = COMB_K /\ repr s (cdr s f) X Fx /\
    F = {[f]} ∪ Fx /\ (f ∉ Fx).
Proof.
  intros H HK. destruct H as [c Hc | c L R Fa Fd Hc Ha Hd Hdis Hca Hcd];
    [discriminate|].
  simpl in HK. destruct L as [k|]; [|discriminate].
  destruct (Z.eqb_spec k COMB_K) as [->|]; [|discriminate].
  injection HK as <-.
  inversion Ha; subst.
  exists Fd. repeat split; auto. set_solver.
Qed.

Lemma repr_B_inv s f t F X Y :
  repr s f t F -> is_B t = Some (X, Y) ->
  exists Fx Fy,
    ispair f = true /\ ispair (car s f) = true /\
    car s (car s f) = COMB_B /\
    repr s (cdr s (car s f)) X Fx /\ repr s (cdr s f) Y Fy /\
    F = {[f]} ∪ ({[car s f]} ∪ Fx) ∪ Fy /\
    Fx ## Fy /\ (car s f ∉ Fx) /\ (car s f ∉ Fy) /\ f <> car s f /\
    (f ∉ Fx) /\ (f ∉ Fy).
Proof.
  intros H HB. destruct H as [c Hc | c L R Fa Fd Hc Ha Hd Hdis Hca Hcd];
    [discriminate|].
  simpl in HB. destruct L as [|L1 L2]; [discriminate|].
  destruct L1 as [k|]; [|discriminate].
  destruct (Z.eqb_spec k COMB_B) as [->|]; [|discriminate].
  injection HB as <- <-.
  inversion Ha as [|a' L1' L2' F1 F2 Hpa H1 H2 Hd12 Ha1 Ha2]; subst.
  inversion H1; subst.
  exists F2, Fd.
  repeat split; auto; set_solver.
Qed.

End ReprShape.

(** ** Reads after writes *)

Section ReadWrite.

Lemma car_set_car_eq c v s : car (set_car c v s) c = v.
Proof. unfold car, set_car. simpl. rewrite lookup_insert_eq. reflexivity. Qed.

Lemma car_set_car_ne c v s a : a <> c -> car (set_car c v s) a = car s a.
Proof.
  intros H. unfold car, set_car. simpl. rewrite lookup_insert_ne by auto.
  reflexivity.
Qed.

Lemma cdr_set_car c v s a : cdr (set_car c v s) a = cdr s a.
Proof.
  unfold cdr, set_car. simpl. destruct (decide (c = a)) as [->|H].
  - rewrite lookup_insert_eq. reflexivity.
  - rewrite lookup_insert_ne by auto. reflexivity.
Qed.

Lemma cdr_set_cdr_eq c v s : cdr (set_cdr c v s) c = v.
Proof. unfold cdr, set_cdr. simpl. rewrite lookup_insert_eq. reflexivity. Qed.

Lemma cdr_set_cdr_ne c v s a : a <> c -> cdr (set_cdr c v s) a = cdr s a.
Proof.
  intros H. unfold cdr, set_cdr. simpl. rewrite lookup_insert_ne by auto.
  reflexivity.
Qed.

Lemma car_set_cdr c v s a : car (set_cdr c v s) a = car s a.
Proof.
  unfold car, set_cdr. simpl. destruct (decide (c = a)) as [->|H].
  - rewrite lookup_insert_eq. reflexivity.
  - rewrite lookup_insert_ne by auto. reflexivity.
Qed.

Lemma car_SET_eq c x y s : car (SET c x y s) c = x.
Proof. unfold car, SET. simpl. rewrite lookup_insert_eq. reflexivity. Qed.

Lemma cdr_SET_eq c x y s : cdr (SET c x y s) c = y.
Proof. unfold cdr, SET. simpl. rewrite lookup_insert_eq. reflexivity. Qed.

Lemma car_SET_ne c x y s a : a <> c -> car (SET c x y s) a = car s a.
Proof.
  intros H. unfold car, SET. simpl. rewrite lookup_insert_ne by auto.
  reflexivity.
Qed.

Lemma cdr_SET_ne c x y s a : a <> c -> cdr (SET c x y s) a = cdr s a.
Proof.
  intros H. unfold cdr, SET. simpl. rewrite lookup_insert_ne by auto.
  reflexivity.
Qed.

Lemma car_bump_eq a b s : car (bump a b s) (free_ptr s) = a.
Proof. apply car_SET_eq. Qed.

Lemma cdr_bump_eq a b s : cdr (bump a b s) (free_ptr s) = b.
Proof. apply cdr_SET_eq. Qed.

Lemma car_bump_ne a b s c : c <> free_ptr s -> car (bump a b s) c = car s c.
Proof. intros H. unfold bump. rewrite car_SET_ne by auto. reflexivity. Qed.

Lemma cdr_bump_ne a b s c : c <> free_ptr s -> cdr (bump a b s) c = cdr s c.
Proof. intros H. unfold bump. rewrite cdr_SET_ne by auto. reflexivity. Qed.

Lemma car_set_rd_stack f s c : car (set_rd_stack f s) c = car s c.
Proof. reflexivity. Qed.

Lemma cdr_set_rd_stack f s c : cdr (set_rd_stack f s) c = cdr s c.
Proof. reflexivity. Qed.

Lemma car_set_input i s c : car (set_input i s) c = car s c.
Proof. reflexivity. Qed.

Lemma cdr_set_input i s c : cdr (set_input i s) c = cdr s c.
Proof. reflexivity. Qed.

Lemma same_cell_car_cdr s s' a :
  mem s' !! a = mem s !! a -> car s' a = car s a /\ cdr s' a = cdr s a.
Proof. unfold car, cdr. intros ->. split; reflexivity. Qed.

End ReadWrite.

(** ** Tactics for the heap *)

Ltac splits := repeat match goal with |- _ /\ _ => split end.
Ltac mrun := cbn [bind get ret modify].

(** Computes the registers of a state built from setters. *)
Ltac regs :=
  cbn [mem brk heap_area free_ptr heap_size next_heap_size free_area rd_stack
       input output reductions
       set_mem set_free_ptr set_rd_stack set_input set_output set_reductions
       set_brk set_heap_area set_heap_size set_next_heap_size set_free_area
       set_car set_cdr SET bump] in *.

(** Splits what is known of bounded sets into their parts. *)
Ltac within_split :=
  repeat match goal with
  | W : within _ _ (_ ∪ _) |- _ =>
      let W1 := fresh W in apply within_union_inv in W as [W W1]
  | W : within ?lo ?hi {[ ?a ]} |- _ =>
      assert (lo <= a < hi)
        by (apply W, elem_of_singleton; reflexivity);
      clear W
  | W : within _ _ ∅ |- _ => clear W
  end.

(** Adds the bounds of every address known to lie in a bounded set. *)
Ltac bounds :=
  within_split;
  repeat match goal with
  | W : within ?lo ?hi ?F, H : ?a ∈ ?F |- _ =>
      lazymatch goal with
      | _ : lo <= a < hi |- _ => fail
      | _ => pose proof (W a H)
      end
  end.

Ltac ne_solve :=
  regs;
  first [ assumption | congruence
        | solve [bounds; unfold padd, PAIR_SIZE in *; lia]
        | solve [set_solver] ].

Lemma car_bump_at a b s p : p = free_ptr s -> car (bump a b s) p = a.
Proof. intros ->. apply car_bump_eq. Qed.
Lemma cdr_bump_at a b s p : p = free_ptr s -> cdr (bump a b s) p = b.
Proof. intros ->. apply cdr_bump_eq. Qed.


Ltac heap_rw :=
  repeat first
    [ rewrite car_set_rd_stack | rewrite cdr_set_rd_stack
    | rewrite car_set_input | rewrite cdr_set_input
    | rewrite car_set_cdr | rewrite cdr_set_car
    | rewrite car_set_car_eq | rewrite cdr_set_cdr_eq
    | rewrite car_SET_eq | rewrite cdr_SET_eq
    | rewrite car_bump_at by (regs; reflexivity)
    | rewrite cdr_bump_at by (regs; reflexivity)
    | rewrite car_set_car_ne by ne_solve
    | rewrite cdr_set_cdr_ne by ne_solve
    | rewrite car_SET_ne by ne_solve
    | rewrite cdr_SET_ne by ne_solve
    | rewrite car_bump_ne by ne_solve
    | rewrite cdr_bump_ne by ne_solve ].

Lemma mem_set_car_ne c v s a : a <> c -> mem (set_car c v s) !! a = mem s !! a.
Proof. intros H. apply lookup_insert_ne. auto. Qed.
Lemma mem_set_cdr_ne c v s a : a <> c -> mem (set_cdr c v s) !! a = mem s !! a.
Proof. intros H. apply lookup_insert_ne. auto. Qed.
Lemma mem_SET_ne c x y s a : a <> c -> mem (SET c x y s) !! a = mem s !! a.
Proof. intros H. apply lookup_insert_ne. auto. Qed.
Lemma mem_bump_ne x y s a : a <> free_ptr s -> mem (bump x y s) !! a = mem s !! a.
Proof. intros H. apply lookup_insert_ne. auto. Qed.
Lemma PUSHED_ok n c s : rd_stack s !! n = Some c -> PUSHED n s = Ok c s.
Proof. unfold PUSHED. intros ->. reflexivity. Qed.

Ltac mem_frame :=
  regs; repeat (rewrite lookup_insert_ne by ne_solve); try reflexivity.

Ltac frame_solve :=
  match goal with
  | H : repr _ ?c ?t ?F |- repr _ ?c ?t _ =>
      eapply repr_frame; [exact H|];
      let a := fresh "a" in let Ha := fresh "Ha" in
      intros a Ha; heap_rw; auto
  end.

Ltac leaf_solve := apply repr_Leaf; reflexivity.

(** Set goals that need the bounds of the addresses. *)
Ltac elem_cases H :=
  repeat (rewrite elem_of_union in H || rewrite elem_of_singleton in H
          || rewrite elem_of_empty in H).

Ltac set_arith :=
  regs;
  first
    [ solve [ lazymatch goal with
              | |- _ ∉ _ => let H := fresh in intros H; elem_cases H
              | |- _ ## _ =>
                  apply elem_of_disjoint;
                  let x := fresh in
                  let H1 := fresh in
                  let H2 := fresh in
                  intros x H1 H2; elem_cases H1; elem_cases H2
              end;
              repeat match goal with
                     | H : _ \/ _ |- _ => destruct H
                     | H : False |- _ => destruct H
                     end;
              subst;
              first [ solve [bounds; unfold padd, PAIR_SIZE in *; lia]
                    | solve [set_solver] ] ]
    | solve [set_solver] ].

(** Builds the representation of a tree whose cells are known. *)
Ltac repr_solve :=
  heap_rw;
  lazymatch goal with
  | |- repr _ _ (Leaf _) _ => leaf_solve
  | |- repr _ _ (Node _ _) _ =>
      first [ frame_solve
            | apply repr_Node;
              [ first [assumption | apply aligned_ispair; assumption]
              | repr_solve | repr_solve
              | try set_arith | try set_arith | try set_arith ] ]
  | |- repr _ _ _ _ => frame_solve
  end.

Ltac within_solve :=
  let a := fresh "a" in let Ha := fresh "Ha" in
  regs; intros a Ha;
  repeat (rewrite elem_of_union in Ha || rewrite elem_of_singleton in Ha
          || rewrite elem_of_empty in Ha);
  repeat match goal with
         | H : _ \/ _ |- _ => destruct H
         | H : False |- _ => destruct H
         end;
  subst; bounds; unfold padd, PAIR_SIZE in *; lia.


(** ** The peephole step of [unabstract] *)


(** ** [unabstract] builds the tree of the specification *)

Lemma ispair_mkint n : ispair (mkint n) = false.
Proof.
  unfold ispair, mkint, CELL, WORD. rewrite TAG_mod, Z.shiftl_mul_pow2 by lia.
  apply Z.eqb_neq.
  rewrite Z.mod_mod_divide by (exists (2 ^ 30); reflexivity).
  replace (n * 2 ^ 2 + 1) with (1 + n * 4) by lia.
  rewrite Z.mod_add by lia. discriminate.
Qed.

Lemma repr_same_mem s s' c t F :
  mem s' = mem s -> repr s c t F -> repr s' c t F.
Proof.
  intros E H. eapply repr_frame; [exact H|].
  intros a _. unfold car, cdr. rewrite E. auto.
Qed.

Lemma repr_within s c t F lo hi :
  repr s c t F -> within lo hi F -> forall s',
  (forall a, lo <= a < hi -> mem s' !! a = mem s !! a) -> repr s' c t F.
Proof.
  intros H W s' E. eapply repr_frame; [exact H|].
  intros a Ha. apply same_cell_car_cdr, E, W, Ha.
Qed.

Lemma ispair_not_isint c : ispair c = true -> isint c = false.
Proof.
  unfold ispair, isint. intros H%Z.eqb_eq. rewrite H. reflexivity.
Qed.

Lemma set_PUSHED_ok n c s :
  (n < length (rd_stack s))%nat ->
  set_PUSHED n c s = Ok tt (set_rd_stack (fun st => <[n := c]> st) s).
Proof. intros H. unfold set_PUSHED. rewrite decide_True by exact H. reflexivity. Qed.

Lemma DROP_ok n s :
  (n <= length (rd_stack s))%nat ->
  DROP n s = Ok tt (set_rd_stack (fun st => drop n st) s).
Proof. intros H. unfold DROP. rewrite decide_True by exact H. reflexivity. Qed.


(** ** [translate] builds the tree of the specification *)







(** ** The bit stream and [parse] *)

Lemma bits_from_more n : forall ch m,
  0 <= m < 2 ^ Z.of_nat n -> bits_from (S n) ch m = bits_from n ch m.
Proof.
  induction n as [|n IH]; intros ch m Hm.
  - simpl in *. replace m with 0 by lia. reflexivity.
  - cbn [bits_from]. destruct (Z.eqb_spec m 0) as [->|Hne]; [reflexivity|].
    f_equal. apply IH.
    rewrite Z.shiftr_div_pow2 by lia.
    rewrite Nat2Z.inj_succ, Z.pow_succ_r in Hm by lia.
    change (2 ^ 1) with 2. split.
    + apply Z.div_pos; lia.
    + apply Z.div_lt_upper_bound; lia.
Qed.

Lemma read_char_loop_spec argv : forall fp stdin b rest,
  Forall (fun f => is_Some (fdata f)) (tail argv) ->
  fp ++ upcoming argv stdin = b :: rest ->
  exists argv' fp',
    read_char_loop argv fp stdin = (argv', fp', inl b) /\
    fp' ++ upcoming argv' stdin = rest /\
    Forall (fun f => is_Some (fdata f)) (tail argv').
Proof.
  induction argv as [|f0 argv IH]; intros fp stdin b rest Hopen Hbytes.
  - destruct fp as [|b' fp]; simpl in *; [discriminate|].
    injection Hbytes as -> <-. eauto.
  - destruct fp as [|b' fp].
    + simpl in Hbytes. cbn [read_char_loop].
      destruct argv as [|f1 argv].
      * destruct stdin as [|b' stdin]; [discriminate|].
        injection Hbytes as -> <-. simpl. exists [], stdin. 
        rewrite app_nil_r. auto.
      * simpl in Hopen. inversion Hopen as [|? ? [bytes Hbytes1] Hopen']; subst.
        rewrite Hbytes1 in *. simpl in Hbytes.
        apply (IH bytes stdin b rest); auto.
    + simpl in Hbytes. injection Hbytes as -> <-.
      exists (f0 :: argv), fp. simpl. auto.
Qed.

Lemma read_bit_spec s b bs :
  input_ok s -> next_bits s = b :: bs ->
  exists i',
    read_bit s = Ok b (set_input i' s) /\
    next_bits (set_input i' s) = bs /\ input_ok (set_input i' s).
Proof.
  intros (Hbit & Hopen & Hbytes) Hnext.
  unfold read_bit. unfold bind at 1. unfold get at 1.
  destruct (Z.eqb_spec (in_bit (input s)) 0) as [Hz|Hnz].
  - unfold next_bits in Hnext. rewrite Hz in Hnext. simpl in Hnext.
    destruct (pending (input s)) as [|c rest] eqn:Hpend; [discriminate|].
    cbn [flat_map] in Hnext.
    destruct (read_char_loop_spec _ _ _ _ _ Hopen Hpend)
      as (argv' & fp' & Hloop & Hrest & Hopen').
    apply Forall_cons in Hbytes as [Hc Hbytes'].
    unfold read_char, bind, get, modify, ret, errexit. rewrite Hloop.
    destruct (Z.eqb_spec c EOF) as [->|_]; [unfold EOF in Hc; lia|].
    cbn [input set_input set_in_ch set_in_bit
         in_ch in_bit in_argv in_fp in_stdin set_in_handle].
    change (bits_from 8 c 128) with
      ((if Z.land c 128 =? 0 then 0 else 1) :: bits_from 7 c 64) in Hnext.
    injection Hnext as <- <-.
    eexists. split; [reflexivity|].
    unfold next_bits, input_ok, pending.
    cbn [input set_input in_ch in_bit in_argv in_fp in_stdin
         set_in_handle set_in_ch set_in_bit].
    change (Z.shiftr 128 1) with 64.
    rewrite (bits_from_more 7) by (simpl; lia).
    rewrite Hrest. split; [reflexivity|]. splits; auto; lia.
  - unfold bind, get, modify, ret.
    cbn [input set_input set_in_bit in_ch in_bit in_argv in_fp in_stdin].
    unfold next_bits in Hnext.
    cbn [bits_from] in Hnext.
    rewrite (proj2 (Z.eqb_neq _ _) Hnz) in Hnext.
    injection Hnext as <- <-.
    eexists. split; [reflexivity|].
    unfold next_bits, input_ok, pending.
    cbn [input set_input in_ch in_bit in_argv in_fp in_stdin
         set_in_handle set_in_ch set_in_bit].
    assert (Hsh : 0 <= Z.shiftr (in_bit (input s)) 1 < 2 ^ 7).
    { rewrite Z.shiftr_div_pow2 by lia. change (2 ^ 1) with 2. split.
      - apply Z.div_pos; lia.
      - apply Z.div_lt_upper_bound; lia. }
    rewrite (bits_from_more 7) by exact Hsh.
    split; [reflexivity|]. splits; auto; lia.
Qed.

Lemma int32_mod x : int32 x mod WORD = x mod WORD.
Proof.
  unfold int32, to_int, CELL, WORD.
  rewrite Z.mod_mod by lia.
  destruct (x mod 2 ^ 32 <? 2 ^ 31).
  - apply Z.mod_mod. lia.
  - replace (x mod 2 ^ 32 - 2 ^ 32) with (x mod 2 ^ 32 + (-1) * 2 ^ 32) by lia.
    rewrite Z.mod_add by lia. apply Z.mod_mod. lia.
Qed.

Lemma mkint_cong a b : a mod WORD = b mod WORD -> mkint a = mkint b.
Proof.
  intros H. unfold mkint, CELL. rewrite !Z.shiftl_mul_pow2 by lia.
  rewrite <- (Zplus_mod_idemp_l (a * 2 ^ 2)), <- (Zplus_mod_idemp_l (b * 2 ^ 2)).
  rewrite <- (Zmult_mod_idemp_l a), <- (Zmult_mod_idemp_l b), H. reflexivity.
Qed.

Lemma read_index_spec k : forall fuel i s bs,
  input_ok s -> next_bits s = repeat 1 k ++ 0 :: bs -> (k < fuel)%nat ->
  exists i' r,
    read_index fuel i s = Ok r (set_input i' s) /\
    r mod WORD = (i + Z.of_nat k) mod WORD /\
    next_bits (set_input i' s) = bs /\ input_ok (set_input i' s).
Proof.
  induction k as [|k IH]; intros fuel i s bs Hok Hbits Hfuel;
    (destruct fuel as [|fuel]; [lia|]); cbn [repeat app] in Hbits;
    destruct (read_bit_spec _ _ _ Hok Hbits) as (i1 & Hrb & Hnext & Hok1);
    cbn [read_index]; rewrite (bind_Ok_intro _ _ _ _ _ Hrb).
  - simpl. exists i1, i. rewrite Z.add_0_r. auto.
  - change (1 =? 0) with false. cbv iota.
    destruct (IH fuel (int32 (i + 1)) _ bs Hok1 Hnext ltac:(lia))
      as (i2 & r & Hri & Hr & Hnext2 & Hok2).
    exists i2, r. split; [exact Hri|]. split; [|auto].
    rewrite Hr. rewrite <- Zplus_mod_idemp_l, int32_mod, Zplus_mod_idemp_l.
    f_equal. lia.
Qed.

Lemma POP_ok c rest s :
  rd_stack s = c :: rest ->
  POP s = Ok c (set_rd_stack (fun st => drop 1 st) s).
Proof.
  intros H. unfold POP, TOP.
  rewrite (bind_Ok_intro _ _ _ _ _ (PUSHED_ok 0 c s ltac:(rewrite H; reflexivity))).
  rewrite (bind_Ok_intro _ _ _ _ _ (DROP_ok 1 s ltac:(rewrite H; simpl; lia))).
  reflexivity.
Qed.

Lemma parse_refines :
  forall T fuel s bs,
    input_ok s -> next_bits s = encode T ++ bs ->
    bits T <= Z.of_nat fuel ->
    aligned (free_ptr s) ->
    padd (free_ptr s) (bits T) <= heap_area s ->
    Z.of_nat (length (rd_stack s)) + bits T <= RDSTACK_SIZE ->
    total (parse fuel) s (parsed (free_ptr s) (bits T) s bs (tree_of T)).
Proof.
  unfold bits.
  induction T as [k | f IHf g IHg | b IHb];
    intros fuel s bs Hok Hbits Hfuel Hal Hroom Hstack;
    (destruct fuel as [|fuel]; [simpl in Hfuel; lia|]);
    cbn [encode app] in Hbits;
    destruct (read_bit_spec _ _ _ Hok Hbits) as (i1 & Hrb1 & Hnext1 & Hok1);
    cbn [parse]; apply total_bind;
    (eapply total_eq; [exact Hrb1|]).
  - change (negb (1 =? 0)) with true. cbv iota.
    rewrite <- app_assoc in Hnext1. cbn [app] in Hnext1.
    cbn [encode length] in Hfuel. rewrite length_app, repeat_length in Hfuel.
    cbn [length] in Hfuel.
    destruct (read_index_spec k fuel 0 _ bs Hok1 Hnext1 ltac:(lia))
      as (i2 & r & Hri & Hr & Hnext2 & Hok2).
    apply total_bind. eapply total_eq; [exact Hri|].
    apply total_ret. exists ∅. cbn [tree_of].
    rewrite (mkint_cong r (Z.of_nat k)) by (rewrite Hr; f_equal; lia).
    regs. splits; auto; try (unfold padd, PAIR_SIZE in *; lia).
    + apply repr_Leaf, ispair_mkint.
    + apply within_empty.
  - change (negb (0 =? 0)) with false. cbv iota.
    destruct (read_bit_spec _ _ _ Hok1 Hnext1) as (i2 & Hrb2 & Hnext2 & Hok2).
    apply total_bind. eapply total_eq; [exact Hrb2|].
    change (negb (1 =? 0)) with true. cbv iota.
    cbn [encode length] in *. rewrite length_app in *.
    rewrite <- app_assoc in Hnext2.
    set (s2 := set_input i2 (set_input i1 s)) in *.
    apply total_bind.
    eapply total_weaken.
    { eapply (IHf fuel s2 _ Hok2 Hnext2); subst s2; regs;
        try assumption; try (unfold padd, PAIR_SIZE in *; lia). }
    intros c1 s3 (F1 & Hc1 & W1 & Hfp3 & Hal3 & Hm3 & Hha3 & Hst3 & Hnext3 & Hok3).
    subst s2; regs.
    apply total_bind. eapply total_eq;
      [apply rs_push_ok; rewrite Hst3; lia|].
    set (s4 := set_rd_stack _ s3).
    apply total_bind.
    eapply total_weaken.
    { eapply (IHg fuel s4 bs); subst s4; regs;
        try assumption; try (unfold padd, PAIR_SIZE in *; lia).
      rewrite Hst3. cbn [length]. lia. }
    intros c2 s5 (F2 & Hc2 & W2 & Hfp5 & Hal5 & Hm5 & Hha5 & Hst5 & Hnext5 & Hok5).
    subst s4; regs.
    apply total_bind. eapply total_eq;
      [apply (PUSHED_ok 0 c1); rewrite Hst5; reflexivity|].
    apply total_bind. eapply total_eq;
      [apply pair_bump; unfold padd, PAIR_SIZE in *; lia|].
    apply total_bind. eapply total_eq;
      [apply (POP_ok c1 (rd_stack s3)); regs; exact Hst5|].
    apply total_ret.
    assert (Hc1' : repr s5 c1 (tree_of f) F1).
    { eapply (repr_within _ _ _ _ _ _ Hc1 W1). intros a Ha'. apply Hm5. lia. }
    eexists. split.
    { cbn [tree_of].
      apply repr_Node; [apply aligned_ispair; exact Hal5| | | | |].
      - repr_solve.
      - repr_solve.
      - eapply within_disjoint; [exact W1 | exact W2].
      - set_arith.
      - set_arith. }
    regs.
    splits; auto; try (unfold padd, PAIR_SIZE in *; lia); try congruence.
    + within_solve.
    + apply (aligned_padd _ 1). exact Hal5.
    + intros a Ha'. mem_frame. rewrite Hm5, Hm3 by lia. reflexivity.
    + rewrite Hst5. simpl. exact Hst3.
  - change (negb (0 =? 0)) with false. cbv iota.
    destruct (read_bit_spec _ _ _ Hok1 Hnext1) as (i2 & Hrb2 & Hnext2 & Hok2).
    apply total_bind. eapply total_eq; [exact Hrb2|].
    change (negb (0 =? 0)) with false. cbv iota.
    cbn [encode length] in *.
    set (s2 := set_input i2 (set_input i1 s)) in *.
    apply total_bind.
    eapply total_weaken.
    { eapply (IHb fuel s2 _ Hok2 Hnext2); subst s2; regs;
        try assumption; try (unfold padd, PAIR_SIZE in *; lia). }
    intros c1 s3 (F1 & Hc1 & W1 & Hfp3 & Hal3 & Hm3 & Hha3 & Hst3 & Hnext3 & Hok3).
    subst s2; regs.
    eapply total_eq;
      [apply pair_bump; unfold padd, PAIR_SIZE in *; lia|].
    eexists. split.
    { cbn [tree_of].
      apply repr_Node; [apply aligned_ispair; exact Hal3| | | | |].
      - repr_solve.
      - repr_solve.
      - set_arith.
      - set_arith.
      - set_arith. }
    regs.
    splits; auto; try (unfold padd, PAIR_SIZE in *; lia); try congruence.
    + within_solve.
    + apply (aligned_padd _ 1). exact Hal3.
    + intros a Ha'. mem_frame. rewrite Hm3 by lia. reflexivity.
Qed.

(** ** What the translation leaves in the tree *)







Lemma isint_mkint n : isint (mkint n) = true.
Proof.
  unfold isint, mkint, CELL, WORD. rewrite TAG_mod, Z.shiftl_mul_pow2 by lia.
  apply Z.eqb_eq.
  rewrite Z.mod_mod_divide by (exists (2 ^ 30); reflexivity).
  replace (n * 2 ^ 2 + 1) with (1 + n * 4) by lia.
  rewrite Z.mod_add by lia. reflexivity.
Qed.

Lemma intof_mkint n : - 2 ^ 29 <= n < 2 ^ 29 -> intof (mkint n) = n.
Proof.
  intros H. unfold intof, mkint.
  rewrite Z.shiftl_mul_pow2 by lia.
  fold (int32 (n * 2 ^ 2 + 1)). rewrite int32_small by lia.
  rewrite Z.shiftr_div_pow2 by lia.
  replace (n * 2 ^ 2 + 1) with (1 + n * 2 ^ 2) by lia.
  rewrite Z.div_add by lia. reflexivity.
Qed.








Lemma lam_depth_bits t : 2 * Z.of_nat (lam_depth t) + 2 <= bits t.
Proof.
  unfold bits. induction t as [k | f IHf g IHg | b IHb]; cbn [encode lam_depth length].
  - rewrite length_app. cbn [length]. lia.
  - rewrite length_app. lia.
  - lia.
Qed.

(** ** Reading a tree back from the memory *)

Lemma footprint_sound s t : forall c F,
  footprint s c t = Some F -> repr s c t F.
Proof.
  induction t as [c' | l IHl r IHr]; intros c F; simpl.
  - destruct (Z.eqb_spec c c') as [->|]; [|discriminate].
    destruct (ispair c') eqn:E; [discriminate|].
    intros [= <-]. apply repr_Leaf. exact E.
  - destruct (ispair c) eqn:E; [|discriminate].
    destruct (footprint s (car s c) l) as [Fa|] eqn:Ea; [|discriminate].
    destruct (footprint s (cdr s c) r) as [Fd|] eqn:Ed; [|discriminate].
    case_decide as H; [|discriminate]. destruct H as (H1 & H2 & H3).
    intros [= <-]. apply repr_Node; auto.
Qed.

Lemma stored_check_sound s c t : stored_check s c t = true -> stored s c t.
Proof.
  unfold stored_check.
  destruct (footprint s c t) as [F|] eqn:E; [|discriminate].
  intros H. exists F. split; [apply footprint_sound, E|].
  intros a Ha. rewrite forallb_forall in H.
  specialize (H a). rewrite <- list_elem_of_In, elem_of_elements in H.
  apply H in Ha. apply andb_true_iff in Ha as [H1 H2]. lia.
Qed.

(** ** The rules of the reducer *)

Lemma alloc_bump fuel n s :
  padd (free_ptr s) n <= heap_area s ->
  alloc fuel n s = Ok (free_ptr s) (set_free_ptr (padd (free_ptr s) n) s).
Proof.
  intros H. unfold alloc, bind, get, ret, assert, modify.
  destruct (Z.gtb_spec (padd (free_ptr s) n) (heap_area s)); [lia|].
  destruct (Z.leb_spec (padd (free_ptr s) n) (heap_area s)); [|lia].
  reflexivity.
Qed.

Lemma read_char_loop_eof argv : forall fp stdin,
  Forall (fun f => is_Some (fdata f)) (tail argv) ->
  fp ++ upcoming argv stdin = [] ->
  exists argv' fp',
    read_char_loop argv fp stdin = (argv', fp', inl EOF) /\
    fp' ++ upcoming argv' stdin = [] /\
    Forall (fun f => is_Some (fdata f)) (tail argv').
Proof.
  induction argv as [|f0 argv IH]; intros fp stdin Hopen Hbytes.
  - destruct fp as [|b' fp]; simpl in *; [|discriminate].
    exists [], []. auto.
  - destruct fp as [|b' fp]; [|discriminate].
    simpl in Hbytes. cbn [read_char_loop].
    destruct argv as [|f1 argv].
    + subst stdin. simpl. exists [], []. auto.
    + simpl in Hopen. inversion Hopen as [|? ? [bytes Hbytes1] Hopen']; subst.
      rewrite Hbytes1 in *. simpl in Hbytes.
      apply (IH bytes stdin); auto.
Qed.

Lemma read_char_byte s b bytes :
  input_ok s -> pending (input s) = b :: bytes ->
  exists i',
    read_char s = Ok b (set_input i' s) /\ pending i' = bytes /\
    in_ch i' = in_ch (input s) /\ in_bit i' = in_bit (input s) /\
    input_ok (set_input i' s).
Proof.
  intros (Hbit & Hopen & Hbytes) Hpend.
  destruct (read_char_loop_spec _ _ _ _ _ Hopen Hpend)
    as (argv' & fp' & Hloop & Hrest & Hopen').
  rewrite Hpend in Hbytes. apply Forall_cons in Hbytes as [Hb Hbytes'].
  unfold read_char, bind, get, modify, ret. rewrite Hloop.
  eexists. split; [reflexivity|].
  unfold input_ok, pending.
  cbn [input set_input set_in_handle in_ch in_bit in_argv in_fp in_stdin].
  rewrite Hrest. splits; auto; lia.
Qed.

Lemma read_char_eof s :
  input_ok s -> pending (input s) = [] ->
  exists i',
    read_char s = Ok EOF (set_input i' s) /\ pending i' = [] /\
    in_ch i' = in_ch (input s) /\ in_bit i' = in_bit (input s) /\
    input_ok (set_input i' s).
Proof.
  intros (Hbit & Hopen & Hbytes) Hpend.
  destruct (read_char_loop_eof _ _ _ Hopen Hpend)
    as (argv' & fp' & Hloop & Hrest & Hopen').
  unfold read_char, bind, get, modify, ret. rewrite Hloop.
  eexists. split; [reflexivity|].
  unfold input_ok, pending.
  cbn [input set_input set_in_handle in_ch in_bit in_argv in_fp in_stdin].
  rewrite Hrest. splits; auto; lia.
Qed.

Lemma sp_depth bottom s n :
  bottom - sp s > n -> (bottom - sp s >? n) = true.
Proof. intros H. apply Z.gtb_gt. lia. Qed.

Lemma reduce_at_READ fuel ev bottom s rest :
  rd_stack s = COMB_READ :: rest -> bottom - sp s > 2 ->
  reduce fuel ev bottom s = reduce_READ fuel s.
Proof.
  intros Hst Hd. unfold reduce.
  rewrite (bind_Ok_intro _ _ _ _ _ (PUSHED_ok 0 COMB_READ s ltac:(rewrite Hst; reflexivity))).
  cbn [bind get].
  rewrite (sp_depth _ _ _ Hd).
  reflexivity.
Qed.

Lemma reduce_at_PUTC fuel ev bottom s rest :
  rd_stack s = COMB_PUTC :: rest -> bottom - sp s > 3 ->
  reduce fuel ev bottom s = reduce_PUTC fuel ev s.
Proof.
  intros Hst Hd. unfold reduce.
  rewrite (bind_Ok_intro _ _ _ _ _ (PUSHED_ok 0 COMB_PUTC s ltac:(rewrite Hst; reflexivity))).
  cbn [bind get].
  rewrite (sp_depth _ _ _ Hd).
  reflexivity.
Qed.

Lemma set_TOP_ok c c0 rest s :
  rd_stack s = c0 :: rest ->
  set_TOP c s = Ok tt (set_rd_stack (fun st => <[0%nat := c]> st) s).
Proof.
  intros H. unfold set_TOP. apply set_PUSHED_ok. rewrite H. simpl. lia.
Qed.

(** The [READ] rule at the end of the input. *)
Lemma reduce_READ_eof fuel s r n1 rest :
  rd_stack s = r :: n1 :: rest -> input_ok s -> pending (input s) = [] ->
  exists i',
    reduce_READ fuel s =
      Ok Continue
         (SET n1 COMB_I COMB_KI
            (set_rd_stack (fun st => drop 1 st) (set_input i' s))) /\
    pending i' = [] /\ input_ok (set_input i' s).
Proof.
  intros Hst Hok Hpend.
  destruct (read_char_eof s Hok Hpend) as (i' & Hrc & Hp' & _ & _ & Hok').
  exists i'. split; [|auto].
  unfold reduce_READ. rewrite (bind_Ok_intro _ _ _ _ _ Hrc).
  change (EOF =? EOF) with true. cbv iota.
  rewrite (bind_Ok_intro _ _ _ _ _ (POP_ok r (n1 :: rest) (set_input i' s) Hst)).
  erewrite bind_Ok_intro
    by (apply (PUSHED_ok 0 n1); regs; rewrite Hst; reflexivity).
  reflexivity.
Qed.

(** The [READ] rule on a byte, when the two Pairs fit. *)
Lemma reduce_READ_byte fuel s r n1 rest b bytes :
  rd_stack s = r :: n1 :: rest -> input_ok s ->
  pending (input s) = b :: bytes ->
  padd (free_ptr s) 2 <= heap_area s ->
  exists i',
    reduce_READ fuel s =
      Ok Continue
         (SET n1 (free_ptr s) (padd (free_ptr s) 1)
            (set_rd_stack (fun st => drop 1 st)
               (SET (padd (free_ptr s) 1) COMB_READ NIL
                  (SET (free_ptr s) COMB_CONS (mkchar b)
                     (set_free_ptr (padd (free_ptr s) 2)
                        (set_input i' s)))))) /\
    pending i' = bytes /\ input_ok (set_input i' s).
Proof.
  intros Hst Hok Hpend Hroom.
  assert (Hb : 0 <= b < 256).
  { destruct Hok as (_ & _ & Hbytes). rewrite Hpend in Hbytes.
    apply Forall_cons in Hbytes as [Hb _]. exact Hb. }
  destruct (read_char_byte s b bytes Hok Hpend) as (i' & Hrc & Hp' & _ & _ & Hok').
  exists i'. split; [|auto].
  unfold reduce_READ. rewrite (bind_Ok_intro _ _ _ _ _ Hrc).
  destruct (Z.eqb_spec b EOF) as [->|_]; [unfold EOF in Hb; lia|].
  rewrite (bind_Ok_intro _ _ _ _ _ (alloc_bump fuel 2 (set_input i' s) Hroom)).
  cbn [bind modify]. regs.
  replace (padd (free_ptr s) 0) with (free_ptr s) by (unfold padd; lia).
  erewrite bind_Ok_intro by (apply (POP_ok r (n1 :: rest)); regs; exact Hst).
  erewrite bind_Ok_intro
    by (apply (PUSHED_ok 0 n1); regs; rewrite Hst; reflexivity).
  reflexivity.
Qed.

Lemma unspine_stop fuel s c rest :
  rd_stack s = c :: rest -> ispair c = false -> unspine (S fuel) s = Ok tt s.
Proof.
  intros Hst Hp. cbn [unspine]. unfold TOP.
  rewrite (bind_Ok_intro _ _ _ _ _ (PUSHED_ok 0 c s ltac:(rewrite Hst; reflexivity))).
  rewrite Hp. reflexivity.
Qed.

Lemma unspine_push fuel s n rest :
  rd_stack s = n :: rest -> ispair n = true ->
  Z.of_nat (length (rd_stack s)) < RDSTACK_SIZE ->
  unspine (S fuel) s = unspine fuel (set_rd_stack (fun st => car s n :: st) s).
Proof.
  intros Hst Hp Hlen. cbn [unspine]. unfold TOP.
  rewrite (bind_Ok_intro _ _ _ _ _ (PUSHED_ok 0 n s ltac:(rewrite Hst; reflexivity))).
  rewrite Hp. cbn [bind get].
  rewrite (bind_Ok_intro _ _ _ _ _ (rs_push_ok (car s n) s Hlen)).
  reflexivity.
Qed.

Lemma reduce_at_I fuel ev bottom s rest :
  rd_stack s = COMB_I :: rest -> bottom - sp s > 1 ->
  reduce fuel ev bottom s =
    (POP;;
     let* t := TOP in
     let* d := get (fun s => cdr s t) in
     set_TOP d;;
     ret Continue) s.
Proof.
  intros Hst Hd. unfold reduce. unfold TOP at 1.
  rewrite (bind_Ok_intro _ _ _ _ _ (PUSHED_ok 0 COMB_I s ltac:(rewrite Hst; reflexivity))).
  cbn [bind get].
  rewrite (sp_depth _ _ _ Hd).
  reflexivity.
Qed.

(** One turn of the loop on a Pair [(I, d)] on top of the stack: the
    spine is unwound to [I], and [I d] is replaced by [d]. *)
Lemma turn_I fuel ev bottom s n rest :
  rd_stack s = n :: rest -> ispair n = true -> car s n = COMB_I ->
  Z.of_nat (length (rd_stack s)) < RDSTACK_SIZE ->
  bottom - sp s > 0 ->
  (unspine 2;; reduce fuel ev bottom) s =
    Ok Continue (set_rd_stack (fun _ => cdr s n :: rest) s).
Proof.
  intros Hst Hp Hcar Hlen Hd.
  set (s1 := set_rd_stack (fun st => car s n :: st) s).
  assert (Hst1 : rd_stack s1 = COMB_I :: n :: rest).
  { subst s1. regs. rewrite Hst, Hcar. reflexivity. }
  assert (Hu : unspine 2 s = Ok tt s1).
  { rewrite (unspine_push 1 s n rest Hst Hp Hlen). fold s1.
    apply (unspine_stop 0 s1 COMB_I (n :: rest) Hst1). reflexivity. }
  rewrite (bind_Ok_intro _ _ _ _ _ Hu).
  rewrite (reduce_at_I fuel ev bottom s1 (n :: rest) Hst1)
    by (subst s1; unfold sp in *; regs; cbn [length]; lia).
  rewrite (bind_Ok_intro _ _ _ _ _ (POP_ok COMB_I (n :: rest) s1 Hst1)).
  unfold TOP.
  erewrite bind_Ok_intro
    by (apply (PUSHED_ok 0 n); regs; rewrite Hst1; reflexivity).
  cbn [bind get].
  erewrite bind_Ok_intro
    by (apply (set_TOP_ok _ n rest); regs; rewrite Hst1; reflexivity).
  unfold ret. f_equal. subst s1. unfold set_rd_stack. regs.
  rewrite Hst. reflexivity.
Qed.

(** The [PUTC] rule after the nested [eval]: the three outcomes. *)
Lemma reduce_PUTC_finish_spec s v m2 m3 rest :
  rd_stack s = v :: m2 :: m3 :: rest ->
  reduce_PUTC_finish s =
    if negb (isint v) then Exit Err_not_a_number s
    else if intof v >=? 256 then Exit (Err_invalid_character (intof v)) s
    else
      Ok Continue
         (set_car m3 COMB_WRITE
            (set_rd_stack (fun st => drop 1 st)
               (set_cdr m3 (cdr s m2)
                  (set_rd_stack (fun st => drop 1 st)
                     (set_output (output s ++ [intof v mod 256]) s))))).
Proof.
  intros Hst. unfold reduce_PUTC_finish, TOP.
  rewrite (bind_Ok_intro _ _ _ _ _ (PUSHED_ok 0 v s ltac:(rewrite Hst; reflexivity))).
  destruct (isint v); [|reflexivity]. cbn [negb bind ret].
  destruct (intof v >=? 256); [reflexivity|]. cbn [bind ret].
  unfold putchar. cbn [bind modify].
  erewrite bind_Ok_intro by (apply (POP_ok v (m2 :: m3 :: rest)); regs; exact Hst).
  erewrite bind_Ok_intro
    by (apply (PUSHED_ok 0 m2); regs; rewrite Hst; reflexivity).
  cbn [bind get].
  erewrite bind_Ok_intro
    by (apply (PUSHED_ok 1 m3); regs; rewrite Hst; reflexivity).
  cbn [bind modify].
  erewrite bind_Ok_intro
    by (apply (POP_ok m2 (m3 :: rest)); regs; rewrite Hst; reflexivity).
  erewrite bind_Ok_intro
    by (apply (PUSHED_ok 0 m3); regs; rewrite Hst; reflexivity).
  reflexivity.
Qed.

Lemma bind_assoc {A B C} (m : M A) (f : A -> M B) (g : B -> M C) s :
  bind (bind m f) g s = bind m (fun x => bind (f x) g) s.
Proof. unfold bind. destruct (m s); reflexivity. Qed.

(** The [PUTC] rule before the nested [eval], when the two Pairs fit. *)
Lemma reduce_PUTC_start_spec fuel s r n1 rest :
  rd_stack s = r :: n1 :: rest -> (2 <= length (rd_stack s))%nat ->
  padd (free_ptr s) 2 <= heap_area s ->
  reduce_PUTC_start fuel s =
    Ok (padd (free_ptr s) 1)
       (set_rd_stack (fun st => drop 2 st)
          (SET (padd (free_ptr s) 1) (free_ptr s) (mkint 0)
             (set_cdr (free_ptr s) COMB_INC
                (set_car (free_ptr s) (cdr s n1)
                   (set_free_ptr (padd (free_ptr s) 2) s))))).
Proof.
  intros Hst Hlen Hroom. unfold reduce_PUTC_start.
  rewrite (bind_Ok_intro _ _ _ _ _ (alloc_bump fuel 2 s Hroom)).
  replace (padd (free_ptr s) 0) with (free_ptr s) by (unfold padd; lia).
  unfold SETM, ARG. rewrite !bind_assoc.
  erewrite bind_Ok_intro
    by (apply (PUSHED_ok 1 n1); regs; rewrite Hst; reflexivity).
  cbn [bind get modify ret].
  erewrite bind_Ok_intro by (apply (DROP_ok 2); regs; exact Hlen).
  reflexivity.
Qed.

(** ** The bit buffer is the loader's alone *)

Section Blind.

Lemma blind_ret {A} (a : A) : blind (ret a).
Proof. intros ch bit s. reflexivity. Qed.

Lemma blind_get {A} (f : state -> A) :
  (forall ch bit s, f (with_bitbuf ch bit s) = f s) -> blind (get f).
Proof. intros H ch bit s. unfold get. rewrite H. reflexivity. Qed.

Lemma blind_modify (f : state -> state) :
  (forall ch bit s, f (with_bitbuf ch bit s) = with_bitbuf ch bit (f s)) ->
  blind (modify f).
Proof. intros H ch bit s. unfold modify. rewrite H. reflexivity. Qed.

Lemma blind_errexit {A} e : blind (@errexit A e).
Proof. intros ch bit s. reflexivity. Qed.

Lemma blind_assert b : blind (assert b).
Proof. intros ch bit s. unfold assert. destruct b; reflexivity. Qed.

Lemma blind_const {A} (r : result A) :
  (r = Undefined \/ r = OutOfFuel) -> blind (fun _ => r).
Proof. intros [-> | ->] ch bit s; reflexivity. Qed.

Lemma blind_bind {A B} (m : M A) (k : A -> M B) :
  blind m -> (forall a, blind (k a)) -> blind (bind m k).
Proof.
  intros Hm Hk ch bit s. unfold bind. rewrite Hm.
  destruct (m s) as [a s1| | | |]; simpl; try reflexivity. apply Hk.
Qed.

Lemma blind_PUSHED n : blind (PUSHED n).
Proof.
  intros ch bit s. unfold PUSHED. cbn [rd_stack with_bitbuf set_input].
  destruct (rd_stack s !! n); reflexivity.
Qed.

Lemma blind_set_PUSHED n c : blind (set_PUSHED n c).
Proof.
  intros ch bit s. unfold set_PUSHED. cbn [rd_stack with_bitbuf set_input].
  case_decide; reflexivity.
Qed.

Lemma blind_DROP n : blind (DROP n).
Proof.
  intros ch bit s. unfold DROP. cbn [rd_stack with_bitbuf set_input].
  case_decide; reflexivity.
Qed.

Lemma blind_malloc n : blind (malloc n).
Proof.
  intros ch bit s. unfold malloc. cbn [brk with_bitbuf set_input].
  destruct (_ && _); reflexivity.
Qed.

Lemma blind_read_char : blind read_char.
Proof.
  intros ch bit s. unfold read_char, bind, get.
  cbn [input with_bitbuf set_input set_in_bit set_in_ch in_argv in_fp in_stdin].
  destruct (read_char_loop _ _ _) as [[argv fp] [c|name]]; reflexivity.
Qed.

End Blind.

Create HintDb blind discriminated.
#[local] Hint Resolve blind_ret blind_errexit blind_assert blind_PUSHED
  blind_set_PUSHED blind_DROP blind_malloc blind_read_char : blind.

Ltac blind_step :=
  lazymatch goal with
  | |- blind (bind _ _) => apply blind_bind; [ | intros ? ]
  | |- blind (if ?b then _ else _) => destruct b
  | |- blind (match ?x with Some _ => _ | None => _ end) => destruct x
  | |- blind (match ?x with (_, _) => _ end) => destruct x
  | |- blind (match ?x with Return => _ | Continue => _ end) => destruct x
  | |- blind (get _) => apply blind_get; intros; reflexivity
  | |- blind (modify _) => apply blind_modify; intros; reflexivity
  | |- blind (fun _ => Undefined) => apply blind_const; auto
  | |- blind (fun _ => OutOfFuel) => apply blind_const; auto
  | |- blind TOP => apply blind_PUSHED
  | |- blind _ => solve [eauto with blind]
  end.

Ltac blind_auto := repeat blind_step.

Section BlindMachine.

Lemma blind_skip_I fuel : forall tmp, blind (skip_I fuel tmp).
Proof. induction fuel as [|fuel IH]; intros tmp; simpl; blind_auto. Qed.

Lemma blind_copy_cell fuel c : blind (copy_cell fuel c).
Proof. pose proof (blind_skip_I fuel). unfold copy_cell. blind_auto. Qed.

Lemma blind_rs_copy_loop fuel : forall k, blind (rs_copy_loop fuel k).
Proof.
  pose proof (blind_copy_cell fuel).
  induction k as [|k IH]; simpl; blind_auto.
Qed.

Lemma blind_gc_scan fuel : forall scan, blind (gc_scan fuel scan).
Proof.
  induction fuel as [|fuel IH]; intros scan; simpl; [blind_auto|].
  pose proof (blind_copy_cell fuel). blind_auto.
Qed.

Lemma blind_gc_run fuel : forall s1 s2, blind (gc_run fuel s1 s2).
Proof.
  induction fuel as [|fuel IH]; intros s1 s2; simpl; [blind_auto|].
  pose proof (blind_copy_cell fuel).
  pose proof (blind_gc_scan fuel).
  pose proof (blind_rs_copy_loop fuel).
  unfold rs_copy, copy_save. blind_auto.
Qed.

Lemma blind_pair fuel a b : blind (pair fuel a b).
Proof. pose proof (blind_gc_run fuel). unfold pair. blind_auto. Qed.

Lemma blind_alloc fuel n : blind (alloc fuel n).
Proof. pose proof (blind_gc_run fuel). unfold alloc. blind_auto. Qed.

Lemma blind_rs_push c : blind (rs_push c).
Proof. unfold rs_push. blind_auto. Qed.

Lemma blind_POP : blind POP.
Proof. unfold POP. blind_auto. Qed.

Lemma blind_ARG n : blind (ARG n).
Proof. unfold ARG. blind_auto. Qed.

Lemma blind_unspine fuel : blind (unspine fuel).
Proof.
  pose proof blind_rs_push.
  induction fuel as [|fuel IH]; simpl; blind_auto.
Qed.

Lemma blind_SETM c (x y : M Z) : blind x -> blind y -> blind (SETM c x y).
Proof. intros Hx Hy. unfold SETM. blind_auto. Qed.

Lemma blind_putchar c : blind (putchar c).
Proof. unfold putchar. blind_auto. Qed.

Lemma blind_reduce fuel ev bottom :
  (forall r, blind (ev r)) -> blind (reduce fuel ev bottom).
Proof.
  intros Hev.
  pose proof blind_rs_push. pose proof blind_POP. pose proof blind_ARG.
  pose proof (blind_pair fuel). pose proof (blind_alloc fuel).
  pose proof blind_putchar.
  assert (forall c x y, blind x -> blind y -> blind (SETM c x y))
    by (intros; apply blind_SETM; assumption).
  unfold reduce, reduce_READ, reduce_PUTC, reduce_PUTC_start,
    reduce_PUTC_finish, reduce_INC, reduce_char, set_TOP.
  blind_auto.
Qed.

Lemma blind_eval_loop fuel : forall bottom, blind (eval_loop fuel bottom).
Proof.
  pose proof blind_rs_push.
  induction fuel as [|fuel IH]; intros bottom; simpl; [blind_auto|].
  pose proof (blind_unspine fuel).
  apply blind_bind; [blind_auto|]. intros _.
  apply blind_bind.
  - apply blind_reduce. intros r. blind_auto.
  - intros t. blind_auto.
Qed.

Lemma blind_eval fuel root : blind (eval fuel root).
Proof.
  pose proof blind_rs_push. pose proof (blind_eval_loop fuel).
  unfold eval. blind_auto.
Qed.

Lemma blind_reduce_READ fuel : blind (reduce_READ fuel).
Proof.
  pose proof blind_POP. pose proof (blind_alloc fuel).
  unfold reduce_READ. blind_auto.
Qed.

End BlindMachine.


(** * The claims *)

(** ** The stack across the loader *)

(** C9: a call of [parse], [translate] or [unabstract] that returns
    leaves the stack pointer where it was at entry. *)
Theorem stack_neutral (fuel : nat) (t c : Cell) (s s' : state) :
  parse fuel s = Ok c s' \/
  translate fuel t s = Ok c s' \/
  unabstract fuel t s = Ok c s' ->
  sp s' = sp s.
Proof.
  intros [H | [H | H]].
  - rewrite (shifts_parse fuel s c s' H). lia.
  - rewrite (shifts_translate fuel t s c s' H). lia.
  - rewrite (shifts_unabstract fuel t s c s' H). lia.
Qed.

Lemma stack_neutral_witness :
  sp (snd demo_app_parsed) = sp demo_app /\
  sp (snd demo_app_translated) = sp (snd demo_app_parsed) /\
  sp (snd demo_app_unabstracted) = sp (snd demo_app_parsed).
Proof.
  split; [|split].
  - apply (stack_neutral 64 0 (fst demo_app_parsed) demo_app).
    left. vm_compute. reflexivity.
  - apply (stack_neutral 64 (fst demo_app_parsed) (fst demo_app_translated)
             (snd demo_app_parsed)).
    right. left. vm_compute. reflexivity.
  - apply (stack_neutral 64 (fst demo_app_parsed) (fst demo_app_unabstracted)
             (snd demo_app_parsed)).
    right. right. vm_compute. reflexivity.
Defined.

(** ** The I/O rules of the reducer *)

(** C4: when [PUTC] is reduced, [x INC 0] is built and evaluated by a
    nested [eval]; if what it leaves on top of the stack is not an Int
    the process exits with the message on the output format; if it is an
    Int of 256 or more it exits with the message on the character; if
    it is an Int from 0 to 255 that byte is appended to the output and
    the root becomes [WRITE y], the rule having fired. *)
Theorem PUTC_rule (fuel : nat) (ev : Cell -> M unit) (bottom : Z)
    (s s2 s3 : state) (r v m2 m3 : Cell) (rest0 rest : list Cell) :
  rd_stack s = COMB_PUTC :: rest0 ->
  bottom - sp s > 3 ->
  reduce_PUTC_start fuel s = Ok r s2 ->
  ev r s2 = Ok tt s3 ->
  rd_stack s3 = v :: m2 :: m3 :: rest ->
  (isint v = false ->
     reduce fuel ev bottom s = Exit Err_not_a_number s3 /\
     contains "invalid output format" (error_message Err_not_a_number) = true)
  /\
  (isint v = true -> 256 <= intof v ->
     reduce fuel ev bottom s = Exit (Err_invalid_character (intof v)) s3 /\
     contains "invalid character"
       (error_message (Err_invalid_character (intof v))) = true)
  /\
  (isint v = true -> 0 <= intof v < 256 ->
     exists s4,
       reduce fuel ev bottom s = Ok Continue s4 /\
       output s4 = output s3 ++ [intof v] /\
       rd_stack s4 = m3 :: rest /\
       car s4 m3 = COMB_WRITE /\ cdr s4 m3 = cdr s3 m2)
  /\
  (forall n1 n2 n3 rest1,
     rest0 = n1 :: n2 :: n3 :: rest1 ->
     padd (free_ptr s) 2 <= heap_area s ->
     r = padd (free_ptr s) 1 /\
     car s2 r = free_ptr s /\ cdr s2 r = mkint 0 /\
     car s2 (free_ptr s) = cdr s n1 /\ cdr s2 (free_ptr s) = COMB_INC /\
     rd_stack s2 = n2 :: n3 :: rest1).
Proof.
  intros Hst Hd Hstart Hev Hst3.
  assert (Hred : reduce fuel ev bottom s = reduce_PUTC_finish s3).
  { rewrite (reduce_at_PUTC fuel ev bottom s rest0 Hst Hd).
    unfold reduce_PUTC.
    rewrite (bind_Ok_intro _ _ _ _ _ Hstart).
    rewrite (bind_Ok_intro _ _ _ _ _ Hev). reflexivity. }
  rewrite Hred, (reduce_PUTC_finish_spec s3 v m2 m3 rest Hst3).
  splits.
  - intros ->. split; reflexivity.
  - intros -> Hv. cbn [negb].
    rewrite (proj2 (Z.geb_le _ _) Hv). split; reflexivity.
  - intros -> Hv. cbn [negb].
    destruct (Z.geb_spec (intof v) 256) as [|_]; [lia|].
    eexists. split; [reflexivity|]. regs. rewrite Hst3.
    rewrite Z.mod_small by lia.
    splits; try reflexivity.
    + apply car_set_car_eq.
    + rewrite cdr_set_car, cdr_set_rd_stack. apply cdr_set_cdr_eq.
  - intros n1 n2 n3 rest1 -> Hroom.
    assert (Hlen : (2 <= length (rd_stack s))%nat) by (rewrite Hst; simpl; lia).
    rewrite (reduce_PUTC_start_spec fuel s COMB_PUTC n1 (n2 :: n3 :: rest1)
               Hst Hlen Hroom) in Hstart.
    injection Hstart as <- <-. regs. rewrite Hst.
    assert (padd (free_ptr s) 1 <> free_ptr s) by (unfold padd, PAIR_SIZE; lia).
    splits; try reflexivity.
    + rewrite car_set_rd_stack. apply car_SET_eq.
    + rewrite cdr_set_rd_stack. apply cdr_SET_eq.
    + rewrite car_set_rd_stack, car_SET_ne, car_set_cdr by auto.
      apply car_set_car_eq.
    + rewrite cdr_set_rd_stack, cdr_SET_ne by auto. apply cdr_set_cdr_eq.
Qed.

Lemma PUTC_rule_witness :
  reduce 8 (eval 4000) RDSTACK_SIZE (at_PUTC COMB_K)
    = Exit Err_not_a_number (at_PUTC_returned COMB_K) /\
  reduce 8 (eval 4000) RDSTACK_SIZE (at_PUTC (mkchar 256))
    = Exit (Err_invalid_character 256) (at_PUTC_returned (mkchar 256)) /\
  exists s4,
    reduce 8 (eval 4000) RDSTACK_SIZE (at_PUTC (mkchar 255)) = Ok Continue s4 /\
    output s4 = output (at_PUTC_returned (mkchar 255)) ++ [255].
Proof.
  split; [|split].
  - refine (proj1 (proj1
      (PUTC_rule 8 (eval 4000) RDSTACK_SIZE (at_PUTC COMB_K)
         (snd (at_PUTC_nested COMB_K)) (at_PUTC_returned COMB_K)
         (fst (at_PUTC_nested COMB_K)) COMB_INC 4104 4112
         [4096; 4104; 4112] [] _ _ _ _ _) _));
      vm_compute; reflexivity.
  - refine (proj1 (proj1 (proj2
      (PUTC_rule 8 (eval 4000) RDSTACK_SIZE (at_PUTC (mkchar 256))
         (snd (at_PUTC_nested (mkchar 256))) (at_PUTC_returned (mkchar 256))
         (fst (at_PUTC_nested (mkchar 256))) (mkint 256) 4104 4112
         [4096; 4104; 4112] [] _ _ _ _ _)) _ _));
      vm_compute; try reflexivity; discriminate.
  - destruct (proj1 (proj2 (proj2
      (PUTC_rule 8 (eval 4000) RDSTACK_SIZE (at_PUTC (mkchar 255))
         (snd (at_PUTC_nested (mkchar 255))) (at_PUTC_returned (mkchar 255))
         (fst (at_PUTC_nested (mkchar 255))) (mkint 255) 4104 4112
         [4096; 4104; 4112] []
         ltac:(vm_compute; reflexivity) ltac:(vm_compute; reflexivity)
         ltac:(vm_compute; reflexivity) ltac:(vm_compute; reflexivity)
         ltac:(vm_compute; reflexivity))))
      ltac:(vm_compute; reflexivity)
      ltac:(vm_compute; split; [discriminate | reflexivity]))
      as (s4 & Hred & Hout & _).
    exists s4. split; [exact Hred | exact Hout].
Defined.

(** C5: when [READ] is reduced with the arguments [NIL] and [f], a byte
    is asked of [read_char].  At the end of the input the rule still
    fires: the Pair [READ NIL] becomes [I KI], so that the redex reads
    [I KI f] and the next turn of the loop leaves [KI] at the head of
    [f].  On a byte [b] the Pair becomes [CONS CHAR(b) (READ NIL)], so
    that the redex reads [CONS CHAR(b) (READ NIL) f].  The Pair that
    holds [f] is not touched. *)
Theorem READ_rule (fuel : nat) (ev : Cell -> M unit) (bottom : Z)
    (s : state) (n1 n2 : Cell) (rest : list Cell) :
  rd_stack s = COMB_READ :: n1 :: n2 :: rest ->
  bottom - sp s > 2 ->
  Z.of_nat (length (rd_stack s)) <= RDSTACK_SIZE ->
  ispair n1 = true -> n1 <> n2 ->
  n1 < free_ptr s -> n2 < free_ptr s ->
  input_ok s ->
  match pending (input s) with
  | [] =>
      exists s',
        reduce fuel ev bottom s = Ok Continue s' /\
        rd_stack s' = n1 :: n2 :: rest /\
        car s' n1 = COMB_I /\ cdr s' n1 = COMB_KI /\
        car s' n2 = car s n2 /\ cdr s' n2 = cdr s n2 /\
        output s' = output s /\ pending (input s') = [] /\
        exists s'',
          (unspine 2;; reduce fuel ev bottom) s' = Ok Continue s'' /\
          rd_stack s'' = COMB_KI :: n2 :: rest /\
          car s'' n2 = car s n2 /\ cdr s'' n2 = cdr s n2
  | b :: bytes =>
      padd (free_ptr s) 2 <= heap_area s ->
      exists s',
        reduce fuel ev bottom s = Ok Continue s' /\
        rd_stack s' = n1 :: n2 :: rest /\
        car s' n1 = free_ptr s /\ cdr s' n1 = padd (free_ptr s) 1 /\
        car s' (free_ptr s) = COMB_CONS /\
        cdr s' (free_ptr s) = mkchar b /\
        car s' (padd (free_ptr s) 1) = COMB_READ /\
        cdr s' (padd (free_ptr s) 1) = NIL /\
        car s' n2 = car s n2 /\ cdr s' n2 = cdr s n2 /\
        output s' = output s /\ pending (input s') = bytes
  end.
Proof.
  intros Hst Hd Hlen Hp Hne Hn1 Hn2 Hok.
  rewrite (reduce_at_READ fuel ev bottom s _ Hst Hd).
  destruct (pending (input s)) as [|b bytes] eqn:Hpend.
  - destruct (reduce_READ_eof fuel s COMB_READ n1 (n2 :: rest) Hst Hok Hpend)
      as (i' & Hred & Hp' & Hok').
    eexists. split; [exact Hred|].
    regs. rewrite Hst.
    splits; try reflexivity; try assumption.
    + apply car_SET_eq.
    + apply cdr_SET_eq.
    + rewrite car_SET_ne by auto. reflexivity.
    + rewrite cdr_SET_ne by auto. reflexivity.
    + eexists. split.
      { apply (turn_I fuel ev bottom _ n1 (n2 :: rest)).
        - regs. rewrite Hst. reflexivity.
        - exact Hp.
        - apply car_SET_eq.
        - regs. rewrite Hst in *. cbn [length drop] in *. lia.
        - unfold sp in *. regs. rewrite Hst in *. cbn [length drop] in *. lia. }
      regs. rewrite cdr_SET_eq.
      splits; try reflexivity.
      * rewrite car_set_rd_stack, car_SET_ne by auto. reflexivity.
      * rewrite cdr_set_rd_stack, cdr_SET_ne by auto. reflexivity.
  - intros Hroom.
    destruct (reduce_READ_byte fuel s COMB_READ n1 (n2 :: rest) b bytes
                Hst Hok Hpend Hroom) as (i' & Hred & Hp' & Hok').
    eexists. split; [exact Hred|].
    regs. rewrite Hst.
    assert (padd (free_ptr s) 1 <> free_ptr s) by (unfold padd, PAIR_SIZE; lia).
    assert (free_ptr s <> n1) by lia.
    assert (padd (free_ptr s) 1 <> n1) by (unfold padd, PAIR_SIZE; lia).
    assert (n2 <> free_ptr s) by lia.
    assert (n2 <> padd (free_ptr s) 1) by (unfold padd, PAIR_SIZE; lia).
    splits; try reflexivity; try assumption; heap_rw; reflexivity.
Qed.

Lemma READ_rule_witness :
  (exists s',
     reduce 8 (eval 8) RDSTACK_SIZE (at_READ []) = Ok Continue s' /\
     car s' 4096 = COMB_I /\ cdr s' 4096 = COMB_KI) /\
  (exists s',
     reduce 8 (eval 8) RDSTACK_SIZE (at_READ [65; 66]) = Ok Continue s' /\
     cdr s' (free_ptr (at_READ [65; 66])) = mkchar 65 /\
     pending (input s') = [66]).
Proof.
  split.
  - destruct (READ_rule 8 (eval 8) RDSTACK_SIZE (at_READ []) 4096 4104 [])
      as (s' & Hred & _ & Hcar & Hcdr & _);
      try (vm_compute; reflexivity); try (vm_compute; discriminate).
    { vm_compute. splits; try discriminate; repeat constructor. }
    exists s'. auto.
  - pose proof (READ_rule 8 (eval 8) RDSTACK_SIZE (at_READ [65; 66]) 4096 4104 [])
      as H.
    destruct H as (s' & Hred & _ & _ & _ & _ & Hchar & _ & _ & _ & _ & _ & Hpend);
      try (vm_compute; reflexivity); try (vm_compute; discriminate).
    { vm_compute. splits; try discriminate; repeat constructor; discriminate. }
    exists s'. auto.
Defined.

(** ** Bits and bytes of the input *)

(** C10: the reducer never consults the bit buffer of the loader and
    leaves it as it is: a run of [eval] from a state with another byte
    and mask in the buffer ends the same way, buffer apart.  A [READ]
    reduction delivers the next whole byte of the input, whatever bits
    of the byte the parser was reading are left in the buffer. *)
Theorem READ_byte_aligned :
  (forall fuel root ch bit s,
     eval fuel root (with_bitbuf ch bit s)
       = map_state (with_bitbuf ch bit) (eval fuel root s)) /\
  (forall fuel ev bottom s n1 rest b bytes ch bit,
     rd_stack s = COMB_READ :: n1 :: rest ->
     bottom - sp s > 2 ->
     n1 < free_ptr s ->
     input_ok s ->
     pending (input s) = b :: bytes ->
     padd (free_ptr s) 2 <= heap_area s ->
     exists s',
       reduce fuel ev bottom (with_bitbuf ch bit s) = Ok Continue s' /\
       cdr s' (free_ptr s) = mkchar b /\
       pending (input s') = bytes /\
       in_ch (input s') = ch /\ in_bit (input s') = bit).
Proof.
  split.
  - intros fuel root ch bit s. apply blind_eval.
  - intros fuel ev bottom s n1 rest b bytes ch bit Hst Hd Hn1 Hok Hpend Hroom.
    rewrite (reduce_at_READ fuel ev bottom (with_bitbuf ch bit s) (n1 :: rest))
      by assumption.
    rewrite blind_reduce_READ.
    destruct (reduce_READ_byte fuel s COMB_READ n1 rest b bytes
                Hst Hok Hpend Hroom) as (i' & Hred & Hp' & Hok').
    rewrite Hred. eexists. split; [reflexivity|].
    assert (free_ptr s <> n1) by lia.
    assert (padd (free_ptr s) 1 <> free_ptr s) by (unfold padd, PAIR_SIZE; lia).
    unfold with_bitbuf. regs.
    splits; try reflexivity.
    + rewrite cdr_set_input. heap_rw. reflexivity.
    + unfold pending in *.
      cbn [in_fp in_argv in_stdin set_in_bit set_in_ch]. exact Hp'.
Qed.

Lemma READ_byte_aligned_witness :
  (exists s',
     reduce 8%nat (eval 8%nat) RDSTACK_SIZE
       (with_bitbuf 47 8 (at_READ [65; 66]))
       = Ok Continue s' /\
     cdr s' (free_ptr (at_READ [65; 66])) = mkchar 65 /\
     pending (input s') = [66] /\
     in_ch (input s') = 47 /\ in_bit (input s') = 8) /\
  (exists s', demo_cat = Ok tt s' /\ output s' = [72; 105]).
Proof.
  split.
  - apply (proj2 READ_byte_aligned 8%nat (eval 8%nat) RDSTACK_SIZE
             (at_READ [65; 66])
             4096 [4104] 65 [66] 47 8);
      try (vm_compute; reflexivity); try (vm_compute; discriminate).
    vm_compute. splits; try discriminate; repeat constructor; discriminate.
  - eexists. split; vm_compute; reflexivity.
Defined.

(** * Properties of the single parts *)

(** ** Cells *)


Lemma land_low c k : 0 <= k -> Z.land c (2 ^ k - 1) = c mod 2 ^ k.
Proof. intros. rewrite <- Z.land_ones by lia. f_equal. rewrite Z.ones_equiv. lia. Qed.

Lemma tags_mod8 c :
  TAG c = (c mod 8) mod 4 /\ Z.land c 7 = c mod 8 /\ 0 <= c mod 8 < 8.
Proof.
  splits.
  - rewrite TAG_mod. symmetry. apply Z.mod_mod_divide. exists 2. reflexivity.
  - apply (land_low c 3). lia.
  - apply Z.mod_pos_bound. lia.
  - apply Z.mod_pos_bound. lia.
Qed.

(** X1: every word belongs to exactly one of the five classes of the tag
    structure: Pair, Int, combinator, character, miscellaneous. *)
Theorem tag_classes_partition (c : Cell) :
  Z.b2z (ispair c) + Z.b2z (isint c) + Z.b2z (iscomb c)
    + Z.b2z (ischar c) + Z.b2z (isimm c) = 1.
Proof.
  unfold ispair, isint, iscomb, ischar, isimm.
  destruct (tags_mod8 c) as (-> & -> & H).
  assert (E : c mod 8 = 0 \/ c mod 8 = 1 \/ c mod 8 = 2 \/ c mod 8 = 3 \/
              c mod 8 = 4 \/ c mod 8 = 5 \/ c mod 8 = 6 \/ c mod 8 = 7) by lia.
  destruct E as [E|[E|[E|[E|[E|[E|[E|E]]]]]]]; rewrite E; reflexivity.
Qed.

(** X2: [mkint] and [intof] are inverse on the 30-bit signed range: the
    word is an Int, fits 32 bits, and reads back as the number. *)
Theorem int_round_trip (n : Z) :
  - 2 ^ 29 <= n < 2 ^ 29 ->
  isint (mkint n) = true /\ intof (mkint n) = n /\
  0 <= mkint n < WORD.
Proof.
  intros H. splits.
  - apply isint_mkint.
  - apply intof_mkint, H.
  - unfold mkint, CELL. apply Z.mod_pos_bound. reflexivity.
  - unfold mkint, CELL. apply Z.mod_pos_bound. reflexivity.
Qed.

Lemma int_round_trip_witness :
  isint (mkint (-1)) = true /\ intof (mkint (-1)) = -1 /\
  0 <= mkint (-1) < WORD.
Proof. apply (int_round_trip (-1)). lia. Defined.

(** X3: [mkchar] and [charof] are inverse on the characters, the
    end-of-input character 256 included, and a character is neither a
    Pair, an Int nor a combinator. *)
Theorem char_round_trip (n : Z) :
  0 <= n < 2 ^ 28 ->
  ischar (mkchar n) = true /\ charof (mkchar n) = n /\
  ispair (mkchar n) = false /\ isint (mkchar n) = false /\
  iscomb (mkchar n) = false.
Proof.
  intros H.
  assert (E : mkchar n = n * 8 + 3).
  { unfold mkchar, CELL, WORD. rewrite Z.shiftl_mul_pow2 by lia.
    apply Z.mod_small. lia. }
  assert (M8 : (n * 8 + 3) mod 8 = 3).
  { replace (n * 8 + 3) with (3 + n * 8) by lia.
    rewrite Z.mod_add by lia. reflexivity. }
  unfold ischar, ispair, isint, iscomb, charof.
  destruct (tags_mod8 (mkchar n)) as (-> & -> & _).
  rewrite E, M8. splits; try reflexivity.
  unfold to_int. rewrite (Z.mod_small (n * 8 + 3) WORD) by (unfold WORD; lia).
  destruct (Z.ltb_spec (n * 8 + 3) (2 ^ 31)); [|lia].
  rewrite Z.shiftr_div_pow2 by lia.
  replace (n * 8 + 3) with (3 + n * 2 ^ 3) by lia.
  rewrite Z.div_add by lia. reflexivity.
Qed.

Lemma char_round_trip_witness :
  ischar (mkchar 256) = true /\ charof (mkchar 256) = 256 /\
  ispair (mkchar 256) = false /\ isint (mkchar 256) = false /\
  iscomb (mkchar 256) = false.
Proof. apply (char_round_trip 256). lia. Defined.


(** ** Stack and input *)

(** X4: [POP] after [PUSH(c)] gives [c] back and leaves the stack
    pointer, every live slot of the stack, the heap, the input and the
    output as they were (the slot below the stack pointer, which keeps
    [c], is not part of the state); with all [RDSTACK_SIZE] slots taken
    [PUSH] pushes nothing and ends the run with the stack overflow
    error. *)
Theorem push_then_pop (c : Cell) (s : state) :
  (Z.of_nat (length (rd_stack s)) < RDSTACK_SIZE ->
     (rs_push c;; POP) s = Ok c s) /\
  (RDSTACK_SIZE <= Z.of_nat (length (rd_stack s)) ->
     rs_push c s = Exit Err_stack_overflow s).
Proof.
  split; intros H.
  - rewrite (bind_Ok_intro _ _ _ _ _ (rs_push_ok c s H)).
    rewrite (POP_ok c (rd_stack s)) by reflexivity.
    f_equal. destruct s; reflexivity.
  - unfold rs_push, bind, get, sp.
    destruct (Z.leb_spec (RDSTACK_SIZE - Z.of_nat (length (rd_stack s))) 0);
      [reflexivity | lia].
Qed.

Lemma push_then_pop_witness :
  (rs_push COMB_K;; POP) boot = Ok COMB_K boot /\
  rs_push COMB_K demo_full_stack = Exit Err_stack_overflow demo_full_stack.
Proof.
  split.
  - apply (proj1 (push_then_pop COMB_K boot)). vm_compute. reflexivity.
  - apply (proj2 (push_then_pop COMB_K demo_full_stack)).
    apply Z.leb_le. vm_compute. reflexivity.
Defined.

(** X5: [read_char] delivers the bytes of the named files in order, then
    those of standard input, and [EOF] from then on, every time it is
    called; it leaves the bit buffer alone. *)
Theorem read_char_in_order (s : state) :
  input_ok s ->
  exists i',
    read_char s = Ok (hd EOF (pending (input s))) (set_input i' s) /\
    pending i' = tl (pending (input s)) /\
    in_ch i' = in_ch (input s) /\ in_bit i' = in_bit (input s).
Proof.
  intros Hok. destruct (pending (input s)) as [|b bytes] eqn:Hp.
  - destruct (read_char_eof s Hok Hp) as (i' & H1 & H2 & H3 & H4 & _).
    exists i'. simpl. auto.
  - destruct (read_char_byte s b bytes Hok Hp) as (i' & H1 & H2 & H3 & H4 & _).
    exists i'. simpl. auto.
Qed.

Lemma read_char_in_order_witness :
  exists i',
    read_char demo_two_files = Ok 7 (set_input i' demo_two_files) /\
    pending i' = [] /\ in_ch i' = 0 /\ in_bit i' = 0.
Proof.
  apply (read_char_in_order demo_two_files).
  vm_compute. splits; try discriminate; repeat constructor; eauto; discriminate.
Defined.

(** X6: when the open file is at its end and the next name cannot be
    opened, [read_char] ends the run with [cannot open] and that name. *)
Theorem read_char_cannot_open (s : state) (f0 f1 : file) (more : list file) :
  in_fp (input s) = [] ->
  in_argv (input s) = f0 :: f1 :: more ->
  fdata f1 = None ->
  exists s',
    read_char s = Exit (Err_cannot_open (fname f1)) s' /\
    error_message (Err_cannot_open (fname f1))
      = "cannot open " +:+ fname f1 +:+ newline.
Proof.
  intros Hfp Hargv Hnone. unfold read_char, bind, get.
  rewrite Hfp, Hargv. cbn [read_char_loop]. rewrite Hnone.
  cbn [modify errexit]. eexists. split; reflexivity.
Qed.

Lemma read_char_cannot_open_witness :
  exists s',
    read_char demo_lost_file = Exit (Err_cannot_open "b") s' /\
    error_message (Err_cannot_open "b") = "cannot open " +:+ "b" +:+ newline.
Proof.
  apply (read_char_cannot_open demo_lost_file (File "a" (Some [1]))
           (File "b" None) []); reflexivity.
Defined.

Lemma from_bits_bits_from c :
  0 <= c < 256 ->
  from_bits (bits_from 8 c 128) = c /\
  nth 0 (bits_from 8 c 128) 0 = Z.b2z (Z.testbit c 7) /\
  length (bits_from 8 c 128) = 8%nat.
Proof.
  intros H.
  assert (A : forallb (fun c =>
                  (from_bits (bits_from 8 c 128) =? c) &&
                  (nth 0 (bits_from 8 c 128) 0 =? Z.b2z (Z.testbit c 7)) &&
                  (Nat.eqb (length (bits_from 8 c 128)) 8))
                (map Z.of_nat (seq 0 256)) = true) by (vm_compute; reflexivity).
  rewrite forallb_forall in A.
  specialize (A c). rewrite !andb_true_iff, !Z.eqb_eq, Nat.eqb_eq in A.
  assert (I : In c (map Z.of_nat (seq 0 256))).
  { apply in_map_iff. exists (Z.to_nat c). split; [lia|]. apply in_seq. lia. }
  destruct (A I) as [[? ?] ?]. auto.
Qed.

Lemma read_bits_spec n : forall s bs rest,
  input_ok s -> next_bits s = bs ++ rest -> length bs = n ->
  exists i',
    read_bits n s = Ok bs (set_input i' s) /\
    next_bits (set_input i' s) = rest /\ input_ok (set_input i' s).
Proof.
  induction n as [|n IH]; intros s bs rest Hok Hnext Hlen.
  - destruct bs; [|discriminate]. exists (input s).
    replace (set_input (input s) s) with s by (destruct s; reflexivity).
    auto.
  - destruct bs as [|b bs]; [discriminate|]. injection Hlen as Hlen.
    destruct (read_bit_spec s b (bs ++ rest) Hok Hnext) as (i1 & H1 & N1 & O1).
    destruct (IH _ bs rest O1 N1 Hlen) as (i2 & H2 & N2 & O2).
    exists i2. cbn [read_bits].
    rewrite (bind_Ok_intro _ _ _ _ _ H1), (bind_Ok_intro _ _ _ _ _ H2).
    auto.
Qed.

Lemma next_bits_whole s :
  input_ok s -> in_bit (input s) = 0 ->
  next_bits s = flat_map (fun b => bits_from 8 b 128) (pending (input s)).
Proof. intros _ H. unfold next_bits. rewrite H. reflexivity. Qed.

Lemma bits_from_length b : 0 <= b < 256 -> length (bits_from 8 b 128) = 8%nat.
Proof. intros H. apply from_bits_bits_from, H. Qed.

Lemma flat_bits_inj l1 : forall l2,
  Forall (fun b => 0 <= b < 256) l1 -> Forall (fun b => 0 <= b < 256) l2 ->
  flat_map (fun b => bits_from 8 b 128) l1
    = flat_map (fun b => bits_from 8 b 128) l2 ->
  l1 = l2.
Proof.
  induction l1 as [|a l1 IH]; intros [|b l2] H1 H2 E; try reflexivity.
  - apply Forall_cons in H2 as [Hb _]. cbn [flat_map] in E.
    pose proof (bits_from_length b Hb). destruct (bits_from 8 b 128); discriminate.
  - apply Forall_cons in H1 as [Ha _]. cbn [flat_map] in E.
    pose proof (bits_from_length a Ha). destruct (bits_from 8 a 128); discriminate.
  - apply Forall_cons in H1 as [Ha H1]. apply Forall_cons in H2 as [Hb H2].
    cbn [flat_map] in E.
    apply app_inj_1 in E as [E1 E2];
      [|rewrite !bits_from_length by assumption; reflexivity].
    f_equal; [|apply IH; assumption].
    rewrite <- (proj1 (from_bits_bits_from a Ha)), E1.
    apply from_bits_bits_from, Hb.
Qed.


Lemma read_bit_fresh s c i1 :
  in_bit (input s) = 0 -> read_char s = Ok c (set_input i1 s) -> c <> EOF ->
  read_bit s
    = Ok (bit_of c 128) (set_input (set_in_bit 64 (set_in_ch c i1)) s).
Proof.
  intros Hb Hr Hc. unfold read_bit, bind at 1, get at 1. rewrite Hb.
  change (0 =? 0) with true. cbv iota.
  rewrite !bind_assoc. rewrite (bind_Ok_intro _ _ _ _ _ Hr).
  unfold bind, modify, get, ret.
  destruct (Z.eqb_spec c EOF) as [E|_]; [contradiction|].
  reflexivity.
Qed.

Lemma read_bit_next s m :
  in_bit (input s) = m -> m <> 0 ->
  read_bit s
    = Ok (bit_of (in_ch (input s)) m)
         (set_input (set_in_bit (Z.shiftr m 1) (input s)) s).
Proof.
  intros Hb Hm. unfold read_bit, bind at 1, get at 1. rewrite Hb.
  destruct (Z.eqb_spec m 0) as [E|_]; [contradiction|].
  unfold bind, modify, get, ret. rewrite Hb. reflexivity.
Qed.

(** X7: with an empty bit buffer, eight calls of [read_bit] take exactly
    one byte off the input and deliver its bits, the most significant
    first; the buffer is empty again afterwards. *)
Theorem read_bit_most_significant_first (s : state) (c : Z) (rest : list Z) :
  input_ok s ->
  in_bit (input s) = 0 ->
  pending (input s) = c :: rest ->
  exists bs i',
    read_bits 8 s = Ok bs (set_input i' s) /\
    length bs = 8%nat /\ from_bits bs = c /\
    nth 0 bs 0 = Z.b2z (Z.testbit c 7) /\
    in_bit i' = 0 /\ pending i' = rest.
Proof.
  intros Hok Hbit Hpend.
  assert (Hc : 0 <= c < 256).
  { destruct Hok as (_ & _ & Hb). rewrite Hpend in Hb.
    apply Forall_cons in Hb as [Hb _]. exact Hb. }
  destruct (read_char_byte s c rest Hok Hpend) as (i1 & Hr & Hp1 & _).
  destruct (from_bits_bits_from c Hc) as (Hv & Hn & Hl).
  exists (bits_from 8 c 128), (set_in_bit 0 (set_in_ch c i1)).
  splits; auto.
  cbn [read_bits].
  rewrite (bind_Ok_intro _ _ _ _ _
             (read_bit_fresh s c i1 Hbit Hr ltac:(unfold EOF; lia))).
  do 7 (rewrite !bind_assoc;
        erewrite bind_Ok_intro
          by (apply read_bit_next; [reflexivity | discriminate]);
        cbv beta).
  reflexivity.
Qed.

Lemma read_bit_most_significant_first_witness :
  exists bs i',
    read_bits 8 demo_byte = Ok bs (set_input i' demo_byte) /\
    length bs = 8%nat /\ from_bits bs = 165 /\
    nth 0 bs 0 = Z.b2z (Z.testbit 165 7) /\
    in_bit i' = 0 /\ pending i' = [66].
Proof.
  apply (read_bit_most_significant_first demo_byte 165 [66]);
    try reflexivity.
  vm_compute. splits; try discriminate; repeat constructor; discriminate.
Defined.

(** X8: [read_bit] at the end of the input, with no bit left in the
    buffer, ends the run with [unexpected EOF]. *)
Theorem read_bit_at_end (s : state) :
  input_ok s ->
  in_bit (input s) = 0 ->
  pending (input s) = [] ->
  exists s',
    read_bit s = Exit Err_unexpected_EOF s' /\
    error_message Err_unexpected_EOF = "unexpected EOF" +:+ newline /\
    output s' = output s /\ mem s' = mem s.
Proof.
  intros Hok Hbit Hpend.
  destruct (read_char_eof s Hok Hpend) as (i1 & Hr & _).
  unfold read_bit, bind at 1, get at 1. rewrite Hbit.
  change (0 =? 0) with true. cbv iota.
  rewrite !bind_assoc. rewrite (bind_Ok_intro _ _ _ _ _ Hr).
  unfold bind, modify, get, ret, errexit.
  change (EOF =? EOF) with true. cbv iota.
  eexists. splits; reflexivity.
Qed.

Lemma read_bit_at_end_witness :
  exists s',
    read_bit boot = Exit Err_unexpected_EOF s' /\
    error_message Err_unexpected_EOF = "unexpected EOF" +:+ newline /\
    output s' = output boot /\ mem s' = mem boot.
Proof.
  apply (read_bit_at_end boot); try reflexivity.
  vm_compute. splits; try discriminate; repeat constructor.
Defined.


(** ** A program cut short *)

Lemma bind_Exit {A B} (m : M A) (k : A -> M B) s e s' :
  m s = Exit e s' -> bind m k s = Exit e s'.
Proof. intros H. unfold bind. rewrite H. reflexivity. Qed.

Lemma bits_from_nil_inv ch m : bits_from 8 ch m = [] -> m = 0.
Proof.
  cbn [bits_from]. destruct (Z.eqb_spec m 0); [auto | discriminate].
Qed.

Lemma next_bits_nil s :
  input_ok s -> next_bits s = [] ->
  in_bit (input s) = 0 /\ pending (input s) = [].
Proof.
  intros (_ & _ & Hb) H. unfold next_bits in H.
  apply app_eq_nil in H as [H1 H2]. split.
  - eapply bits_from_nil_inv, H1.
  - destruct (pending (input s)) as [|b l]; [reflexivity|].
    apply Forall_cons in Hb as [Hb _]. cbn [flat_map] in H2.
    apply app_eq_nil in H2 as [H2 _].
    pose proof (bits_from_length b Hb) as L. rewrite H2 in L. discriminate.
Qed.

Lemma read_bit_cut s :
  input_ok s -> next_bits s = [] ->
  exists s', read_bit s = Exit Err_unexpected_EOF s'.
Proof.
  intros Hok H. destruct (next_bits_nil s Hok H) as [Hb Hp].
  destruct (read_char_eof s Hok Hp) as (i1 & Hr & _).
  unfold read_bit, bind at 1, get at 1. rewrite Hb.
  change (0 =? 0) with true. cbv iota.
  rewrite !bind_assoc. rewrite (bind_Ok_intro _ _ _ _ _ Hr).
  unfold bind, modify, get, ret, errexit.
  change (EOF =? EOF) with true. cbv iota.
  eexists. reflexivity.
Qed.

Lemma read_index_cut k : forall fuel i s,
  input_ok s -> next_bits s = repeat 1 k -> (k < fuel)%nat ->
  exists s', read_index fuel i s = Exit Err_unexpected_EOF s'.
Proof.
  induction k as [|k IH]; intros fuel i s Hok Hbits Hfuel;
    (destruct fuel as [|fuel]; [lia|]); cbn [repeat] in Hbits;
    cbn [read_index].
  - destruct (read_bit_cut s Hok Hbits) as (s' & H).
    exists s'. apply bind_Exit, H.
  - destruct (read_bit_spec _ _ _ Hok Hbits) as (i1 & Hrb & Hnext & Hok1).
    rewrite (bind_Ok_intro _ _ _ _ _ Hrb).
    change (1 =? 0) with false. cbv iota.
    apply IH; auto. lia.
Qed.

Lemma prefix_split {A} (p q a b : list A) :
  p ++ q = a ++ b -> q <> [] ->
  (exists q', q' <> [] /\ a = p ++ q') \/
  (exists p', p = a ++ p' /\ b = p' ++ q).
Proof.
  intros E Hq. apply app_eq_app in E as [l [[-> ->]|[-> ->]]].
  - right. exists l. auto.
  - destruct l as [|x l].
    + right. exists []. rewrite !app_nil_r. auto.
    + left. exists (x :: l). split; [discriminate | reflexivity].
Qed.

Lemma ones_prefix k : forall p q,
  p ++ q = repeat 1 k ++ [0] -> q <> [] ->
  exists j, (j <= k)%nat /\ p = repeat 1 j.
Proof.
  induction k as [|k IH]; intros p q E Hq.
  - destruct p as [|x p].
    + exists 0%nat. auto.
    + simpl in E. injection E as _ E. destruct p; [|discriminate].
      simpl in E. subst q. contradiction.
  - destruct p as [|x p].
    + exists 0%nat. split; [lia | reflexivity].
    + simpl in E. injection E as -> E.
      destruct (IH p q E Hq) as (j & Hj & ->).
      exists (S j). split; [lia | reflexivity].
Qed.

Lemma parse_cut :
  forall T fuel s p q,
    input_ok s -> next_bits s = p -> encode T = p ++ q -> q <> [] ->
    bits T <= Z.of_nat fuel ->
    aligned (free_ptr s) ->
    padd (free_ptr s) (bits T) <= heap_area s ->
    Z.of_nat (length (rd_stack s)) + bits T <= RDSTACK_SIZE ->
    exists s', parse fuel s = Exit Err_unexpected_EOF s'.
Proof.
  unfold bits.
  induction T as [k | f IHf g IHg | b IHb];
    intros fuel s p q Hok Hbits Henc Hq Hfuel Hal Hroom Hstack;
    (destruct fuel as [|fuel]; [simpl in Hfuel; lia|]);
    cbn [encode] in Henc; cbn [parse];
    (destruct p as [|b1 p];
     [destruct (read_bit_cut s Hok Hbits) as (s' & H);
      exists s'; apply bind_Exit, H|]);
    cbn [app] in Henc; injection Henc as <- Henc;
    destruct (read_bit_spec _ _ _ Hok Hbits) as (i1 & Hrb1 & Hnext1 & Hok1);
    rewrite (bind_Ok_intro _ _ _ _ _ Hrb1).
  - change (negb (1 =? 0)) with true. cbv iota.
    destruct (ones_prefix k p q (eq_sym Henc) Hq) as (j & Hj & ->).
    cbn [encode length] in Hfuel. rewrite length_app, repeat_length in Hfuel.
    cbn [length] in Hfuel.
    destruct (read_index_cut j fuel 0 _ Hok1 Hnext1 ltac:(lia)) as (s' & H).
    exists s'. apply bind_Exit, H.
  - change (negb (0 =? 0)) with false. cbv iota.
    destruct p as [|b2 p];
      [destruct (read_bit_cut _ Hok1 Hnext1) as (s' & H);
       exists s'; apply bind_Exit, H|].
    cbn [app] in Henc; injection Henc as <- Henc.
    destruct (read_bit_spec _ _ _ Hok1 Hnext1) as (i2 & Hrb2 & Hnext2 & Hok2).
    rewrite (bind_Ok_intro _ _ _ _ _ Hrb2).
    change (negb (1 =? 0)) with true. cbv iota.
    cbn [encode length] in *. rewrite length_app in *.
    set (s2 := set_input i2 (set_input i1 s)) in *.
    destruct (prefix_split _ _ _ _ (eq_sym Henc) Hq) as [(q' & Hq' & E)|(p' & -> & E)].
    + destruct (IHf fuel s2 p q' Hok2 Hnext2 E Hq') as (s' & H);
        subst s2; regs; try assumption;
        try (unfold padd, PAIR_SIZE in *; lia).
      exists s'. apply bind_Exit, H.
    + destruct (parse_refines f fuel s2 p' Hok2 Hnext2)
        as (c1 & s3 & Hp1 & F1 & Hc1 & W1 & Hfp3 & Hal3 & Hm3 & Hha3 & Hst3
            & Hnext3 & Hok3);
        unfold bits; subst s2; regs; try assumption;
        try (unfold padd, PAIR_SIZE in *; lia).
      rewrite (bind_Ok_intro _ _ _ _ _ Hp1).
      erewrite bind_Ok_intro by (apply rs_push_ok; rewrite Hst3; lia).
      set (s4 := set_rd_stack _ s3).
      destruct (IHg fuel s4 p' q) as (s' & H);
        subst s4; regs; try assumption;
        try (unfold padd, PAIR_SIZE in *; lia).
      all: unfold bits in *;
        try (rewrite Hst3; cbn [length]); try (unfold padd, PAIR_SIZE in *; lia).
      exists s'. apply bind_Exit, H.
  - change (negb (0 =? 0)) with false. cbv iota.
    destruct p as [|b2 p];
      [destruct (read_bit_cut _ Hok1 Hnext1) as (s' & H);
       exists s'; apply bind_Exit, H|].
    cbn [app] in Henc; injection Henc as <- Henc.
    destruct (read_bit_spec _ _ _ Hok1 Hnext1) as (i2 & Hrb2 & Hnext2 & Hok2).
    rewrite (bind_Ok_intro _ _ _ _ _ Hrb2).
    change (negb (0 =? 0)) with false. cbv iota.
    cbn [encode length] in *.
    set (s2 := set_input i2 (set_input i1 s)) in *.
    destruct (IHb fuel s2 p q Hok2 Hnext2 Henc Hq) as (s' & H);
      subst s2; regs; try assumption;
      try (unfold padd, PAIR_SIZE in *; lia).
    exists s'. apply bind_Exit, H.
Qed.

(** ** Storage *)


Section Keeps.

Context (R : state -> state -> Prop) `{!PreOrder R}.

Lemma keeps_ret {A} (a : A) : keeps R (ret a).
Proof. intros s. change (R s s). reflexivity. Qed.

Lemma keeps_get {A} (f : state -> A) : keeps R (get f).
Proof. intros s. change (R s s). reflexivity. Qed.

Lemma keeps_errexit {A} e : keeps R (@errexit A e).
Proof. intros s. change (R s s). reflexivity. Qed.

Lemma keeps_assert b : keeps R (assert b).
Proof. intros s. unfold assert. destruct b; change (R s s); reflexivity. Qed.

Lemma keeps_stuck {A} (r : result A) :
  (r = Undefined \/ r = OutOfFuel) -> keeps R (fun _ => r).
Proof. intros [-> | ->] s; exact I. Qed.

Lemma keeps_modify (f : state -> state) :
  (forall s, R s (f s)) -> keeps R (modify f).
Proof. intros H s. apply H. Qed.

Lemma keeps_bind {A B} (m : M A) (k : A -> M B) :
  keeps R m -> (forall a, keeps R (k a)) -> keeps R (bind m k).
Proof.
  intros Hm Hk s. unfold bind. specialize (Hm s).
  destruct (m s) as [a s1| | | |]; auto.
  specialize (Hk a s1). destruct (k a s1); auto; etransitivity; eauto.
Qed.

Lemma keeps_PUSHED n : keeps R (PUSHED n).
Proof.
  intros s. unfold PUSHED. destruct (rd_stack s !! n); [|exact I].
  change (R s s). reflexivity.
Qed.

Lemma keeps_set_PUSHED n c :
  (forall s, R s (set_rd_stack (fun st => <[n := c]> st) s)) ->
  keeps R (set_PUSHED n c).
Proof. intros H s. unfold set_PUSHED. case_decide; simpl; auto. Qed.

Lemma keeps_DROP n :
  (forall s, (n <= length (rd_stack s))%nat ->
             R s (set_rd_stack (fun st => drop n st) s)) ->
  keeps R (DROP n).
Proof. intros H s. unfold DROP. case_decide; simpl; auto. Qed.

Lemma keeps_rs_push c :
  (forall s, R s (set_rd_stack (fun st => c :: st) s)) ->
  keeps R (rs_push c).
Proof.
  intros H s. unfold rs_push, bind, get, errexit, modify.
  destruct (_ <=? _); [change (R s s); reflexivity | apply H].
Qed.

Lemma keeps_malloc n :
  (forall s p, brk s <= p -> R s (set_brk p s)) -> keeps R (malloc n).
Proof.
  intros H s. unfold malloc.
  destruct (0 <=? n) eqn:E; cbn [andb]; [|change (R s s); reflexivity].
  destruct (brk s + PAIR_SIZE * n <=? WORD); [|change (R s s); reflexivity].
  apply H. apply Z.leb_le in E. unfold PAIR_SIZE. lia.
Qed.

End Keeps.

Ltac keeps_side :=
  intros;
  first [ assumption
        | solve [auto]
        | solve [unfold set_car, set_cdr, SET; auto]
        | solve [repeat split; cbn; rewrite ?length_insert; auto; lia] ].

Ltac keeps_step :=
  lazymatch goal with
  | |- keeps _ (bind _ _) => apply keeps_bind; [assumption | | intros ? ]
  | |- keeps _ (if ?b then _ else _) => destruct b
  | |- keeps _ (match ?x with Some _ => _ | None => _ end) => destruct x
  | |- keeps _ (match ?x with (_, _) => _ end) => destruct x
  | |- keeps _ (match ?x with Return => _ | Continue => _ end) => destruct x
  | |- keeps _ (match ?x with inl _ => _ | inr _ => _ end) => destruct x
  | |- keeps _ (get _) => apply keeps_get; assumption
  | |- keeps _ (ret _) => apply keeps_ret; assumption
  | |- keeps _ (errexit _) => apply keeps_errexit; assumption
  | |- keeps _ (assert _) => apply keeps_assert; assumption
  | |- keeps _ (modify _) => apply keeps_modify; keeps_side
  | |- keeps _ (fun _ => Undefined) => apply keeps_stuck; auto
  | |- keeps _ (fun _ => OutOfFuel) => apply keeps_stuck; auto
  | |- keeps _ TOP => apply keeps_PUSHED; assumption
  | |- keeps _ (PUSHED _) => apply keeps_PUSHED; assumption
  | |- keeps _ (set_PUSHED _ _) => apply keeps_set_PUSHED; keeps_side
  | |- keeps _ (malloc _) => apply keeps_malloc; [assumption | keeps_side]
  | |- keeps _ _ => solve [auto]
  end.

Ltac keeps_auto := repeat keeps_step.

#[local] Instance same_io_preorder : PreOrder same_io.
Proof.
  split.
  - intros s. repeat split.
  - intros s1 s2 s3. unfold same_io. intuition congruence.
Qed.

#[local] Instance sizes_grow_preorder : PreOrder sizes_grow.
Proof.
  split.
  - intros s. unfold sizes_grow. lia.
  - intros s1 s2 s3. unfold sizes_grow. lia.
Qed.

Section CollectorKeeps.

Context (R : state -> state -> Prop) `{!PreOrder R}.
(** What the collector writes: the heap and its registers, and stack
    slots in place. *)
Hypothesis R_mem : forall f s, R s (set_mem f s).
Hypothesis R_free_ptr : forall p s, R s (set_free_ptr p s).
Hypothesis R_heap_area : forall p s, R s (set_heap_area p s).
Hypothesis R_free_area : forall p s, R s (set_free_area p s).
Hypothesis R_brk : forall s p, brk s <= p -> R s (set_brk p s).
Hypothesis R_slot :
  forall n c s, R s (set_rd_stack (fun st => <[n := c]> st) s).
Hypothesis R_heap_size : forall n s, R s (set_heap_size n s).
Hypothesis R_next :
  forall n s, next_heap_size s <= n -> R s (set_next_heap_size n s).

Lemma keeps_skip_I fuel : forall tmp, keeps R (skip_I fuel tmp).
Proof. induction fuel as [|fuel IH]; intros tmp; simpl; keeps_auto. Qed.

Lemma keeps_copy_cell fuel c : keeps R (copy_cell fuel c).
Proof. pose proof (keeps_skip_I fuel). unfold copy_cell. keeps_auto. Qed.

Lemma keeps_rs_copy_loop fuel : forall k, keeps R (rs_copy_loop fuel k).
Proof.
  pose proof (keeps_copy_cell fuel).
  induction k as [|k IH]; simpl; keeps_auto.
Qed.

Lemma keeps_gc_scan fuel : forall scan, keeps R (gc_scan fuel scan).
Proof.
  induction fuel as [|fuel IH]; intros scan; simpl; [keeps_auto|].
  pose proof (keeps_copy_cell fuel). keeps_auto.
Qed.

(** The new sizes: [heap_size] becomes the size of the space just
    filled, and [next_heap_size] changes only to grow. *)
Lemma keeps_resize {A} num (k : M A) :
  keeps R k ->
  keeps R
    (let* hs := get heap_size in
     let* n := get next_heap_size in
     (if negb (hs =? n) || (int32 (num * 8) >? n) then
        modify (set_heap_size n);;
        (if int32 (num * 8) >? n
         then modify (set_next_heap_size (int32 (num * 8)))
         else ret tt);;
        modify (set_free_area None)
      else ret tt);;
     k).
Proof.
  intros Hk s. unfold bind, get, modify, ret.
  destruct (negb (heap_size s =? next_heap_size s)
            || (int32 (num * 8) >? next_heap_size s)); [|apply (Hk s)].
  set (s1 := set_heap_size (next_heap_size s) s).
  assert (R1 : R s s1) by apply R_heap_size.
  change (next_heap_size s) with (next_heap_size s1).
  destruct (int32 (num * 8) >? next_heap_size s1) eqn:E.
  - set (s2 := set_next_heap_size (int32 (num * 8)) s1).
    assert (R2 : R s1 s2) by (apply R_next; apply Z.gtb_gt in E; lia).
    set (s3 := set_free_area None s2).
    assert (R3 : R s s3)
      by (transitivity s1; [exact R1|]; transitivity s2;
          [exact R2 | apply R_free_area]).
    specialize (Hk s3). destruct (k s3); auto; etransitivity; eauto.
  - set (s3 := set_free_area None s1).
    assert (R3 : R s s3) by (transitivity s1; [exact R1 | apply R_free_area]).
    specialize (Hk s3). destruct (k s3); auto; etransitivity; eauto.
Qed.

Lemma keeps_gc_run fuel : forall s1 s2, keeps R (gc_run fuel s1 s2).
Proof.
  induction fuel as [|fuel IH]; intros s1 s2; simpl; [keeps_auto|].
  pose proof (keeps_copy_cell fuel).
  pose proof (keeps_gc_scan fuel).
  pose proof (keeps_rs_copy_loop fuel).
  unfold rs_copy, copy_save.
  repeat lazymatch goal with
         | |- keeps _ (bind (get heap_size) _) => fail
         | |- _ => keeps_step
         end.
  all: apply keeps_resize; keeps_auto.
Qed.

Lemma keeps_pair fuel a b : keeps R (pair fuel a b).
Proof. pose proof (keeps_gc_run fuel). unfold pair. keeps_auto. Qed.

Lemma keeps_alloc fuel n : keeps R (alloc fuel n).
Proof. pose proof (keeps_gc_run fuel). unfold alloc. keeps_auto. Qed.

End CollectorKeeps.

Ltac bind_inv H :=
  let a := fresh "a" in
  let s := fresh "s" in
  let Ha := fresh "Ha" in
  apply bind_Ok in H as (a & s & Ha & H).

Ltac get_inv H :=
  unfold get, ret, modify in H; injection H as ? ?; subst.

Lemma resize_post num hs n s u s' :
  hs = heap_size s -> n = next_heap_size s ->
  (if negb (hs =? n) || (int32 (num * 8) >? n) then
     modify (set_heap_size n);;
     (if int32 (num * 8) >? n
      then modify (set_next_heap_size (int32 (num * 8)))
      else ret tt);;
     modify (set_free_area None)
   else ret tt) s = Ok u s' ->
  heap_size s' <= next_heap_size s' /\
  free_ptr s' = free_ptr s /\ heap_area s' = heap_area s.
Proof.
  intros -> ->. unfold bind, get, modify, ret.
  destruct (heap_size s =? next_heap_size s) eqn:E1; cbn [negb orb];
    destruct (int32 (num * 8) >? next_heap_size s) eqn:E2;
    intros H; injection H as _ <-; cbn;
    try apply Z.gtb_gt in E2; try apply Z.eqb_eq in E1;
    repeat split; lia.
Qed.

Lemma get_Ok {A} (f : state -> A) s a s' :
  get f s = Ok a s' -> a = f s /\ s' = s.
Proof. unfold get. intros H. injection H as <- <-. auto. Qed.

Tactic Notation "bind_open" hyp(H) "as" ident(a) ident(s) ident(Ha) :=
  apply bind_Ok in H as (a & s & Ha & H).

Lemma gc_run_post fuel : forall s1 s2 s r s',
  gc_run fuel s1 s2 s = Ok r s' ->
  free_ptr s' < heap_area s' /\ heap_size s' <= next_heap_size s'.
Proof.
  induction fuel as [|fuel IH]; intros s1 s2 s r s' H; [discriminate|].
  cbn [gc_run] in H.
  do 12 bind_inv H. clear - H IH.
  bind_open H as hs t1 E1. apply get_Ok in E1 as [-> ->].
  bind_open H as n t2 E2. apply get_Ok in E2 as [-> ->].
  bind_open H as u t3 E3.
  apply resize_post in E3 as (Hs & Hf & Ha); try reflexivity.
  bind_open H as fp t4 E4. apply get_Ok in E4 as [-> ->].
  bind_open H as ha t5 E5. apply get_Ok in E5 as [-> ->].
  destruct (Z.geb_spec (free_ptr t3) (heap_area t3)) as [Hge|Hlt].
  - eapply IH, H.
  - unfold ret in H. injection H as _ <-. split; [lia | exact Hs].
Qed.

(** ** Calls that fail no assertion *)

Section Unfailing.

Lemma unfailing_ret {A} (a : A) : unfailing (ret a).
Proof. intros s. exact I. Qed.

Lemma unfailing_get {A} (f : state -> A) : unfailing (get f).
Proof. intros s. exact I. Qed.

Lemma unfailing_modify f : unfailing (modify f).
Proof. intros s. exact I. Qed.

Lemma unfailing_errexit {A} e : unfailing (@errexit A e).
Proof. intros s. exact I. Qed.

Lemma unfailing_stuck {A} (r : result A) :
  (r = Undefined \/ r = OutOfFuel) -> unfailing (fun _ => r).
Proof. intros [-> | ->] s; exact I. Qed.

Lemma unfailing_bind {A B} (m : M A) (k : A -> M B) :
  unfailing m -> (forall a, unfailing (k a)) -> unfailing (bind m k).
Proof.
  intros Hm Hk s. unfold bind. specialize (Hm s).
  destruct (m s) as [a s1| | | |]; auto. apply Hk.
Qed.

Lemma unfailing_PUSHED n : unfailing (PUSHED n).
Proof. intros s. unfold PUSHED. destruct (rd_stack s !! n); exact I. Qed.

Lemma unfailing_set_PUSHED n c : unfailing (set_PUSHED n c).
Proof. intros s. unfold set_PUSHED. case_decide; exact I. Qed.

Lemma unfailing_malloc n : unfailing (malloc n).
Proof. intros s. unfold malloc. destruct (_ && _); exact I. Qed.

End Unfailing.

Ltac unfailing_step :=
  lazymatch goal with
  | |- unfailing (bind _ _) => apply unfailing_bind; [ | intros ? ]
  | |- unfailing (if ?b then _ else _) => destruct b
  | |- unfailing (match ?x with Some _ => _ | None => _ end) => destruct x
  | |- unfailing (match ?x with (_, _) => _ end) => destruct x
  | |- unfailing (get _) => apply unfailing_get
  | |- unfailing (ret _) => apply unfailing_ret
  | |- unfailing (errexit _) => apply unfailing_errexit
  | |- unfailing (modify _) => apply unfailing_modify
  | |- unfailing (fun _ => Undefined) => apply unfailing_stuck; auto
  | |- unfailing (fun _ => OutOfFuel) => apply unfailing_stuck; auto
  | |- unfailing (PUSHED _) => apply unfailing_PUSHED
  | |- unfailing (set_PUSHED _ _) => apply unfailing_set_PUSHED
  | |- unfailing (malloc _) => apply unfailing_malloc
  | |- unfailing _ => solve [auto]
  end.

Ltac unfailing_auto := repeat unfailing_step.

Lemma unfailing_skip_I fuel : forall tmp, unfailing (skip_I fuel tmp).
Proof. induction fuel as [|fuel IH]; intros tmp; simpl; unfailing_auto. Qed.

Lemma unfailing_copy_cell fuel c : unfailing (copy_cell fuel c).
Proof. pose proof (unfailing_skip_I fuel). unfold copy_cell. unfailing_auto. Qed.

Lemma unfailing_rs_copy_loop fuel : forall k, unfailing (rs_copy_loop fuel k).
Proof.
  pose proof (unfailing_copy_cell fuel).
  induction k as [|k IH]; simpl; unfailing_auto.
Qed.

Lemma unfailing_gc_scan fuel : forall scan, unfailing (gc_scan fuel scan).
Proof.
  induction fuel as [|fuel IH]; intros scan; simpl; [unfailing_auto|].
  pose proof (unfailing_copy_cell fuel). unfailing_auto.
Qed.

Lemma unfailing_gc_run fuel : forall s1 s2, unfailing (gc_run fuel s1 s2).
Proof.
  induction fuel as [|fuel IH]; intros s1 s2; simpl; [unfailing_auto|].
  pose proof (unfailing_copy_cell fuel).
  pose proof (unfailing_gc_scan fuel).
  pose proof (unfailing_rs_copy_loop fuel).
  unfold rs_copy, copy_save. unfailing_auto.
Qed.

(** ** The collector *)

Lemma copy_cell_immediate fuel c s :
  ispair c = false -> copy_cell fuel c s = Ok c s.
Proof. intros H. unfold copy_cell. rewrite H. reflexivity. Qed.

Lemma copy_save_immediate fuel a s x t :
  copy_save fuel (Some a) s = Ok x t ->
  (exists a', x = Some a') /\ (ispair a = false -> x = Some a).
Proof.
  unfold copy_save. intros H. bind_open H as r t1 E.
  unfold ret in H. injection H as <- <-. split; [eauto|].
  intros Hp. rewrite (copy_cell_immediate fuel a s Hp) in E.
  injection E as <- _. reflexivity.
Qed.

Lemma gc_run_saves fuel : forall a b s r1 r2 s',
  gc_run fuel (Some a) (Some b) s = Ok (r1, r2) s' ->
  (ispair a = false -> r1 = Some a) /\ (ispair b = false -> r2 = Some b) /\
  is_Some r1 /\ is_Some r2.
Proof.
  induction fuel as [|fuel IH]; intros a b s r1 r2 s' H; [discriminate|].
  cbn [gc_run] in H.
  do 8 bind_inv H.
  bind_open H as x1 t1 E1. bind_open H as x2 t2 E2.
  apply copy_save_immediate in E1 as [[a' ->] Pa].
  apply copy_save_immediate in E2 as [[b' ->] Pb].
  do 7 bind_inv H.
  lazymatch type of H with
  | (if ?c then _ else _) _ = _ => destruct c
  end.
  - apply IH in H as (Pa' & Pb' & I1 & I2). splits; auto.
    + intros Hp. specialize (Pa Hp). injection Pa as ->. auto.
    + intros Hp. specialize (Pb Hp). injection Pb as ->. auto.
  - unfold ret in H. injection H as <- <- _. splits; eauto.
Qed.

(** X10: when [gc_run] returns at least one Pair is free, and the space
    the next collection will copy into is no smaller than the heap in
    use and no smaller than it was planned before. *)
Theorem gc_run_leaves_room (fuel : nat) (save1 save2 : option Cell)
    (s s' : state) (r : option Cell * option Cell) :
  gc_run fuel save1 save2 s = Ok r s' ->
  free_ptr s' < heap_area s' /\
  heap_size s' <= next_heap_size s' /\
  next_heap_size s <= next_heap_size s'.
Proof.
  intros H. destruct (gc_run_post fuel _ _ _ _ _ H) as [H1 H2].
  splits; auto.
  pose proof (keeps_gc_run sizes_grow) as K.
  specialize (K ltac:(keeps_side) ltac:(keeps_side) ltac:(keeps_side)
                ltac:(keeps_side) ltac:(keeps_side) ltac:(keeps_side)
                ltac:(keeps_side) ltac:(keeps_side) fuel save1 save2 s).
  rewrite H in K. apply K.
Qed.

Lemma gc_run_leaves_room_witness :
  match gc_run 9 None None demo_tight with
  | Ok _ s' =>
      free_ptr s' < heap_area s' /\ heap_size s' <= next_heap_size s'
  | _ => False
  end.
Proof.
  destruct (gc_run 9 None None demo_tight) as [r s'| | | |] eqn:E;
    try (vm_compute in E; discriminate).
  destruct (gc_run_leaves_room 9 None None demo_tight s' r E)
    as (H1 & H2 & _).
  split; assumption.
Defined.

(** X11: allocation and collection never touch the input, the output
    or the count of reductions, and leave the number of stack slots as
    it is, however they end. *)
Theorem storage_touches_no_io (fuel : nat) :
  (forall save1 save2, keeps same_io (gc_run fuel save1 save2)) /\
  (forall a b, keeps same_io (pair fuel a b)) /\
  (forall n, keeps same_io (alloc fuel n)).
Proof.
  splits; intros.
  - apply (keeps_gc_run same_io); keeps_side.
  - apply (keeps_pair same_io); keeps_side.
  - apply (keeps_alloc same_io); keeps_side.
Qed.

Lemma pair_after_gc fuel a b s c s' :
  pair fuel a b s = Ok c s' ->
  free_ptr s' = padd c 1 /\ c < heap_area s' /\
  (ispair a = false -> car s' c = a) /\
  (ispair b = false -> cdr s' c = b).
Proof.
  intros H. unfold pair in H.
  bind_open H as fp t1 E1. apply get_Ok in E1 as [-> ->].
  bind_open H as ha t2 E2. apply get_Ok in E2 as [-> ->].
  bind_open H as ab t3 E3.
  assert (Hab : (ispair a = false -> ab.1 = a) /\
                (ispair b = false -> ab.2 = b)).
  { destruct (free_ptr s >=? heap_area s).
    - bind_open E3 as rr t4 E4. destruct rr as [r1 r2].
      apply gc_run_saves in E4 as (Ha & Hb & [a' ->] & [b' ->]).
      unfold ret in E3. injection E3 as <- _. cbn. split; intros Hp.
      + specialize (Ha Hp). congruence.
      + specialize (Hb Hp). congruence.
    - unfold ret in E3. injection E3 as <- _. auto. }
  destruct ab as [a' b']. cbn in Hab.
  bind_open H as fp t4 E4. apply get_Ok in E4 as [-> ->].
  bind_open H as ha t5 E5. apply get_Ok in E5 as [-> ->].
  bind_open H as u t6 E6. unfold assert in E6.
  destruct (Z.ltb_spec (free_ptr t3) (heap_area t3)) as [Hlt|]; [|discriminate].
  injection E6 as _ <-.
  unfold bind, modify, ret in H. injection H as <- <-.
  rewrite cdr_set_cdr_eq, car_set_cdr, car_set_car_eq. cbn.
  destruct Hab. splits; auto.
Qed.

Lemma pair_unfailing fuel a b : unfailing (pair fuel a b).
Proof.
  intros s. unfold pair, bind, get, ret, assert, modify.
  destruct (free_ptr s >=? heap_area s) eqn:E.
  - pose proof (unfailing_gc_run fuel (Some a) (Some b) s) as U.
    destruct (gc_run fuel (Some a) (Some b) s) as [[r1 r2] t| | | |] eqn:G;
      try exact I; [|exact U].
    apply gc_run_post in G as [G _].
    destruct (Z.ltb_spec (free_ptr t) (heap_area t)); [exact I | lia].
  - destruct (Z.ltb_spec (free_ptr s) (heap_area s)); [exact I|].
    destruct (Z.geb_spec (free_ptr s) (heap_area s)); [discriminate | lia].
Qed.

Lemma skip_I_sound fuel : forall tmp s r s',
  skip_I fuel tmp s = Ok r s' ->
  s' = s /\ is_I_pair s r = false /\
  exists n, (n < fuel)%nat /\ I_chain s n tmp r.
Proof.
  induction fuel as [|fuel IH]; intros tmp s r s' H; [discriminate|].
  cbn [skip_I] in H. unfold bind at 1, get at 1 in H.
  destruct (ispair tmp && (car s tmp =? COMB_I)) eqn:E.
  - unfold bind at 1, get at 1 in H.
    apply IH in H as (-> & Hr & n & Hn & Hc).
    splits; auto. exists (S n). split; [lia|].
    apply andb_true_iff in E as [E1 E2]. apply Z.eqb_eq in E2.
    apply I_chain_step; assumption.
  - unfold ret in H. injection H as <- <-.
    splits; auto. exists 0%nat. split; [lia | constructor].
Qed.

Lemma skip_I_complete s n : forall tmp r fuel,
  I_chain s n tmp r -> is_I_pair s r = false -> (n < fuel)%nat ->
  skip_I fuel tmp s = Ok r s.
Proof.
  induction n as [|n IH]; intros tmp r fuel Hc Hr Hf;
    (destruct fuel as [|fuel]; [lia|]); inversion Hc; subst;
    cbn [skip_I]; unfold bind at 1, get at 1.
  - unfold is_I_pair in Hr. rewrite Hr. reflexivity.
  - match goal with
    | H1 : ispair tmp = true, H2 : car s tmp = COMB_I |- _ =>
        rewrite H1, H2
    end.
    change (true && (COMB_I =? COMB_I)) with true. cbv iota.
    unfold bind at 1, get at 1. apply IH; auto. lia.
Qed.

(** X13: [copy_cell]'s inner loop returns the first cell on the chain of
    [cdr]s that is not a Pair with [I] for its [car], and changes
    nothing; it finds it whenever the chain is shorter than the fuel of
    the model. *)
Theorem skip_I_finds_the_end (fuel : nat) (tmp r : Cell) (s : state) :
  (forall s',
     skip_I fuel tmp s = Ok r s' ->
     s' = s /\ is_I_pair s r = false /\
     exists n, (n < fuel)%nat /\ I_chain s n tmp r) /\
  (forall n,
     I_chain s n tmp r -> is_I_pair s r = false -> (n < fuel)%nat ->
     skip_I fuel tmp s = Ok r s).
Proof.
  split.
  - intros s'. apply skip_I_sound.
  - intros n. apply skip_I_complete.
Qed.

Lemma skip_I_finds_the_end_witness :
  skip_I 3 4104 demo_chain = Ok COMB_K demo_chain.
Proof.
  apply (proj2 (skip_I_finds_the_end 3 4104 COMB_K demo_chain) 2%nat).
  - apply I_chain_step; [reflexivity | reflexivity |].
    apply I_chain_step; [reflexivity | reflexivity |].
    apply I_chain_end.
  - reflexivity.
  - lia.
Defined.

(** X14: a cell [copy_cell] has copied is forwarded: a second call
    returns the same copy and changes nothing.  For a Pair not yet
    copied the copy is the Pair at the allocation pointer, and the
    original is left with [COPIED] and the address of the copy. *)
Theorem copy_cell_forwards (fuel fuel2 : nat) (c r : Cell) (s s' : state) :
  copy_cell fuel c s = Ok r s' ->
  copy_cell fuel2 c s' = Ok r s' /\
  (ispair c = false -> r = c /\ s' = s) /\
  (ispair c = true -> car s c <> COPIED ->
     r = free_ptr s /\ free_ptr s' = padd (free_ptr s) 1 /\
     car s' c = COPIED /\ cdr s' c = r).
Proof.
  intros H. unfold copy_cell in H |- *.
  destruct (ispair c) eqn:Hp; cbn [negb] in *.
  2: { unfold ret in H. injection H as <- <-. splits; auto. discriminate. }
  unfold bind at 1, get at 1 in H.
  destruct (Z.eqb_spec (car s c) COPIED) as [Hc|Hc].
  - unfold get in H. injection H as <- <-.
    unfold bind at 1, get at 1. rewrite Hc. cbn.
    splits; [reflexivity | discriminate | contradiction].
  - bind_open H as fp t1 E1. apply get_Ok in E1 as [-> ->].
    bind_open H as u1 t2 E2. unfold modify in E2. injection E2 as _ <-.
    bind_open H as u2 t3 E3. unfold modify in E3. injection E3 as _ <-.
    bind_open H as a' t4 E4. apply get_Ok in E4 as [-> ->].
    bind_open H as u3 t5 E5.
    assert (Hfp : free_ptr t5 = padd (free_ptr s) 1).
    { lazymatch type of E5 with
      | (if ?b then _ else _) _ = _ => destruct b
      end.
      - bind_open E5 as tmp t6 E6. apply get_Ok in E6 as [-> ->].
        bind_open E5 as tmp' t7 E7. apply skip_I_sound in E7 as (-> & _).
        unfold modify in E5. injection E5 as _ <-. reflexivity.
      - bind_open E5 as d t6 E6. apply get_Ok in E6 as [-> ->].
        unfold modify in E5. injection E5 as _ <-. reflexivity. }
    unfold bind, modify, ret in H. injection H as <- <-.
    assert (C1 : car (set_cdr c (free_ptr s) (set_car c COPIED t5)) c = COPIED)
      by (rewrite car_set_cdr, car_set_car_eq; reflexivity).
    assert (C2 : cdr (set_cdr c (free_ptr s) (set_car c COPIED t5)) c
                 = free_ptr s) by apply cdr_set_cdr_eq.
    splits; auto; try discriminate.
    unfold bind at 1, get at 1. rewrite C1. cbn. unfold get. rewrite C2.
    reflexivity.
Qed.

Lemma copy_cell_forwards_witness :
  match copy_cell 3 4104 demo_chain with
  | Ok r s' => copy_cell 0 4104 s' = Ok r s'
  | _ => False
  end.
Proof.
  destruct (copy_cell 3 4104 demo_chain) as [r s'| | | |] eqn:E;
    try (vm_compute in E; discriminate).
  apply (copy_cell_forwards 3 0 4104 r demo_chain s' E).
Defined.


(** ** The rules of the reducer *)

Section Reads.

Lemma reads_functional s c t : reads s c t -> forall t', reads s c t' -> t = t'.
Proof.
  induction 1 as [c Hc | c L R Hc HL IHL HR IHR]; intros t' H'; inversion H'; subst;
    try congruence.
  f_equal; auto.
Qed.

Lemma reads_update s s' c t :
  reads s c t ->
  (forall a, reach s c a -> car s' a = car s a /\ cdr s' a = cdr s a) ->
  reads s' c t.
Proof.
  induction 1 as [c Hc | c L R Hc HL IHL HR IHR]; intros Hsame.
  - apply reads_Leaf, Hc.
  - destruct (Hsame c (reach_here s c Hc)) as [Ea Ed].
    apply reads_Node; [exact Hc | rewrite Ea | rewrite Ed].
    + apply IHL. intros a Ha. apply Hsame, reach_car; assumption.
    + apply IHR. intros a Ha. apply Hsame, reach_cdr; assumption.
Qed.

Lemma reach_update s s' c a :
  reach s' c a ->
  (forall a, reach s c a -> car s' a = car s a /\ cdr s' a = cdr s a) ->
  reach s c a.
Proof.
  induction 1 as [c Hc | c a Hc Ha IH | c a Hc Ha IH]; intros Hsame.
  - apply reach_here, Hc.
  - destruct (Hsame c (reach_here s c Hc)) as [Ea Ed].
    apply reach_car; [exact Hc|]. rewrite <- Ea. apply IH.
    intros b Hb. apply Hsame, reach_car; [exact Hc|]. rewrite <- Ea. exact Hb.
  - destruct (Hsame c (reach_here s c Hc)) as [Ea Ed].
    apply reach_cdr; [exact Hc|]. rewrite <- Ed. apply IH.
    intros b Hb. apply Hsame, reach_cdr; [exact Hc|]. rewrite <- Ed. exact Hb.
Qed.

Lemma reach_reads s c t a :
  reads s c t -> reach s c a ->
  exists t', reads s a t' /\ size t' <= size t.
Proof.
  intros H. revert a.
  induction H as [c Hc | c L R Hc HL IHL HR IHR]; intros a Ha.
  - inversion Ha; congruence.
  - pose proof (size_pos L). pose proof (size_pos R).
    inversion Ha; subst.
    + exists (Node L R). split; [apply reads_Node; assumption | lia].
    + destruct (IHL a) as (t' & Ht' & Hs); [assumption|].
      exists t'. split; [exact Ht'|]. cbn [size]. lia.
    + destruct (IHR a) as (t' & Ht' & Hs); [assumption|].
      exists t'. split; [exact Ht'|]. cbn [size]. lia.
Qed.

(** A Pair is not reached from one it reads a proper part of. *)
Lemma reach_acyclic s c t x tx :
  reads s c t -> reads s x tx -> size tx < size t -> ~ reach s x c.
Proof.
  intros Hc Hx Hs Hr.
  destruct (reach_reads s x tx c Hx Hr) as (t' & Ht' & Hs').
  rewrite (reads_functional s c t Hc t' Ht') in Hs. lia.
Qed.

End Reads.

Section Running.

Lemma bind_get {A B} (f : state -> A) (k : A -> M B) s :
  bind (get f) k s = k (f s) s.
Proof. reflexivity. Qed.

Lemma bind_modify {B} (f : state -> state) (k : unit -> M B) s :
  bind (modify f) k s = k tt (f s).
Proof. reflexivity. Qed.

Lemma bind_ret {A B} (a : A) (k : A -> M B) s : bind (ret a) k s = k a s.
Proof. reflexivity. Qed.

Lemma ARG_ok n c s : rd_stack s !! n = Some c -> ARG n s = Ok (cdr s c) s.
Proof.
  intros H. unfold ARG. rewrite (bind_Ok_intro _ _ _ _ _ (PUSHED_ok n c s H)).
  reflexivity.
Qed.

Lemma SETM_ok c (x y : M Cell) a b s :
  x s = Ok a s -> y (set_car c a s) = Ok b (set_car c a s) ->
  SETM c x y s = Ok tt (SET c a b s).
Proof.
  intros Hx Hy. unfold SETM.
  rewrite (bind_Ok_intro _ _ _ _ _ Hx), bind_modify.
  rewrite (bind_Ok_intro _ _ _ _ _ Hy). unfold modify. f_equal.
  unfold SET, set_cdr, set_car, set_mem, car. cbn.
  rewrite lookup_insert_eq. cbn. rewrite insert_insert_eq. reflexivity.
Qed.

Lemma car_set_free_ptr p s c : car (set_free_ptr p s) c = car s c.
Proof. reflexivity. Qed.
Lemma cdr_set_free_ptr p s c : cdr (set_free_ptr p s) c = cdr s c.
Proof. reflexivity. Qed.

Lemma spine_set_rd_stack f s k : forall c l,
  spine (set_rd_stack f s) k c l = spine s k c l.
Proof. induction k as [|k IH]; intros c l; cbn [spine]; [reflexivity | apply IH]. Qed.

Lemma is_spine_set_rd_stack f s k : forall c,
  is_spine (set_rd_stack f s) k c <-> is_spine s k c.
Proof.
  induction k as [|k IH]; intros c; cbn [is_spine]; [reflexivity|].
  rewrite IH. reflexivity.
Qed.

Lemma unspine_spine k : forall fuel s c rest,
  rd_stack s = c :: rest -> is_spine s k c -> (k < fuel)%nat ->
  Z.of_nat (length (rd_stack s)) + Z.of_nat k <= RDSTACK_SIZE ->
  unspine fuel s = Ok tt (set_rd_stack (fun _ => spine s k c rest) s).
Proof.
  induction k as [|k IH]; intros fuel s c rest Hst Hsp Hf Hroom;
    (destruct fuel as [|fuel]; [lia|]); cbn [is_spine spine] in *.
  - rewrite (unspine_stop fuel s c rest Hst Hsp). f_equal.
    destruct s; cbn in *. subst. reflexivity.
  - destruct Hsp as [Hp Hsp].
    rewrite (unspine_push fuel s c rest Hst Hp) by lia.
    set (s1 := set_rd_stack (fun st => car s c :: st) s).
    assert (Hst1 : rd_stack s1 = car s c :: c :: rest)
      by (subst s1; regs; rewrite Hst; reflexivity).
    rewrite (IH fuel s1 (car s c) (c :: rest) Hst1).
    + subst s1. rewrite spine_set_rd_stack. reflexivity.
    + subst s1. apply is_spine_set_rd_stack, Hsp.
    + lia.
    + rewrite Hst1. rewrite Hst in Hroom. cbn [length] in *. lia.
Qed.

End Running.

Lemma reads_Node_inv s c L R :
  reads s c (Node L R) ->
  ispair c = true /\ reads s (car s c) L /\ reads s (cdr s c) R.
Proof. inversion 1; auto. Qed.

Lemma reads_Leaf_inv s c k : reads s c (Leaf k) -> c = k /\ ispair k = false.
Proof. inversion 1; subst; auto. Qed.

(** Decides the tests on the head of the spine. *)
Ltac pick_rule :=
  repeat match goal with
  | |- context [?a =? ?b] =>
      let v := eval vm_compute in (a =? b) in
      lazymatch v with
      | true => change (a =? b) with true
      | false => change (a =? b) with false
      end
  end;
  cbn [andb].

Ltac arith := regs; cbn [length] in *; unfold padd, PAIR_SIZE in *; lia.

Ltac exec1 :=
  first
  [ rewrite bind_get | rewrite bind_modify | rewrite bind_ret
  | erewrite bind_Ok_intro by (apply PUSHED_ok; regs; reflexivity)
  | erewrite bind_Ok_intro by (apply ARG_ok; regs; reflexivity)
  | erewrite bind_Ok_intro by (apply alloc_bump; arith)
  | erewrite bind_Ok_intro by (apply pair_bump; arith)
  | erewrite bind_Ok_intro
      by (apply SETM_ok;
          [ first [apply ARG_ok; regs; reflexivity | reflexivity]
          | first [apply ARG_ok; regs; reflexivity | reflexivity] ])
  | erewrite bind_Ok_intro by (apply DROP_ok; arith)
  | erewrite bind_Ok_intro by (eapply POP_ok; regs; reflexivity)
  | erewrite bind_Ok_intro by (eapply set_TOP_ok; regs; reflexivity) ].

Ltac exec := unfold TOP; repeat exec1.

(** Reads and writes of cells whose addresses are told apart by
    arithmetic. *)
Ltac cell_rw :=
  repeat first
    [ rewrite car_set_rd_stack | rewrite cdr_set_rd_stack
    | rewrite car_set_free_ptr | rewrite cdr_set_free_ptr
    | rewrite car_set_cdr | rewrite cdr_set_car
    | rewrite car_set_car_eq | rewrite cdr_set_cdr_eq
    | rewrite car_SET_eq | rewrite cdr_SET_eq
    | rewrite car_bump_at by (regs; reflexivity)
    | rewrite cdr_bump_at by (regs; reflexivity)
    | rewrite car_set_car_ne by arith
    | rewrite cdr_set_cdr_ne by arith
    | rewrite car_SET_ne by arith
    | rewrite cdr_SET_ne by arith
    | rewrite car_bump_ne by arith
    | rewrite cdr_bump_ne by arith ].

Lemma padd_0 p : padd p 0 = p.
Proof. unfold padd. lia. Qed.

Ltac cells := regs; rewrite ?padd_0; cell_rw; try reflexivity.

Lemma unfolds_Leaf s c : ispair c = false -> unfolds s c (Leaf c).
Proof.
  intros H. split; [apply reads_Leaf, H|].
  intros a Ha. inversion Ha; congruence.
Qed.

Lemma unfolds_Node s c L R :
  ispair c = true -> c < free_ptr s ->
  unfolds s (car s c) L -> unfolds s (cdr s c) R ->
  unfolds s c (Node L R).
Proof.
  intros Hp Hb [HL AL] [HR AR]. split; [apply reads_Node; assumption|].
  intros a Ha. inversion Ha; subst; auto.
Qed.

Lemma unfolds_Node_inv s c L R :
  unfolds s c (Node L R) ->
  ispair c = true /\ c < free_ptr s /\
  unfolds s (car s c) L /\ unfolds s (cdr s c) R.
Proof.
  intros [H A]. destruct (reads_Node_inv _ _ _ _ H) as (Hp & HL & HR).
  splits; auto.
  - apply A, reach_here, Hp.
  - split; [exact HL|]. intros a Ha. apply A, reach_car; assumption.
  - split; [exact HR|]. intros a Ha. apply A, reach_cdr; assumption.
Qed.

Lemma unfolds_Leaf_inv s c k : unfolds s c (Leaf k) -> c = k /\ ispair k = false.
Proof. intros [H _]. exact (reads_Leaf_inv _ _ _ H). Qed.

(** A part of the tree at [R] still reads the same after writes to [R]
    and to fresh Pairs. *)
Lemma unfolds_part s s' R t x tx :
  unfolds s R t -> unfolds s x tx -> size tx < size t ->
  (forall c, c < free_ptr s -> c <> R ->
             car s' c = car s c /\ cdr s' c = cdr s c) ->
  free_ptr s <= free_ptr s' ->
  unfolds s' x tx.
Proof.
  intros [HR _] [Hx Ha] Hs Hf Hfp.
  assert (G : forall a, reach s x a ->
                car s' a = car s a /\ cdr s' a = cdr s a).
  { intros a Hr. apply Hf; [apply Ha, Hr|].
    intros ->. exact (reach_acyclic s R t x tx HR Hx Hs Hr). }
  split.
  - apply (reads_update s s' x tx Hx G).
  - intros a Hr. pose proof (reach_update s s' x a Hr G) as Hr'.
    specialize (Ha a Hr'). lia.
Qed.

Lemma ispair_mkchar n : ispair (mkchar n) = false.
Proof.
  unfold ispair, mkchar, CELL, WORD. rewrite TAG_mod, Z.shiftl_mul_pow2 by lia.
  apply Z.eqb_neq.
  rewrite Z.mod_mod_divide by (exists (2 ^ 30); reflexivity).
  replace (n * 2 ^ 3 + 3) with (3 + (n * 2) * 4) by lia.
  rewrite Z.mod_add by lia. discriminate.
Qed.

(** Takes the redex at the root apart, along its spine. *)
Ltac open_unfolds H Hh :=
  lazymatch type of H with
  | unfolds ?s ?c (Node ?L ?R) =>
      let P := fresh "P" in
      let B := fresh "B" in
      let Hl := fresh "Hl" in
      let Hr := fresh "Ha" in
      destruct (unfolds_Node_inv _ _ _ _ H) as (P & B & Hl & Hr);
      open_unfolds Hl Hh
  | unfolds ?s ?c (Leaf ?k) =>
      let P := fresh "P" in
      destruct (unfolds_Leaf_inv _ _ _ H) as (Hh & P)
  | _ => idtac
  end.

Ltac sizes :=
  repeat match goal with
  | t : tree |- _ =>
      lazymatch goal with
      | _ : 0 < size t |- _ => fail
      | _ => pose proof (size_pos t)
      end
  end;
  cbn [size] in *; lia.

(** Carries the parts of the redex over to the state after the turn. *)
Ltac carry Hroot s' Fr Hfp :=
  repeat match goal with
  | H : unfolds ?s ?x ?tx |- _ =>
      lazymatch s with
      | s' => fail
      | _ =>
          lazymatch tx with
          | Node _ _ => fail
          | Leaf _ => fail
          | _ =>
              let G := fresh "G" in
              assert (G : unfolds s' x tx)
                by (apply (unfolds_part _ _ _ _ _ _ Hroot H);
                    [sizes | exact Fr | exact Hfp]);
              clear H
          end
      end
  end.

Ltac build :=
  lazymatch goal with
  | |- unfolds _ _ (Node _ _) =>
      first
        [ eassumption
        | apply unfolds_Node;
          [ first [assumption | apply aligned_ispair; auto using aligned_padd]
          | arith
          | cells; build
          | cells; build ] ]
  | |- unfolds _ _ (Leaf _) =>
      first [ eassumption
            | apply unfolds_Leaf;
              first [assumption | reflexivity | apply ispair_mkchar] ]
  | |- unfolds _ _ _ => eassumption
  end.

Lemma ischar_neq c k : ischar c = true -> ischar k = false -> (c =? k) = false.
Proof. intros Hc Hk. apply Z.eqb_neq. intros ->. congruence. Qed.

Lemma ischar_not_pair c : ischar c = true -> ispair c = false.
Proof.
  unfold ischar, ispair. intros H. apply Z.eqb_eq in H.
  destruct (tags_mod8 c) as (-> & E & _). rewrite E in H. rewrite H.
  reflexivity.
Qed.

(** One turn on a redex whose spine has [k] Pairs. *)
Ltac turn_start k Hst Hr :=
  let Hroot := fresh "Hroot" in
  let Hh := fresh "Hhead" in
  pose proof Hr as Hroot; open_unfolds Hr Hh;
  erewrite bind_Ok_intro;
  [ | apply (unspine_spine k _ _ _ _ Hst); [ | lia | lia];
      cbn [is_spine]; rewrite ?Hh; auto using ischar_not_pair ];
  cbn [spine]; rewrite ?Hh;
  unfold reduce; exec.

Ltac turn_finish s R Hroot :=
  eexists _, _; split; [reflexivity|]; split; [regs; reflexivity|];
  split; [ | split; [ regs; auto using aligned_padd
                    | split; regs; reflexivity ] ];
  cells;
  lazymatch goal with
  | |- unfolds ?S _ _ =>
      let Fr := fresh "Fr" in
      let Hfp := fresh "Hfp" in
      assert (Fr : forall c, c < free_ptr s -> c <> R ->
                     car S c = car s c /\ cdr S c = cdr s c)
        by (intros ? ? ?; split; cells);
      assert (Hfp : free_ptr s <= free_ptr S) by arith;
      carry Hroot S Fr Hfp;
      clear Fr; build
  end.

Ltac turn_tac k Hst Hr s R :=
  turn_start k Hst Hr; pick_rule;
  rewrite sp_depth by (unfold sp in *; rewrite Hst in *; arith);
  exec;
  lazymatch goal with Hroot : unfolds s R _ |- _ => turn_finish s R Hroot end.

Lemma unfolds_check_sound s t : forall c,
  unfolds_check s c t = true -> unfolds s c t.
Proof.
  induction t as [k | l IHl r IHr]; intros c H; cbn [unfolds_check] in H.
  - apply andb_true_iff in H as [E P]. apply Z.eqb_eq in E. subst k.
    apply unfolds_Leaf. apply negb_true_iff, P.
  - apply andb_true_iff in H as [H Hr]. apply andb_true_iff in H as [H Hl].
    apply andb_true_iff in H as [P B]. apply Z.ltb_lt in B.
    apply unfolds_Node; auto.
Qed.

(** X15: one turn of the loop of [eval] on a redex carries out the rule
    of its head: for [I], [S], [K], [B], [C], [S'], [B*], [C'], [IOTA],
    [KI], [CONS], [WRITE] and the characters, the top of the stack reads
    the contracted term afterwards, the arguments are shared and not
    copied, and input and output are not touched. *)
Theorem turn_contracts (fuel : nat) (ev : Cell -> M unit) (bottom : Z)
    (s : state) (R : Cell) (rest : list Cell) (t t' : tree) :
  contracts t t' ->
  rd_stack s = R :: rest ->
  bottom - sp s > 0 ->
  Z.of_nat (length (rd_stack s)) + 4 <= RDSTACK_SIZE ->
  (5 <= fuel)%nat ->
  aligned (free_ptr s) ->
  padd (free_ptr s) 3 <= heap_area s ->
  unfolds s R t ->
  exists c s',
    (unspine fuel;; reduce fuel ev bottom) s = Ok Continue s' /\
    rd_stack s' = c :: rest /\
    unfolds s' c t' /\
    aligned (free_ptr s') /\
    input s' = input s /\ output s' = output s.
Proof.
  intros Hc Hst Hd Hroom Hfuel Hal Hheap Hr.
  destruct Hc.
  - turn_start 1%nat Hst Hr; pick_rule;
    rewrite sp_depth by (unfold sp in *; rewrite Hst in *; arith);
    exec.
    turn_finish s R Hroot.
  - turn_tac 3%nat Hst Hr s R.
  - turn_tac 2%nat Hst Hr s R.
  - turn_tac 3%nat Hst Hr s R.
  - turn_tac 3%nat Hst Hr s R.
  - turn_tac 4%nat Hst Hr s R.
  - turn_tac 4%nat Hst Hr s R.
  - turn_tac 4%nat Hst Hr s R.
  - turn_tac 1%nat Hst Hr s R.
  - turn_tac 2%nat Hst Hr s R.
  - turn_tac 3%nat Hst Hr s R.
  - turn_tac 1%nat Hst Hr s R.
  - turn_start 2%nat Hst Hr.
    repeat rewrite (ischar_neq c _ H) by reflexivity. cbn [andb].
    rewrite H, sp_depth by (unfold sp in *; rewrite Hst in *; arith).
    cbn [andb]. unfold reduce_char.
    destruct (Z.leb_spec (charof c) 0) as [_|]; [|lia].
    exec.
    lazymatch goal with Hroot : unfolds s R _ |- _ => turn_finish s R Hroot end.
  - turn_start 2%nat Hst Hr.
    repeat rewrite (ischar_neq c _ H) by reflexivity. cbn [andb].
    rewrite H, sp_depth by (unfold sp in *; rewrite Hst in *; arith).
    cbn [andb]. unfold reduce_char.
    destruct (Z.leb_spec (charof c) 0) as [|_]; [lia|].
    exec.
    lazymatch goal with Hroot : unfolds s R _ |- _ => turn_finish s R Hroot end.
Qed.

Lemma turn_contracts_witness :
  exists c s',
    (unspine 8;; reduce 8 (eval 8) RDSTACK_SIZE) demo_redex = Ok Continue s' /\
    rd_stack s' = [c] /\
    unfolds s' c
      (Leaf COMB_K · (Leaf COMB_K · Leaf COMB_I)
         · (Leaf COMB_K · (Leaf COMB_K · Leaf COMB_I))) /\
    aligned (free_ptr s') /\
    input s' = input demo_redex /\ output s' = output demo_redex.
Proof.
  apply (turn_contracts 8 (eval 8) RDSTACK_SIZE demo_redex 4120 []
           (Leaf COMB_S · Leaf COMB_K · Leaf COMB_K
              · (Leaf COMB_K · Leaf COMB_I))).
  - apply contracts_S.
  - reflexivity.
  - vm_compute. reflexivity.
  - vm_compute. discriminate.
  - lia.
  - vm_compute. reflexivity.
  - vm_compute. discriminate.
  - apply unfolds_check_sound. vm_compute. reflexivity.
Defined.

Lemma arity_bound top n depth :
  (forall k, arity top = Some k -> depth <= k) ->
  arity top = Some n -> (depth >? n) = false.
Proof.
  intros H E. specialize (H n E).
  destruct (Z.gtb_spec depth n); [lia | reflexivity].
Qed.

Lemma isint_neq c k : isint c = true -> isint k = false -> (c =? k) = false.
Proof. intros Hc Hk. apply Z.eqb_neq. intros ->. congruence. Qed.

Lemma arity_char c : ischar c = true -> arity c = Some 2.
Proof.
  intros H. unfold arity.
  repeat rewrite (ischar_neq c _ H) by reflexivity. rewrite H. reflexivity.
Qed.

Lemma arity_int c : isint c = true -> ischar c = false -> arity c = Some 1.
Proof.
  intros H Hc. unfold arity.
  repeat rewrite (isint_neq c _ H) by reflexivity. rewrite Hc, H. reflexivity.
Qed.

Lemma reduce_returns (fuel : nat) (ev : Cell -> M unit) (bottom : Z)
    (s : state) (top : Cell) (rest : list Cell) :
  rd_stack s = top :: rest ->
  (forall n, arity top = Some n -> bottom - sp s <= n) ->
  reduce fuel ev bottom s = Ok Return s.
Proof.
  intros Hst Har. unfold reduce, TOP.
  rewrite (bind_Ok_intro _ _ _ _ _
             (PUSHED_ok 0 top s ltac:(rewrite Hst; reflexivity))).
  rewrite bind_get.
  repeat match goal with
  | |- context [(top =? ?k) && _] =>
      destruct (Z.eqb_spec top k) as [E|_];
      [ rewrite (arity_bound top _ _ Har)
          by (rewrite E; reflexivity);
        subst top; reflexivity
      | cbn [andb] ]
  end.
  destruct (top =? COMB_RETURN); [reflexivity|].
  destruct (ischar top) eqn:Hc.
  - rewrite (arity_bound top 2 _ Har (arity_char top Hc)). cbn [andb].
    destruct (isint top) eqn:Hi; [|reflexivity].
    exfalso. unfold ischar, isint in *.
    apply Z.eqb_eq in Hc, Hi.
    destruct (tags_mod8 top) as (T & L & _). rewrite T in Hi. rewrite L in Hc.
    rewrite Hc in Hi. discriminate.
  - cbn [andb]. destruct (isint top) eqn:Hi; [|reflexivity].
    rewrite (arity_bound top 1 _ Har (arity_int top Hi Hc)). reflexivity.
Qed.

(** X16: a head that lacks arguments ends the loop of [eval]: when the
    stack of the evaluator holds no more cells than the rule of the head
    takes arguments, [reduce] asks for the return and changes nothing;
    the term is in head normal form. *)
Theorem reduce_stops (fuel : nat) (ev : Cell -> M unit) (bottom : Z)
    (s : state) (top : Cell) (rest : list Cell) :
  rd_stack s = top :: rest ->
  (forall n, arity top = Some n -> bottom - sp s <= n) ->
  reduce fuel ev bottom s = Ok Return s.
Proof.
  intros Hst Har.
  exact (reduce_returns fuel ev bottom s top rest Hst Har).
Qed.

Lemma reduce_stops_witness :
  reduce 8 (eval 8) RDSTACK_SIZE demo_partial = Ok Return demo_partial.
Proof.
  apply (reduce_stops 8 (eval 8) RDSTACK_SIZE demo_partial COMB_S
           [4096; 4104]).
  - reflexivity.
  - intros n H. injection H as <-. vm_compute. discriminate.
Defined.

Lemma is_K_Some t x : is_K t = Some x -> t = Leaf COMB_K · x.
Proof.
  destruct t as [|[c|] r]; try discriminate. cbn.
  destruct (Z.eqb_spec c COMB_K) as [->|]; [|discriminate].
  intros [= ->]. reflexivity.
Qed.

Lemma is_B_Some t x y : is_B t = Some (x, y) -> t = Leaf COMB_B · x · y.
Proof.
  destruct t as [|[|[c|] l] r]; try discriminate. cbn.
  destruct (Z.eqb_spec c COMB_B) as [->|]; [|discriminate].
  intros [= -> ->]. reflexivity.
Qed.

Lemma is_I_true t : is_I t = true -> t = Leaf COMB_I.
Proof.
  destruct t as [c|]; [|discriminate]. cbn.
  intros H. apply Z.eqb_eq in H. subst. reflexivity.
Qed.

Lemma converts_left f f' x : converts f f' -> converts (f · x) (f' · x).
Proof. intros H. apply converts_app; [exact H | apply converts_refl]. Qed.

Lemma converts_right f x x' : converts x x' -> converts (f · x) (f · x').
Proof. intros H. apply converts_app; [apply converts_refl | exact H]. Qed.

Create HintDb rules.
#[local] Hint Constructors contracts : rules.
#[local] Hint Resolve converts_refl converts_rule converts_left
  converts_right converts_app : rules.

(** Every row of the table is the [S] of its operands, applied. *)
Lemma peephole_sound f g X :
  converts (peephole_spec f g · X) (f · X · (g · X)).
Proof.
  unfold peephole_spec.
  destruct (is_K f) as [x|] eqn:Kf.
  - apply is_K_Some in Kf. subst f.
    assert (Hx : converts (Leaf COMB_K · x · X) x) by auto with rules.
    destruct (is_I g) eqn:Ig.
    + apply is_I_true in Ig. subst g.
      apply converts_sym, converts_app; auto with rules.
    + destruct (is_K g) as [y|] eqn:Kg.
      * apply is_K_Some in Kg. subst g. unfold K_.
        eapply converts_trans; [apply converts_rule; constructor|].
        apply converts_sym, converts_app; auto with rules.
      * destruct (is_B g) as [[y z]|] eqn:Bg.
        -- apply is_B_Some in Bg. subst g. unfold BS_.
           eapply converts_trans; [apply converts_rule; constructor|].
           apply converts_sym, converts_app; auto with rules.
        -- unfold B_.
           eapply converts_trans; [apply converts_rule; constructor|].
           apply converts_sym, converts_left. exact Hx.
  - destruct (is_K g) as [y|] eqn:Kg.
    + apply is_K_Some in Kg. subst g.
      assert (Hy : converts (Leaf COMB_K · y · X) y) by auto with rules.
      destruct (is_B f) as [[x z]|] eqn:Bf.
      * apply is_B_Some in Bf. subst f. unfold CP_.
        eapply converts_trans; [apply converts_rule; constructor|].
        apply converts_sym, converts_app; auto with rules.
      * unfold C_.
        eapply converts_trans; [apply converts_rule; constructor|].
        apply converts_sym, converts_right. exact Hy.
    + destruct (is_B f) as [[x y]|] eqn:Bf.
      * apply is_B_Some in Bf. subst f. unfold SP_.
        eapply converts_trans; [apply converts_rule; constructor|].
        apply converts_sym, converts_left. auto with rules.
      * unfold S_. auto with rules.
Qed.

Lemma unabstract_spec_sound T X :
  converts (unabstract_spec T · X) (instantiate X T).
Proof.
  induction T as [c | f IHf g IHg]; cbn [unabstract_spec instantiate].
  - destruct (isint c).
    + destruct (c =? mkint 0); unfold K_; auto with rules.
    + unfold K_; auto with rules.
  - eapply converts_trans; [apply peephole_sound|].
    apply converts_app; assumption.
Qed.

Lemma reduce_at_INC fuel ev bottom s rest :
  rd_stack s = COMB_INC :: rest -> bottom - sp s > 1 ->
  reduce fuel ev bottom s = reduce_INC ev s.
Proof.
  intros Hst Hd. unfold reduce.
  rewrite (bind_Ok_intro _ _ _ _ _
             (PUSHED_ok 0 COMB_INC s ltac:(rewrite Hst; reflexivity))).
  cbn [bind get].
  rewrite (sp_depth _ _ _ Hd).
  reflexivity.
Qed.

(** X18: the rule for [INC].  [INC x] evaluates [x] by a nested [eval]
    on a stack one slot shorter; if what that leaves on top is not an
    Int the process exits with the message on the output format;
    otherwise the Pair of the redex becomes [I] applied to the Int one
    higher; the rule itself reads and writes nothing. *)
Theorem INC_rule (fuel : nat) (ev : Cell -> M unit) (bottom : Z)
    (s s3 : state) (n1 v m : Cell) (rest0 rest : list Cell) :
  rd_stack s = COMB_INC :: n1 :: rest0 ->
  bottom - sp s > 1 ->
  ev (cdr s n1) (set_rd_stack (fun st => drop 1 st) s) = Ok tt s3 ->
  rd_stack s3 = v :: m :: rest ->
  (isint v = false ->
     exists s4,
       reduce fuel ev bottom s = Exit Err_inc_non_number s4 /\
       output s4 = output s3 /\
       contains "invalid output format" (error_message Err_inc_non_number)
         = true)
  /\
  (isint v = true ->
     exists s4,
       reduce fuel ev bottom s = Ok Continue s4 /\
       rd_stack s4 = m :: rest /\
       car s4 m = COMB_I /\ cdr s4 m = mkint (intof v + 1) /\
       input s4 = input s3 /\ output s4 = output s3).
Proof.
  intros Hst Hd Hev Hst3.
  rewrite (reduce_at_INC fuel ev bottom s _ Hst Hd).
  unfold reduce_INC.
  rewrite (bind_Ok_intro _ _ _ _ _
             (ARG_ok 1 n1 s ltac:(rewrite Hst; reflexivity))).
  rewrite (bind_Ok_intro _ _ _ _ _
             (POP_ok COMB_INC (n1 :: rest0) s Hst)).
  rewrite (bind_Ok_intro _ _ _ _ _ Hev).
  rewrite (bind_Ok_intro _ _ _ _ _ (POP_ok v (m :: rest) s3 Hst3)).
  split.
  - intros ->. cbn [negb]. eexists. split; [reflexivity|].
    split; reflexivity.
  - intros ->. cbn [negb]. rewrite bind_ret. unfold TOP.
    erewrite bind_Ok_intro
      by (apply (PUSHED_ok 0 m); regs; rewrite Hst3; reflexivity).
    rewrite bind_modify, mkint_int32.
    eexists. split; [reflexivity|]. regs. rewrite Hst3.
    splits; try reflexivity.
    + apply car_SET_eq.
    + apply cdr_SET_eq.
Qed.

Lemma INC_rule_witness :
  exists s4,
    reduce 8 (eval 8) RDSTACK_SIZE demo_inc = Ok Continue s4 /\
    rd_stack s4 = [4096] /\
    car s4 4096 = COMB_I /\ cdr s4 4096 = mkint 42.
Proof.
  destruct (proj2
    (INC_rule 8 (eval 8) RDSTACK_SIZE demo_inc
       (set_rd_stack (fun st => mkint 41 :: st)
          (set_rd_stack (fun st => drop 1 st) demo_inc))
       4096 (mkint 41) 4096 [] []
       ltac:(vm_compute; reflexivity) ltac:(vm_compute; reflexivity)
       ltac:(vm_compute; reflexivity) ltac:(vm_compute; reflexivity))
    ltac:(vm_compute; reflexivity))
    as (s4 & Hred & Hst & Hcar & Hcdr & _).
  exists s4. auto.
Defined.

Lemma reduce_number (fuel : nat) (ev : Cell -> M unit) (bottom : Z)
    (s : state) (top : Cell) (rest : list Cell) :
  rd_stack s = top :: rest ->
  isint top = true ->
  bottom - sp s > 1 ->
  reduce fuel ev bottom s = Exit Err_apply_number s.
Proof.
  intros Hst Hi Hd.
  assert (Hc : ischar top = false).
  { unfold ischar, isint in *. apply Z.eqb_eq in Hi. apply Z.eqb_neq.
    destruct (tags_mod8 top) as (T & L & _). rewrite T in Hi. rewrite L.
    intros E. rewrite E in Hi. discriminate. }
  unfold reduce, TOP.
  rewrite (bind_Ok_intro _ _ _ _ _
             (PUSHED_ok 0 top s ltac:(rewrite Hst; reflexivity))).
  rewrite bind_get.
  repeat rewrite (isint_neq top _ Hi) by reflexivity.
  cbn [andb]. rewrite Hc, Hi. cbn [andb].
  rewrite (sp_depth _ _ _ Hd). reflexivity.
Qed.

(** X19: a number cannot be applied.  When the head is an Int and an
    argument is on the stack, [reduce] exits with the message on the
    output format, the machine left as it was. *)
Theorem number_applied (fuel : nat) (ev : Cell -> M unit) (bottom : Z)
    (s : state) (top : Cell) (rest : list Cell) :
  rd_stack s = top :: rest ->
  isint top = true ->
  bottom - sp s > 1 ->
  reduce fuel ev bottom s = Exit Err_apply_number s /\
  contains "attempted to apply a number" (error_message Err_apply_number)
    = true.
Proof.
  intros Hst Hi Hd. split; [|reflexivity].
  exact (reduce_number fuel ev bottom s top rest Hst Hi Hd).
Qed.

Lemma number_applied_witness :
  reduce 8 (eval 8) RDSTACK_SIZE demo_number_applied
    = Exit Err_apply_number demo_number_applied.
Proof.
  apply (number_applied 8 (eval 8) RDSTACK_SIZE demo_number_applied
           (mkint 7) [4096]).
  - reflexivity.
  - reflexivity.
  - vm_compute. reflexivity.
Defined.

Section Frames.

Lemma reach_trans s a b c : reach s a b -> reach s b c -> reach s a c.
Proof.
  induction 1 as [a Ha | a b Ha Hb IH | a b Ha Hb IH]; intros Hc.
  - exact Hc.
  - apply reach_car; auto.
  - apply reach_cdr; auto.
Qed.

Lemma reach_pair s a b : reach s a b -> ispair a = true /\ ispair b = true.
Proof. induction 1; tauto. Qed.

Lemma reach_car_size s n l a c tc :
  reads s n (l · a) -> reach s (car s n) c -> reads s c tc ->
  size tc <= size l.
Proof.
  intros Hn Hr Hc.
  destruct (reads_Node_inv _ _ _ _ Hn) as (Hp & HL & HR).
  destruct (reach_reads s _ l c HL Hr) as (t' & Ht' & Hs).
  rewrite (reads_functional s c tc Hc t' Ht'). exact Hs.
Qed.

Lemma frame_cons_inv s c t n ns args :
  frame s c t (n :: ns) args ->
  exists l a args0,
    args = a :: args0 /\ unfolds s n (l · a) /\ converts l t /\
    (ispair c = true -> reach s (car s n) c) /\
    frame s n (t · a) ns args0.
Proof. inversion 1; subst. eauto 10. Qed.

Lemma frame_nil_inv s c t args : frame s c t [] args -> args = [].
Proof. inversion 1; reflexivity. Qed.

Section Written.

(** One Pair [p] written, the others below the allocation pointer as
    they were. *)
Context (s s' : state) (p : Cell) (tp tp' : tree).
Hypothesis Hp : unfolds s p tp.
Hypothesis Hp' : unfolds s' p tp'.
Hypothesis Hconv : converts tp tp'.
Hypothesis Hsame :
  forall y, y < free_ptr s -> y <> p ->
            car s' y = car s y /\ cdr s' y = cdr s y.
Hypothesis Hfp : free_ptr s <= free_ptr s'.

(** Every term of the heap reads as an equal one afterwards. *)
Lemma unfolds_rewrite : forall tx x,
  unfolds s x tx ->
  exists tx',
    unfolds s' x tx' /\ converts tx tx' /\
    forall P : Cell -> Prop, leaves P tp' -> leaves P tx -> leaves P tx'.
Proof.
  induction tx as [k | L IHL R IHR]; intros x Hx.
  - destruct (unfolds_Leaf_inv _ _ _ Hx) as [-> Hk].
    exists (Leaf k). splits; [apply unfolds_Leaf, Hk | apply converts_refl|].
    auto.
  - destruct (Z.eq_dec x p) as [->|Hne].
    + exists tp'. splits; [exact Hp'| |auto].
      rewrite (reads_functional s p _ (proj1 Hx) tp (proj1 Hp)). exact Hconv.
    + destruct (unfolds_Node_inv _ _ _ _ Hx) as (Px & Bx & Hl & Hr).
      destruct (Hsame x Bx Hne) as [Ea Ed].
      destruct (IHL _ Hl) as (L' & HL' & CL & PL).
      destruct (IHR _ Hr) as (R' & HR' & CR & PR).
      exists (L' · R'). splits.
      * apply unfolds_Node; [exact Px | lia | rewrite Ea | rewrite Ed];
          assumption.
      * apply converts_app; assumption.
      * intros P H' [H1 H2]. split; auto.
Qed.

(** A way to [p] stays a way to [p]. *)
Lemma reach_written x q :
  reach s x q -> q = p ->
  (forall y, reach s x y -> y < free_ptr s) -> reach s' x q.
Proof.
  induction 1 as [c Hc | c a Hc Ha IH | c a Hc Ha IH]; intros Hq Hb.
  - apply reach_here, Hc.
  - destruct (Z.eq_dec c a) as [->|Hne]; [apply reach_here, Hc|].
    destruct (Hsame c (Hb c (reach_here s c Hc)) ltac:(congruence)) as [Ea Ed].
    apply reach_car; [exact Hc|]. rewrite Ea. apply IH; [exact Hq|].
    intros y Hy. apply Hb, reach_car; assumption.
  - destruct (Z.eq_dec c a) as [->|Hne]; [apply reach_here, Hc|].
    destruct (Hsame c (Hb c (reach_here s c Hc)) ltac:(congruence)) as [Ea Ed].
    apply reach_cdr; [exact Hc|]. rewrite Ed. apply IH; [exact Hq|].
    intros y Hy. apply Hb, reach_cdr; assumption.
Qed.

(** A way that does not pass [p] stays. *)
Lemma reach_kept x c :
  reach s x c -> ~ reach s p c ->
  (forall y, reach s x y -> y < free_ptr s) -> reach s' x c.
Proof.
  induction 1 as [c Hc | c a Hc Ha IH | c a Hc Ha IH]; intros Hn Hb.
  - apply reach_here, Hc.
  - assert (Hne : c <> p).
    { intros ->. apply Hn, reach_car; assumption. }
    destruct (Hsame c (Hb c (reach_here s c Hc)) Hne) as [Ea Ed].
    apply reach_car; [exact Hc|]. rewrite Ea. apply IH; [exact Hn|].
    intros y Hy. apply Hb, reach_car; assumption.
  - assert (Hne : c <> p).
    { intros ->. apply Hn, reach_cdr; assumption. }
    destruct (Hsame c (Hb c (reach_here s c Hc)) Hne) as [Ea Ed].
    apply reach_cdr; [exact Hc|]. rewrite Ed. apply IH; [exact Hn|].
    intros y Hy. apply Hb, reach_cdr; assumption.
Qed.

Lemma unfolds_rewrite_node n l a :
  n <> p -> unfolds s n (l · a) ->
  exists l' a',
    unfolds s' n (l' · a') /\ converts l l' /\ converts a a' /\
    car s' n = car s n.
Proof.
  intros Hne Hn.
  destruct (unfolds_Node_inv _ _ _ _ Hn) as (Pn & Bn & Hl & Ha).
  destruct (Hsame n Bn Hne) as [Ea Ed].
  destruct (unfolds_rewrite _ _ Hl) as (l' & Hl' & Cl & _).
  destruct (unfolds_rewrite _ _ Ha) as (a' & Ha' & Ca & _).
  exists l', a'. splits; auto.
  apply unfolds_Node; [exact Pn | lia | rewrite Ea | rewrite Ed]; assumption.
Qed.

(** The Pairs of the stack below [c], from which [p] is reached, stand
    for equal terms afterwards. *)
Lemma frame_written : forall ns c c' t t' args,
  frame s c t ns args ->
  reach s c p ->
  converts t t' ->
  (forall x, reach s x c -> (forall y, reach s x y -> y < free_ptr s) ->
             ispair c' = true -> reach s' x c') ->
  exists args', frame s' c' t' ns args' /\ Forall2 converts args args'.
Proof.
  induction ns as [|n ns IH]; intros c c' t t' args Hf Hc Ht Hlink.
  - rewrite (frame_nil_inv _ _ _ _ Hf). exists []. split; constructor.
  - destruct (frame_cons_inv _ _ _ _ _ _ Hf)
      as (l & a & args0 & -> & Hn & Hl & Hreach & Hrest).
    destruct (reach_pair _ _ _ Hc) as [Pc _].
    specialize (Hreach Pc).
    assert (Hnp : reach s (car s n) p) by (eapply reach_trans; eassumption).
    assert (Hsz : size tp <= size l)
      by (exact (reach_car_size s n l a p tp (proj1 Hn) Hnp (proj1 Hp))).
    pose proof (size_pos a) as Hpa.
    assert (Hne : n <> p).
    { intros ->.
      pose proof (reads_functional s p _ (proj1 Hn) tp (proj1 Hp)) as E.
      rewrite <- E in Hsz. cbn [size] in Hsz. lia. }
    destruct (unfolds_Node_inv _ _ _ _ Hn) as (Pn & Bn & Hcar & Hcdr).
    destruct (unfolds_rewrite_node n l a Hne Hn)
      as (l' & a' & Hn' & Cl & Ca & Ecar).
    destruct (IH n n (t · a) (t' · a') args0 Hrest) as (args' & Hf' & Ha').
    + apply reach_car; assumption.
    + apply converts_app; assumption.
    + intros x Hx Hb _. apply reach_kept; [exact Hx | | exact Hb].
      intros Hpn.
      destruct (reach_reads s p tp n (proj1 Hp) Hpn) as (tn & Htn & Hs).
      pose proof (reads_functional s n _ (proj1 Hn) tn Htn) as E.
      rewrite <- E in Hs. cbn [size] in Hs. lia.
    + exists (a' :: args'). split; [|constructor; assumption].
      econstructor; [exact Hn' | | | exact Hf'].
      * eapply converts_trans; [apply converts_sym, Cl|].
        eapply converts_trans; [exact Hl | exact Ht].
      * intros Pc'. rewrite Ecar. apply Hlink; [exact Hreach | | exact Pc'].
        intros y Hy. apply (proj2 Hcar), Hy.
Qed.


End Written.

Lemma ischar_mkchar n : ischar (mkchar n) = true.
Proof.
  unfold ischar, mkchar, CELL, WORD. change 7 with (Z.ones 3).
  rewrite Z.land_ones, Z.shiftl_mul_pow2 by lia.
  apply Z.eqb_eq.
  rewrite Z.mod_mod_divide by (exists (2 ^ 29); reflexivity).
  replace (n * 2 ^ 3 + 3) with (3 + n * 8) by lia.
  rewrite Z.mod_add by lia. reflexivity.
Qed.

(** *** Graphs without I/O *)

Lemma pure_cell_char c : ischar c = true -> pure_cell c = true.
Proof.
  intros H. unfold pure_cell.
  repeat rewrite (ischar_neq c _ H) by reflexivity. reflexivity.
Qed.

Lemma frame_length s c t ns args :
  frame s c t ns args -> length ns = length args.
Proof. induction 1; cbn [length]; congruence. Qed.

Lemma ldepth_applied args : forall t,
  ldepth (applied t args) = (ldepth t + length args)%nat.
Proof.
  induction args as [|a args IH]; intros t; cbn [applied fold_left length].
  - lia.
  - fold (applied (t · a) args). rewrite IH. cbn [ldepth]. lia.
Qed.

Lemma state_stack s l : rd_stack s = l -> s = set_rd_stack (fun _ => l) s.
Proof. intros <-. destruct s; reflexivity. Qed.

(** Heap and allocation pointer as they were: every term reads the same. *)
Lemma unfolds_same s s' x tx :
  unfolds s x tx ->
  (forall c, c < free_ptr s -> car s' c = car s c /\ cdr s' c = cdr s c) ->
  free_ptr s <= free_ptr s' ->
  unfolds s' x tx.
Proof.
  intros [Hx Ha] Hf Hfp.
  assert (G : forall a, reach s x a ->
                car s' a = car s a /\ cdr s' a = cdr s a).
  { intros a Hr. apply Hf, Ha, Hr. }
  split.
  - apply (reads_update s s' x tx Hx G).
  - intros a Hr. pose proof (reach_update s s' x a Hr G) as Hr'.
    specialize (Ha a Hr'). lia.
Qed.

Ltac explode l H :=
  let a := fresh "a" in
  destruct l as [|a l]; cbn [length ldepth Nat.add] in H;
  [ try discriminate H
  | try discriminate H; try (injection H as H; explode l H) ].

(** Takes the Pairs of the redex off the frame. *)
Ltac open_frame Hf :=
  lazymatch type of Hf with
  | frame _ _ _ (_ :: _) _ =>
      let l := fresh "l" in
      let a := fresh "a" in
      let r := fresh "r" in
      let E := fresh "E" in
      let Hn := fresh "Hn" in
      let Hl := fresh "Hl" in
      let Hr := fresh "Hlink" in
      let Hf' := fresh "Hf" in
      destruct (frame_cons_inv _ _ _ _ _ _ Hf)
        as (l & a & r & E & Hn & Hl & Hr & Hf');
      injection E as ? ?; subst a r;
      open_frame Hf'
  | _ => idtac
  end.

(** The sizes of the terms along the frame, from the ways between its
    Pairs. *)
Ltac link_sizes :=
  repeat match goal with
  | Hk : ispair ?c = true -> reach ?s (car ?s ?n) ?c,
    Hn : unfolds ?s ?n (?l · ?a),
    Hc : unfolds ?s ?c ?tc |- _ =>
      let P := fresh "P" in
      assert (P : ispair c = true)
        by (exact (proj1 (unfolds_Node_inv _ _ _ _ Hc)));
      pose proof (reach_car_size s n l a c tc (proj1 Hn) (Hk P) (proj1 Hc));
      clear Hk P
  end.

(** The parts of the Pairs of the frame. *)
Ltac open_nodes :=
  repeat match goal with
  | Hn : unfolds ?s ?n (?l · ?a) |- _ =>
      lazymatch goal with
      | _ : unfolds s (cdr s n) a |- _ => fail
      | _ =>
          let P := fresh "P" in
          let B := fresh "B" in
          let Hl := fresh "Hcar" in
          let Ha := fresh "Hcdr" in
          destruct (unfolds_Node_inv _ _ _ _ Hn) as (P & B & Hl & Ha)
      end
  end.

(** Runs the rule on the stack of the frame, made explicit. *)
Ltac run_rule Hst Hd :=
  cbn [app] in Hst;
  rewrite (f_equal (reduce _ _ _) (state_stack _ _ Hst));
  unfold reduce; exec; pick_rule;
  try rewrite sp_depth
    by (unfold sp in *; regs; rewrite Hst in Hd; cbn [length app] in *; lia);
  exec.

Ltac rule_converts :=
  first
    [ eapply converts_trans;
      [ apply converts_left; eassumption
      | apply converts_rule; constructor; assumption ]
    | apply converts_rule; constructor; assumption ].

Ltac finish_tail s p Fr :=
  split; [exact Fr|];
  split; [arith|];
  split; [regs; auto using aligned_padd|];
  split; [reflexivity|];
  split; [regs; reflexivity|];
  split; [regs; reflexivity|];
  intros ? ? ? ?; cbn [leaves] in *; tauto.

(** A rule that writes its result into the Pair [p] of the redex. *)
Ltac finish_in_place s p Hp :=
  eexists p, _, p, _, _;
  split; [reflexivity|]; split; [assumption|];
  split; [exact Hp|]; split; [reflexivity|];
  split; [regs; reflexivity|];
  cells;
  lazymatch goal with
  | |- unfolds ?S _ ?t' /\ _ =>
      let Fr := fresh "Fr" in
      let Hfp := fresh "Hfp" in
      let Hnew := fresh "Hnew" in
      assert (Fr : forall c, c < free_ptr s -> c <> p ->
                     car S c = car s c /\ cdr S c = cdr s c)
        by (intros ? ? ?; split; cells);
      assert (Hfp : free_ptr s <= free_ptr S) by arith;
      assert (Hnew : unfolds S p t')
        by (pose proof Hp as Hroot; carry Hroot S Fr Hfp; cells; build);
      split; [exact Hnew|]; split; [exact Hnew|];
      split; [rule_converts|];
      split; [intros _; apply reach_here; assumption|];
      finish_tail s p Fr
  end.

Ltac rule_setup Er Hlen Hf args ns :=
  let Hk := fresh "Hk" in
  pose proof (f_equal ldepth Er) as Hk; rewrite ldepth_applied in Hk;
  cbn [ldepth Nat.add] in Hk; explode args Hk;
  cbn [applied fold_left] in Er; injection Er as Er; subst;
  symmetry in Hlen; explode ns Hlen;
  open_frame Hf; link_sizes; open_nodes.

(** A rule that puts its result in the place of the top and leaves
    [tp'] in the Pair [p]. *)
Ltac finish_moved s p Hp tp' :=
  eexists p, _, _, _, tp';
  split; [reflexivity|]; split; [assumption|];
  split; [exact Hp|]; split; [reflexivity|];
  split; [regs; reflexivity|];
  cells;
  lazymatch goal with
  | |- unfolds ?S _ ?t' /\ _ =>
      let Fr := fresh "Fr" in
      let Hfp := fresh "Hfp" in
      assert (Fr : forall c, c < free_ptr s -> c <> p ->
                     car S c = car s c /\ cdr S c = cdr s c)
        by (intros ? ? ?; split; cells);
      assert (Hfp : free_ptr s <= free_ptr S) by arith;
      split; [pose proof Hp as Hroot; carry Hroot S Fr Hfp; build|];
      split;
        [ first
            [ apply (unfolds_same s S p _ Hp); [intros; split; cells | arith]
            | pose proof Hp as Hroot; carry Hroot S Fr Hfp; cells; build ] |];
      split;
        [ first
            [ apply converts_refl
            | eapply converts_trans; [apply converts_left; eassumption|];
              eapply converts_trans; [apply converts_rule; constructor|];
              apply converts_sym, converts_rule; constructor ] |];
      split;
        [ let Pc := fresh "Pc" in
          intros Pc; apply reach_cdr;
          [assumption | cells; apply reach_here; exact Pc] |];
      finish_tail s p Fr
  end.

Ltac finish_rule s :=
  lazymatch goal with
  | |- context [last ?l] =>
      let v := eval cbn in (last l) in
      lazymatch v with
      | Some ?p =>
          match goal with
          | Hp : unfolds s p (_ · _) |- _ => finish_in_place s p Hp
          end
      end
  end.

Ltac char_rule Hst Hd :=
  cbn [app] in Hst;
  rewrite (f_equal (reduce _ _ _) (state_stack _ _ Hst));
  unfold reduce; exec;
  match goal with
  | H : ischar ?c = true |- _ =>
      repeat rewrite (ischar_neq c _ H) by reflexivity;
      cbn [andb];
      rewrite H
  end;
  rewrite sp_depth
    by (unfold sp in *; regs; rewrite Hst in Hd; cbn [length app] in *; lia);
  cbn [andb]; unfold reduce_char.

Ltac in_place s Er Hlen Hf args ns Hst Hd :=
  rule_setup Er Hlen Hf args ns; run_rule Hst Hd; finish_rule s.

Lemma reduce_contracts fuel ev bottom s c0 ns rest args t' :
  rd_stack s = c0 :: ns ++ rest ->
  frame s c0 (Leaf c0) ns args ->
  contracts (applied (Leaf c0) args) t' ->
  bottom - sp s > Z.of_nat (length ns) ->
  aligned (free_ptr s) -> padd (free_ptr s) 3 <= heap_area s ->
  exists p tp c' s' tp',
    last ns = Some p /\ ispair p = true /\ unfolds s p tp /\
    reduce fuel ev bottom s = Ok Continue s' /\
    rd_stack s' = c' :: rest /\
    unfolds s' c' t' /\
    unfolds s' p tp' /\ converts tp tp' /\
    (ispair c' = true -> reach s' p c') /\
    (forall y, y < free_ptr s -> y <> p ->
               car s' y = car s y /\ cdr s' y = cdr s y) /\
    free_ptr s <= free_ptr s' <= padd (free_ptr s) 3 /\
    aligned (free_ptr s') /\ heap_area s' = heap_area s /\
    input s' = input s /\ output s' = output s /\
    (forall P : Cell -> Prop,
       P COMB_I -> leaves P t' -> leaves P tp -> leaves P tp').
Proof.
  intros Hst Hf Hc Hd Hal Hheap.
  pose proof (frame_length _ _ _ _ _ Hf) as Hlen.
  remember (applied (Leaf c0) args) as r eqn:Er.
  destruct Hc.
  - rule_setup Er Hlen Hf args ns. run_rule Hst Hd.
    match goal with
    | Hp : unfolds s ?p (?l · ?a) |- context [last [?p]] =>
        finish_moved s p Hp (l · a)
    end.
  - in_place s Er Hlen Hf args ns Hst Hd.
  - rule_setup Er Hlen Hf args ns. run_rule Hst Hd.
    match goal with
    | Hp : unfolds s ?p (_ · _), Hq : unfolds s ?q (_ · ?a)
      |- context [last [?q; ?p]] =>
        finish_moved s p Hp (Leaf COMB_I · a)
    end.
  - in_place s Er Hlen Hf args ns Hst Hd.
  - in_place s Er Hlen Hf args ns Hst Hd.
  - in_place s Er Hlen Hf args ns Hst Hd.
  - in_place s Er Hlen Hf args ns Hst Hd.
  - in_place s Er Hlen Hf args ns Hst Hd.
  - in_place s Er Hlen Hf args ns Hst Hd.
  - in_place s Er Hlen Hf args ns Hst Hd.
  - in_place s Er Hlen Hf args ns Hst Hd.
  - in_place s Er Hlen Hf args ns Hst Hd.
  - rule_setup Er Hlen Hf args ns. char_rule Hst Hd.
    match goal with
    | |- context [charof ?c <=? 0] =>
        destruct (Z.leb_spec (charof c) 0) as [_|]; [|lia]
    end.
    exec. finish_rule s.
  - rule_setup Er Hlen Hf args ns. char_rule Hst Hd.
    match goal with
    | |- context [charof ?c <=? 0] =>
        destruct (Z.leb_spec (charof c) 0) as [|_]; [lia|]
    end.
    exec. finish_rule s.
Qed.

Lemma applied_snoc t args x : applied t (args ++ [x]) = applied t args · x.
Proof. unfold applied. rewrite fold_left_app. reflexivity. Qed.

Lemma applied_app t a b : applied t (a ++ b) = applied (applied t a) b.
Proof. unfold applied. apply fold_left_app. Qed.

Lemma applied_converted args args' :
  Forall2 converts args args' ->
  forall t, args_converted (applied t args) (applied t args').
Proof.
  intros H. apply Forall2_length in H as Hlen. revert args' H Hlen.
  induction args as [|x args IH] using rev_ind; intros args' H Hlen t.
  - destruct args'; [apply args_same | discriminate].
  - destruct args' as [|y args'] using rev_ind;
      [rewrite length_app in Hlen; cbn in Hlen; lia|].
    clear IHargs'. rewrite !length_app in Hlen. cbn [length] in Hlen.
    apply Forall2_app_inv in H as [H1 H2]; [|lia].
    rewrite !applied_snoc. apply args_app.
    + apply IH; [exact H1 | lia].
    + inversion H2; subst. assumption.
Qed.



(** The redex of a head step lies at the head: the step contracts the
    head applied to the first arguments and keeps the others. *)
Lemma head_step_applied c0 : forall args w1,
  head_step (applied (Leaf c0) args) w1 ->
  exists args1 args2 t',
    args = args1 ++ args2 /\
    contracts (applied (Leaf c0) args1) t' /\ w1 = applied t' args2.
Proof.
  induction args as [|x args IH] using rev_ind; intros w1 H.
  - cbn in H. inversion H; subst. inversion H0.
  - rewrite applied_snoc in H. inversion H; subst.
    + exists (args ++ [x]), [], w1. rewrite app_nil_r, applied_snoc. auto.
    + destruct (IH _ H3) as (args1 & args2 & t' & -> & Hc & ->).
      exists args1, (args2 ++ [x]), t'. rewrite app_assoc, applied_snoc. auto.
Qed.

Lemma last_cons_default {A} (n : A) l c :
  default c (last (n :: l)) = default n (last l).
Proof. destruct l; [reflexivity|]. rewrite last_cons_cons. 
  destruct (last (a :: l)) eqn:E; [reflexivity|].
  apply last_None in E. discriminate.
Qed.

Lemma frame_app s : forall ns1 c t ns2 args1 args2,
  frame s c t (ns1 ++ ns2) (args1 ++ args2) ->
  length args1 = length ns1 ->
  frame s c t ns1 args1 /\
  frame s (default c (last ns1)) (applied t args1) ns2 args2.
Proof.
  induction ns1 as [|n ns1 IH]; intros c t ns2 args1 args2 Hf Hlen.
  - destruct args1; [|discriminate]. split; [constructor | exact Hf].
  - destruct args1 as [|a args1]; [discriminate|].
    cbn [app] in Hf.
    destruct (frame_cons_inv _ _ _ _ _ _ Hf)
      as (l & a' & args0 & E & Hn & Hl & Hr & Hrest).
    injection E as <- <-.
    destruct (IH n (t · a) ns2 args1 args2 Hrest) as [H1 H2];
      [cbn in Hlen; lia|].
    split; [econstructor; eassumption|].
    rewrite last_cons_default. exact H2.
Qed.

(** The stack alone changed: the frames are the same. *)
Lemma frame_same s s' :
  (forall c, car s' c = car s c /\ cdr s' c = cdr s c) ->
  free_ptr s' = free_ptr s ->
  forall ns c t args, frame s c t ns args -> frame s' c t ns args.
Proof.
  intros Hh Hfp. induction 1 as [|c t n ns l a args Hn Hl Hr Hrest IH].
  - constructor.
  - econstructor; [| exact Hl | | exact IH].
    + apply (unfolds_same s s' _ _ Hn); [intros; apply Hh | lia].
    + intros P. specialize (Hr P). destruct (Hh n) as [-> _].
      apply (reach_update s' s); [exact Hr|].
      intros b _. destruct (Hh b) as [-> ->]. auto.
Qed.

Lemma is_spine_unfolds s : forall h c,
  unfolds s c h -> is_spine s (ldepth h) c.
Proof.
  induction h as [k | f IH b _]; intros c H; cbn [ldepth is_spine].
  - destruct (unfolds_Leaf_inv _ _ _ H) as [-> Hk]. exact Hk.
  - destruct (unfolds_Node_inv _ _ _ _ H) as (P & _ & Hf & _). auto.
Qed.

(** What [unspine] pushes goes into the frame. *)
Lemma unfolds_functional s c t t' : unfolds s c t -> unfolds s c t' -> t = t'.
Proof. intros [H _] [H' _]. exact (reads_functional s c t H t' H'). Qed.

Lemma spine_frame s : forall h hc ns args rest,
  unfolds s hc h -> frame s hc h ns args ->
  exists c0 ms margs,
    spine s (ldepth h) hc rest = c0 :: ms ++ rest /\
    ispair c0 = false /\ length ms = ldepth h /\
    frame s c0 (Leaf c0) (ms ++ ns) (margs ++ args) /\
    applied (Leaf c0) (margs ++ args) = applied h args /\
    c0 = head h /\
    (forall P : Cell -> Prop,
       leaves P h -> forall n u, n ∈ ms -> unfolds s n u -> leaves P u).
Proof.
  induction h as [k | f IH b _]; intros hc ns args rest Hh Hf;
    cbn [ldepth spine head].
  - destruct (unfolds_Leaf_inv _ _ _ Hh) as [-> Hk].
    exists k, [], []. splits; auto.
    intros P _ n u Hin. inversion Hin.
  - destruct (unfolds_Node_inv _ _ _ _ Hh) as (P & B & Hcar & Hcdr).
    destruct (IH (car s hc) (hc :: ns) (b :: args) (hc :: rest) Hcar)
      as (c0 & ms & margs & Hs & P0 & Hlen & Hfr & Happ & Hhd & Hpure).
    { econstructor; [exact Hh | apply converts_refl | | exact Hf].
      intros Pc. apply reach_here, Pc. }
    exists c0, (ms ++ [hc]), (margs ++ [b]).
    rewrite <- !app_assoc. cbn [app]. splits; auto.
    + rewrite length_app. cbn [length]. lia.
    + intros Q [Hl Hr] n u Hin Hu.
      apply elem_of_app in Hin as [Hin|Hin].
      * exact (Hpure Q Hl n u Hin Hu).
      * apply list_elem_of_singleton in Hin as ->.
        rewrite <- (unfolds_functional s hc _ _ Hh Hu). split; assumption.
Qed.



Lemma leaves_applied P args : forall t,
  leaves P (applied t args) <-> leaves P t /\ Forall (leaves P) args.
Proof.
  induction args as [|a args IH]; intros t; cbn [applied fold_left].
  - split; [intros H; split; [exact H | constructor] | tauto].
  - fold (applied (t · a) args). rewrite IH. cbn [leaves].
    rewrite Forall_cons. tauto.
Qed.


Lemma contracts_pure r t' :
  contracts r t' ->
  leaves (fun k => pure_cell k = true) r ->
  leaves (fun k => pure_cell k = true) t'.
Proof.
  intros Hc Hl. destruct Hc; cbn [leaves] in *;
    repeat match goal with H : _ /\ _ |- _ => destruct H end;
    try discriminate;
    repeat split;
    first [assumption | reflexivity | apply pure_cell_char, ischar_mkchar].
Qed.

Lemma leaves_head P t : leaves P t -> P (head t).
Proof. induction t; cbn [leaves head]; tauto. Qed.

(** The Pairs of a frame unfold. *)
Lemma frame_unfolds s : forall ns c t args n,
  frame s c t ns args -> n ∈ ns -> exists l a, unfolds s n (l · a).
Proof.
  induction 1 as [|c t n' ns l a args Hn Hl Hr Hrest IH]; intros Hin.
  - inversion Hin.
  - apply elem_of_cons in Hin as [->|Hin]; eauto.
Qed.

Lemma frame_args_leaves (P : Cell -> Prop) s : forall ns c t args,
  frame s c t ns args ->
  (forall n u, n ∈ ns -> unfolds s n u -> leaves P u) ->
  Forall (leaves P) args.
Proof.
  induction 1 as [|c t n ns l a args Hn Hl Hr Hrest IH]; intros H;
    constructor.
  - apply (H n (l · a)); [left | exact Hn].
  - apply IH. intros n' u Hin. apply H. right. exact Hin.
Qed.

(** One turn on the slots [hc :: ns ++ below]. *)
Lemma turn_at fuel ev bottom s hc ns below h args w1 :
  rd_stack s = hc :: ns ++ below ->
  bottom = RDSTACK_SIZE - Z.of_nat (length below) ->
  unfolds s hc h -> frame s hc h ns args ->
  head_step (applied h args) w1 ->
  (ldepth h < fuel)%nat ->
  Z.of_nat (length (rd_stack s)) + Z.of_nat (ldepth h) <= RDSTACK_SIZE ->
  aligned (free_ptr s) ->
  padd (free_ptr s) 3 <= heap_area s ->
  exists s' w2,
    (unspine fuel;; reduce fuel ev bottom) s = Ok Continue s' /\
    running s' below w2 /\ args_converted w1 w2 /\
    aligned (free_ptr s') /\
    free_ptr s <= free_ptr s' <= padd (free_ptr s) 3 /\
    heap_area s' = heap_area s /\
    (length (rd_stack s') <= length (rd_stack s) + ldepth h)%nat /\
    input s' = input s /\ output s' = output s /\
    (slots_pure s below -> slots_pure s' below).
Proof.
  intros Hst Hb Hh Hf Hstep Hfuel Hroom Hal Hheap.
  destruct (spine_frame s h hc ns args (ns ++ below) Hh Hf)
    as (c0 & ms & margs & Hsp & P0 & Hlen & Hfr & Happ & Hhd & Hspine).
  rewrite <- Happ in Hstep.
  destruct (head_step_applied c0 _ _ Hstep)
    as (args1 & args2 & t' & Eargs & Hc & ->).
  pose proof Hfr as Hfr0.
  (* the state after the spine is unwound *)
  set (s1 := set_rd_stack (fun _ => c0 :: ms ++ ns ++ below) s).
  assert (Hu : unspine fuel s = Ok tt s1).
  { subst s1. rewrite <- Hsp.
    apply (unspine_spine (ldepth h) fuel s hc (ns ++ below) Hst).
    - apply is_spine_unfolds, Hh.
    - lia.
    - lia. }
  assert (Hheap1 : forall c, car s1 c = car s c /\ cdr s1 c = cdr s c)
    by (intros c; split; reflexivity).
  (* the Pairs of the redex and those below it *)
  pose proof (frame_length _ _ _ _ _ Hfr) as Hl.
  assert (Hk : (length args1 <= length (ms ++ ns))%nat).
  { rewrite Hl, Eargs, length_app. lia. }
  rewrite <- (take_drop (length args1) (ms ++ ns)) in Hfr.
  rewrite Eargs in Hfr.
  set (ns1 := take (length args1) (ms ++ ns)) in *.
  set (ns2 := drop (length args1) (ms ++ ns)) in *.
  assert (Hl1 : length args1 = length ns1)
    by (subst ns1; rewrite length_take; lia).
  destruct (frame_app s ns1 c0 (Leaf c0) ns2 args1 args2 Hfr Hl1)
    as [Hf1 Hf2].
  assert (Hst1 : rd_stack s1 = c0 :: ns1 ++ (ns2 ++ below)).
  { subst s1 ns1 ns2. regs. rewrite !app_assoc, take_drop. reflexivity. }
  assert (Hlens : length (ms ++ ns) = (length ns1 + length ns2)%nat).
  { subst ns1 ns2. rewrite <- length_app, take_drop. reflexivity. }
  destruct (reduce_contracts fuel ev bottom s1 c0 ns1 (ns2 ++ below) args1 t'
              Hst1)
    as (p & tp & c' & s' & tp' & Hlast & Pp & Hp & Hred & Hst' & Hc' & Hp'
        & Hcv & Hreach & Hsame & Hfp & Hal' & Hha & Hin & Hout & Hpure).
  { apply (frame_same s s1); auto. }
  { exact Hc. }
  { unfold sp. rewrite Hst1, Hb.
    cbn [length]. rewrite !length_app. lia. }
  { exact Hal. }
  { exact Hheap. }
  rewrite Hlast in Hf2. cbn [default] in Hf2.
  destruct (frame_written s1 s' p tp tp' Hp Hp' Hcv Hsame ltac:(lia)
              ns2 p c' (applied (Leaf c0) args1) t' args2)
    as (args2' & Hf' & Hargs).
  { apply (frame_same s s1); auto. }
  { apply reach_here, Pp. }
  { apply converts_rule, Hc. }
  { intros x Hx Hbd Pc. eapply reach_trans; [|apply Hreach, Pc].
    apply (reach_written s1 s' p Hsame x p Hx eq_refl Hbd). }
  exists s', (applied t' args2'). splits.
  - unfold bind at 1. rewrite Hu. exact Hred.
  - exists c', ns2, t', args2'. splits; auto.
  - apply applied_converted, Hargs.
  - exact Hal'.
  - apply Hfp.
  - apply Hfp.
  - exact Hha.
  - rewrite Hst', Hst. cbn [length].
    rewrite !length_app in *. lia.
  - exact Hin.
  - exact Hout.
  - intros Hsl.
    assert (Hhp : leaves (fun k => pure_cell k = true) h).
    { apply (Hsl (hc :: ns) hc h Hst); [left | exact Hh]. }
    assert (Hnp : forall n u, n ∈ ms ++ ns -> unfolds s n u ->
                    leaves (fun k => pure_cell k = true) u).
    { intros n u Hel Hn. apply elem_of_app in Hel as [Hel|Hel].
      - exact (Hspine _ Hhp n u Hel Hn).
      - apply (Hsl (hc :: ns) n u Hst); [right; exact Hel | exact Hn]. }
    assert (Hrp : leaves (fun k => pure_cell k = true)
                    (applied (Leaf c0) args1)).
    { assert (Hall : leaves (fun k => pure_cell k = true)
                       (applied (Leaf c0) (margs ++ args))).
      { apply leaves_applied. split.
        - cbn [leaves]. rewrite Hhd.
          exact (leaves_head (fun k => pure_cell k = true) h Hhp).
        - exact (frame_args_leaves _ s _ _ _ _ Hfr0 Hnp). }
      rewrite Eargs, applied_app in Hall.
      apply leaves_applied in Hall as [Hall _]. exact Hall. }
    pose proof (contracts_pure _ _ Hc Hrp) as Htp.
    assert (Hback : forall x u, unfolds s1 x u -> unfolds s x u).
    { intros x u Hx. apply (unfolds_same s1 s _ _ Hx);
        [intros; split; reflexivity | subst s1; regs; lia]. }
    assert (Hpin : p ∈ ms ++ ns).
    { rewrite <- (take_drop (length args1) (ms ++ ns)).
      apply elem_of_app. left. fold ns1.
      apply last_Some in Hlast as [l' ->].
      apply elem_of_app. right. apply list_elem_of_singleton. reflexivity. }
    assert (Hpp : leaves (fun k => pure_cell k = true) tp')
      by (apply Hpure; [reflexivity | exact Htp |
                        exact (Hnp p tp Hpin (Hback _ _ Hp))]).
    intros ns' x u Hst'' Hel Hx.
    rewrite Hst' in Hst''.
    change (c' :: ns2 ++ below) with ((c' :: ns2) ++ below) in Hst''.
    apply app_inv_tail in Hst''. subst ns'.
    apply elem_of_cons in Hel as [->|Hel].
    + rewrite <- (unfolds_functional s' c' _ _ Hc' Hx). exact Htp.
    + assert (Hel0 : x ∈ ms ++ ns).
      { rewrite <- (take_drop (length args1) (ms ++ ns)).
        apply elem_of_app. right. exact Hel. }
      destruct (frame_unfolds s _ _ _ _ x Hfr0 Hel0) as (l & a & Hxs).
      destruct (unfolds_rewrite s1 s' p tp tp' Hp Hp' Hcv Hsame
                  ltac:(lia) (l · a) x)
        as (tx' & Hx' & _ & Hkeep).
      { apply (unfolds_same s s1 _ _ Hxs); [intros; split; reflexivity|].
        subst s1. regs. lia. }
      rewrite <- (unfolds_functional s' x _ _ Hx' Hx).
      apply Hkeep; [exact Hpp | exact (Hnp x _ Hel0 Hxs)].
Qed.

(** X23: one turn of the loop of [eval] is a head reduction step of the
    term on the stack.  When the slots of the running [eval] stand for
    the term [w] and [w] has a redex at its head, for one of the rules
    that neither read nor write, and three Pairs and the slots for the
    spine are free, the turn continues and the slots stand for the
    contracted term afterwards, up to the rules applied in arguments
    that share Pairs with the redex; the slots of the caller, input and
    output stay. *)
Theorem turn_head_step (fuel : nat) (ev : Cell -> M unit) (bottom : Z)
    (s : state) (below : list Cell) (w w1 : tree) :
  running s below w ->
  bottom = RDSTACK_SIZE - Z.of_nat (length below) ->
  head_step w w1 ->
  (ldepth w < fuel)%nat ->
  Z.of_nat (length (rd_stack s)) + Z.of_nat (ldepth w) <= RDSTACK_SIZE ->
  aligned (free_ptr s) ->
  padd (free_ptr s) 3 <= heap_area s ->
  exists s' w2,
    (unspine fuel;; reduce fuel ev bottom) s = Ok Continue s' /\
    running s' below w2 /\ args_converted w1 w2 /\
    aligned (free_ptr s') /\
    free_ptr s <= free_ptr s' <= padd (free_ptr s) 3 /\
    input s' = input s /\ output s' = output s.
Proof.
  intros (hc & ns & h & args & Hst & Hh & Hf & ->)
    Hb Hstep Hfuel Hroom Hal Hheap.
  rewrite ldepth_applied in Hfuel, Hroom.
  destruct (turn_at fuel ev bottom s hc ns below h args w1)
    as (s' & w2 & H1 & H2 & H3 & H4 & H5 & _ & _ & H6 & H7 & _);
    try assumption; try lia.
  exists s', w2. auto 10.
Qed.

End Frames.

Lemma turn_head_step_witness :
  exists s' w2,
    (unspine 8;; reduce 8 (eval 8) RDSTACK_SIZE) demo_stale = Ok Continue s' /\
    running s' [] w2 /\ args_converted (Leaf COMB_S) w2 /\
    output s' = output demo_stale.
Proof.
  destruct (turn_head_step 8 (eval 8) RDSTACK_SIZE demo_stale []
              (Leaf COMB_K · Leaf COMB_S · Leaf COMB_K) (Leaf COMB_S))
    as (s' & w2 & H1 & H2 & H3 & _ & _ & _ & H4).
  - exists COMB_K, [4104; 4112], (Leaf COMB_K),
      [Leaf COMB_S; Leaf COMB_K].
    splits; try reflexivity.
    + apply unfolds_check_sound. reflexivity.
    + apply (frame_cons _ _ _ _ _ (Leaf COMB_I · Leaf COMB_K)).
      * apply unfolds_check_sound. vm_compute. reflexivity.
      * apply converts_rule, contracts_I.
      * discriminate.
      * apply (frame_cons _ _ _ _ _
                 (Leaf COMB_I · Leaf COMB_K · Leaf COMB_S)).
        -- apply unfolds_check_sound. vm_compute. reflexivity.
        -- apply converts_app; [|apply converts_refl].
           apply converts_rule, contracts_I.
        -- intros _. apply reach_here. reflexivity.
        -- apply frame_nil.
  - reflexivity.
  - apply head_here, contracts_K.
  - cbn. lia.
  - vm_compute. discriminate.
  - vm_compute. reflexivity.
  - vm_compute. discriminate.
  - exists s', w2. auto.
Defined.


(** *** The loop *)









Lemma putchar_ok c s :
  putchar c s = Ok tt (set_output (output s ++ [c mod 256]) s).
Proof. reflexivity. Qed.

Lemma set_output_app o1 o2 s :
  set_output (output (set_output (output s ++ o1) s) ++ o2)
             (set_output (output s ++ o1) s)
  = set_output (output s ++ o1 ++ o2) s.
Proof. destruct s; cbn. rewrite <- app_assoc. reflexivity. Qed.

Lemma set_output_nil s : set_output (output s ++ []) s = s.
Proof. destruct s; cbn. rewrite app_nil_r. reflexivity. Qed.

Lemma leaf_text_ok fuel c s :
  ispair c = false ->
  unparse (S fuel) c s = Ok tt (set_output (output s ++ leaf_text c) s).
Proof.
  intros Hp. cbn [unparse]. rewrite Hp. unfold leaf_text.
  repeat match goal with
  | |- context [if ?c =? ?k then _ else _] => destruct (c =? k)
  end;
  repeat rewrite (bind_Ok_intro _ _ _ _ _ (putchar_ok _ _));
  rewrite putchar_ok, ?set_output_app; reflexivity.
Qed.

(** [unparse] writes the text of the term the graph unfolds to. *)
Lemma unparse_text : forall t fuel e s,
  unfolds s e t -> size t <= Z.of_nat fuel ->
  unparse fuel e s = Ok tt (set_output (output s ++ text t) s).
Proof.
  induction t as [k | l IHl r IHr]; intros fuel e s He Hf;
    (destruct fuel as [|fuel];
     [cbn [size] in Hf;
      first [ lia
            | match goal with
              | l : tree, r : tree |- _ =>
                  pose proof (size_pos l); pose proof (size_pos r); lia
              end ]|]).
  - destruct (unfolds_Leaf_inv _ _ _ He) as [-> Hk].
    apply leaf_text_ok, Hk.
  - destruct (unfolds_Node_inv _ _ _ _ He) as (P & B & Hl & Hr).
    pose proof (size_pos l). pose proof (size_pos r). cbn [size] in Hf.
    cbn [unparse text]. rewrite P.
    rewrite (bind_Ok_intro _ _ _ _ _ (putchar_ok _ s)).
    set (s1 := set_output (output s ++ [chr "`" mod 256]) s).
    assert (Hsame : forall c, car s1 c = car s c /\ cdr s1 c = cdr s c)
      by (intros; split; reflexivity).
    rewrite bind_assoc, bind_get.
    erewrite bind_Ok_intro.
    2: { apply (IHl fuel (car s1 e) s1); [|lia].
         apply (unfolds_same s s1 _ _ Hl); [intros; apply Hsame | reflexivity]. }
    rewrite bind_get. subst s1. rewrite set_output_app.
    set (s2 := set_output _ s).
    rewrite (IHr fuel (cdr s2 e) s2); [|  | lia].
    + subst s2. rewrite set_output_app. rewrite <- !app_assoc. reflexivity.
    + apply (unfolds_same s s2 _ _ Hr); [intros; split; reflexivity|].
      reflexivity.
Qed.

(** What may follow a text: no character that would make another word
    of its last letter. *)
Definition follows (r : list Z) : Prop :=
  match r with
  | [] => True
  | x :: _ => x <> chr "'" /\ x <> chr "*" /\ x <> chr "k"
  end.

Lemma text_starts t r :
  leaves printable t ->
  exists x rest,
    text t ++ r = x :: rest /\
    (x = chr "`" \/ x = chr "S" \/ x = chr "K" \/ x = chr "I" \/
     x = chr "B" \/ x = chr "C").
Proof.
  destruct t as [c | l r']; cbn [leaves text].
  - unfold printable. intros H.
    repeat destruct H as [H|H]; subst c; eexists _, _;
      (split; [reflexivity | tauto]).
  - intros _. eexists _, _. split; [reflexivity | tauto].
Qed.

Lemma text_follows t r : leaves printable t -> follows (text t ++ r).
Proof.
  intros H. destruct (text_starts t r H) as (x & rest & -> & Hx).
  cbn [follows]. repeat destruct Hx as [Hx|Hx]; subst x;
    repeat split; discriminate.
Qed.

(** A text is read back in one way. *)
Lemma text_inj : forall t1 t2 r1 r2,
  leaves printable t1 -> leaves printable t2 ->
  follows r1 -> follows r2 ->
  text t1 ++ r1 = text t2 ++ r2 -> t1 = t2 /\ r1 = r2.
Proof.
  induction t1 as [c1 | l1 IHl r1' IHr]; intros t2 r1 r2 H1 H2 F1 F2 E.
  - destruct t2 as [c2 | l2 r2'].
    + cbn [leaves] in H1, H2. unfold printable in H1, H2.
      repeat destruct H1 as [H1|H1]; subst c1;
      repeat destruct H2 as [H2|H2]; subst c2;
      vm_compute in E; inversion E; subst; auto;
      cbn [follows] in *; exfalso; intuition congruence.
    + cbn [leaves] in H1, H2. destruct H2 as [Hl Hr].
      destruct (text_starts l2 (text r2' ++ r2) Hl) as (x & rest & Ex & Hx).
      cbn [text app] in E. rewrite <- app_assoc, Ex in E.
      unfold printable in H1.
      repeat destruct H1 as [H1|H1]; subst c1;
      vm_compute in E; inversion E; subst;
      repeat destruct Hx as [Hx|Hx]; discriminate.
  - destruct t2 as [c2 | l2 r2'].
    + cbn [leaves] in H1, H2. destruct H1 as [Hl Hr].
      destruct (text_starts l1 (text r1' ++ r1) Hl) as (x & rest & Ex & Hx).
      cbn [text app] in E. rewrite <- app_assoc, Ex in E.
      unfold printable in H2.
      repeat destruct H2 as [H2|H2]; subst c2;
      vm_compute in E; inversion E; subst;
      repeat destruct Hx as [Hx|Hx]; discriminate.
    + cbn [leaves] in H1, H2. destruct H1 as [Hl1 Hr1], H2 as [Hl2 Hr2].
      cbn [text app] in E. injection E as E. rewrite <- !app_assoc in E.
      destruct (IHl l2 _ _ Hl1 Hl2 (text_follows _ _ Hr1)
                  (text_follows _ _ Hr2) E) as [-> E'].
      destruct (IHr r2' _ _ Hr1 Hr2 F1 F2 E') as [-> ->].
      auto.
Qed.

(** X25: [unparse] appends to the output the term of a graph in prefix
    notation: a backquote before the two parts of an application,
    [S K I B C S' B* C'] for the combinators and [`ki] for [KI], a
    question mark for any other cell; it changes nothing else.  Terms
    built from these nine combinators have different texts. *)
Theorem unparse_prints :
  (forall t fuel e s,
     unfolds s e t -> size t <= Z.of_nat fuel ->
     unparse fuel e s = Ok tt (set_output (output s ++ text t) s)) /\
  (forall t1 t2,
     leaves printable t1 -> leaves printable t2 ->
     text t1 = text t2 -> t1 = t2).
Proof.
  split.
  - exact unparse_text.
  - intros t1 t2 H1 H2 E.
    apply (text_inj t1 t2 [] [] H1 H2 I I). rewrite !app_nil_r. exact E.
Qed.

Lemma unparse_prints_witness :
  exists s',
    unparse 8 4104 demo_print = Ok tt s' /\
    output s' = map chr ["`"; "`"; "S"; "K"; "`"; "k"; "i"]%char.
Proof.
  eexists. split.
  - apply (proj1 unparse_prints (Leaf COMB_S · Leaf COMB_K · Leaf COMB_KI)).
    + apply unfolds_check_sound. vm_compute. reflexivity.
    + vm_compute. discriminate.
  - reflexivity.
Defined.

Lemma charof_mkchar n : 0 <= n < 2 ^ 28 -> charof (mkchar n) = n.
Proof.
  intros H.
  assert (E : mkchar n = n * 8 + 3).
  { unfold mkchar, CELL, WORD. rewrite Z.shiftl_mul_pow2 by lia.
    apply Z.mod_small. lia. }
  unfold charof, to_int. rewrite E.
  rewrite (Z.mod_small (n * 8 + 3) WORD) by (unfold WORD; lia).
  destruct (Z.ltb_spec (n * 8 + 3) (2 ^ 31)); [|lia].
  rewrite Z.shiftr_div_pow2 by lia.
  replace (n * 8 + 3) with (3 + n * 2 ^ 3) by lia.
  rewrite Z.div_add by lia. reflexivity.
Qed.

(** The turns of the loop, as steps of [eval_loop]. *)
Lemma eval_loop_continue fuel bottom s s1 :
  (unspine fuel;; reduce fuel (eval fuel) bottom) s = Ok Continue s1 ->
  eval_loop (S fuel) bottom s
  = eval_loop fuel bottom (set_reductions (int32 (reductions s1 + 1)) s1).
Proof.
  intros H. apply bind_Ok in H as (u & s0 & Hu & Hr).
  cbn [eval_loop].
  rewrite (bind_Ok_intro _ _ _ _ _ Hu).
  change (fun root => let* b := get sp in rs_push root;; eval_loop fuel b)
    with (eval fuel).
  rewrite (bind_Ok_intro _ _ _ _ _ Hr). reflexivity.
Qed.

Lemma eval_loop_return fuel bottom s s1 :
  (unspine fuel;; reduce fuel (eval fuel) bottom) s = Ok Return s1 ->
  eval_loop (S fuel) bottom s = Ok tt s1.
Proof.
  intros H. apply bind_Ok in H as (u & s0 & Hu & Hr).
  cbn [eval_loop].
  rewrite (bind_Ok_intro _ _ _ _ _ Hu).
  change (fun root => let* b := get sp in rs_push root;; eval_loop fuel b)
    with (eval fuel).
  rewrite (bind_Ok_intro _ _ _ _ _ Hr). reflexivity.
Qed.

(** The turn for a character at the head of [r = (q, z)], [q = (c, f)]. *)
Lemma turn_char fuel ev bottom s r q c st :
  rd_stack s = r :: st ->
  ispair r = true -> ispair q = true -> ischar c = true ->
  car s r = q -> car s q = c ->
  r < free_ptr s -> q < free_ptr s ->
  bottom - sp s > 0 ->
  (2 < fuel)%nat ->
  Z.of_nat (length (rd_stack s)) + 2 <= RDSTACK_SIZE ->
  aligned (free_ptr s) ->
  (0 < charof c -> padd (free_ptr s) 2 <= heap_area s) ->
  exists s1,
    (unspine fuel;; reduce fuel ev bottom) s = Ok Continue s1 /\
    rd_stack s1 = r :: st /\
    (charof c <= 0 ->
       car s1 r = COMB_I /\ cdr s1 r = cdr s r /\ free_ptr s1 = free_ptr s) /\
    (0 < charof c ->
       car s1 r = cdr s q /\ cdr s1 r = padd (free_ptr s) 1 /\
       car s1 (padd (free_ptr s) 1) = free_ptr s /\
       cdr s1 (padd (free_ptr s) 1) = cdr s r /\
       car s1 (free_ptr s) = mkchar (int32 (charof c - 1)) /\
       cdr s1 (free_ptr s) = cdr s q /\
       free_ptr s1 = padd (free_ptr s) 2) /\
    (forall x, x < free_ptr s -> x <> r ->
               car s1 x = car s x /\ cdr s1 x = cdr s x) /\
    heap_area s1 = heap_area s /\
    input s1 = input s /\ output s1 = output s.
Proof.
  intros Hst Pr Pq Hc Hr Hq Br Bq Hd Hfuel Hroom Hal Hheap.
  erewrite bind_Ok_intro.
  2: { apply (unspine_spine 2%nat _ _ _ _ Hst); [|lia|lia].
       cbn [is_spine]. rewrite Hr, Hq. auto using ischar_not_pair. }
  cbn [spine]. rewrite Hr, Hq.
  unfold reduce; exec.
  repeat rewrite (ischar_neq c _ Hc) by reflexivity. cbn [andb].
  rewrite Hc, sp_depth by (unfold sp in *; regs; rewrite Hst in *; arith).
  cbn [andb]. unfold reduce_char.
  assert (Hne : padd (free_ptr s) 1 <> free_ptr s)
    by (unfold padd, PAIR_SIZE; lia).
  destruct (Z.leb_spec (charof c) 0) as [Hz|Hz];
    [|specialize (Hheap Hz)]; exec.
  - eexists. split; [reflexivity|]. split; [regs; reflexivity|].
    split; [intros _; splits; cells|].
    split; [intros; lia|].
    split; [intros; split; cells|].
    splits; reflexivity.
  - eexists. split; [reflexivity|]. split; [regs; reflexivity|].
    split; [intros; lia|].
    split; [intros _; splits; cells|].
    split; [intros; split; cells|].
    splits; reflexivity.
Qed.

Lemma set_rd_stack_same s l : rd_stack s = l -> set_rd_stack (fun _ => l) s = s.
Proof. intros <-. destruct s; reflexivity. Qed.

Lemma set_rd_stack_twice f g s :
  set_rd_stack f (set_rd_stack g s) = set_rd_stack (fun st => f (g st)) s.
Proof. destruct s; reflexivity. Qed.

(** The turn for [I] at the head of [r = (I, x)]. *)
Lemma turn_I_any fuel ev bottom s r st :
  rd_stack s = r :: st -> ispair r = true -> car s r = COMB_I ->
  bottom - sp s > 0 -> (1 < fuel)%nat ->
  Z.of_nat (length (rd_stack s)) + 1 <= RDSTACK_SIZE ->
  (unspine fuel;; reduce fuel ev bottom) s
  = Ok Continue (set_rd_stack (fun _ => cdr s r :: st) s).
Proof.
  intros Hst Pr Hr Hd Hfuel Hroom.
  erewrite bind_Ok_intro.
  2: { apply (unspine_spine 1%nat _ _ _ _ Hst); [|lia|lia].
       cbn [is_spine]. rewrite Hr. auto. }
  cbn [spine]. rewrite Hr.
  unfold reduce; exec. pick_rule.
  rewrite sp_depth by (unfold sp in *; regs; rewrite Hst in *; arith).
  exec. reflexivity.
Qed.

(** The turn for [INC] at the head of [r = (INC, x)], the nested [eval]
    of [x] leaving the Int [v]. *)
Lemma turn_INC fuel ev bottom s s2 r v st :
  rd_stack s = r :: st -> ispair r = true -> car s r = COMB_INC ->
  bottom - sp s > 0 -> (1 < fuel)%nat ->
  Z.of_nat (length (rd_stack s)) + 1 <= RDSTACK_SIZE ->
  ev (cdr s r) s = Ok tt s2 ->
  rd_stack s2 = v :: r :: st -> isint v = true ->
  (unspine fuel;; reduce fuel ev bottom) s
  = Ok Continue (SET r COMB_I (mkint (intof v + 1))
                   (set_rd_stack (fun _ => r :: st) s2)).
Proof.
  intros Hst Pr Hr Hd Hfuel Hroom Hev Hst2 Hv.
  erewrite bind_Ok_intro.
  2: { apply (unspine_spine 1%nat _ _ _ _ Hst); [|lia|lia].
       cbn [is_spine]. rewrite Hr. auto. }
  cbn [spine]. rewrite Hr.
  rewrite (reduce_at_INC fuel ev bottom _ (r :: st))
    by (regs; try reflexivity; unfold sp in *; regs; rewrite Hst in *; arith).
  unfold reduce_INC. exec.
  rewrite set_rd_stack_twice. cbn [drop].
  rewrite (set_rd_stack_same s (r :: st) Hst).
  rewrite (bind_Ok_intro _ _ _ _ _ Hev).
  rewrite (bind_Ok_intro _ _ _ _ _ (POP_ok v (r :: st) s2 Hst2)).
  rewrite Hv. cbn [negb]. rewrite bind_ret. unfold TOP.
  erewrite bind_Ok_intro
    by (apply (PUSHED_ok 0 r); regs; rewrite Hst2; reflexivity).
  rewrite bind_modify, mkint_int32.
  unfold ret. f_equal. f_equal. destruct s2; cbn in *. subst. reflexivity.
Qed.

(** The turn on a head that is no Pair and lacks arguments. *)
Lemma turn_return fuel ev bottom s v st :
  rd_stack s = v :: st -> ispair v = false ->
  (forall n, arity v = Some n -> bottom - sp s <= n) ->
  (0 < fuel)%nat ->
  (unspine fuel;; reduce fuel ev bottom) s = Ok Return s.
Proof.
  intros Hst Pv Har Hfuel. destruct fuel as [|fuel]; [lia|].
  rewrite (bind_Ok_intro _ _ _ _ _ (unspine_stop fuel s v st Hst Pv)).
  exact (reduce_returns (S fuel) ev bottom s v st Hst Har).
Qed.

Lemma car_set_reductions n s c : car (set_reductions n s) c = car s c.
Proof. reflexivity. Qed.
Lemma cdr_set_reductions n s c : cdr (set_reductions n s) c = cdr s c.
Proof. reflexivity. Qed.

Ltac counted :=
  regs;
  repeat first
    [ rewrite car_set_reductions | rewrite cdr_set_reductions
    | rewrite car_set_rd_stack | rewrite cdr_set_rd_stack ].

Lemma ischar_int c : isint c = true -> ischar c = false.
Proof.
  unfold ischar, isint. intros Hi. apply Z.eqb_eq in Hi. apply Z.eqb_neq.
  destruct (tags_mod8 c) as (T & L & _). rewrite T in Hi. rewrite L.
  intros E. rewrite E in Hi. discriminate.
Qed.

Lemma int_returns bottom s n st :
  rd_stack s = mkint n :: st -> bottom - sp s <= 1 ->
  forall k, arity (mkint n) = Some k -> bottom - sp s <= k.
Proof.
  intros Hst Hd k Hk.
  rewrite (arity_int _ (isint_mkint n) (ischar_int _ (isint_mkint n))) in Hk.
  injection Hk as <-. exact Hd.
Qed.

(** [CHAR(n) INC 0], evaluated, leaves the Int [n]: [r] is the Pair of
    the application to [0], [q] that of the application to [INC]. *)
Lemma eval_char : forall (n : nat) fuel s r q lo,
  Z.of_nat n <= 256 ->
  (2 * n + 6 <= fuel)%nat ->
  ispair r = true -> ispair q = true ->
  lo <= r < free_ptr s -> lo <= q < free_ptr s ->
  car s r = q -> cdr s r = mkint 0 ->
  car s q = mkchar (Z.of_nat n) -> cdr s q = COMB_INC ->
  aligned (free_ptr s) ->
  padd (free_ptr s) (2 * Z.of_nat n) <= heap_area s ->
  Z.of_nat (length (rd_stack s)) + Z.of_nat n + 3 <= RDSTACK_SIZE ->
  exists s',
    eval fuel r s = Ok tt s' /\
    rd_stack s' = mkint (Z.of_nat n) :: rd_stack s /\
    input s' = input s /\ output s' = output s /\
    heap_area s' = heap_area s /\
    aligned (free_ptr s') /\ free_ptr s <= free_ptr s' /\
    (forall c, c < lo -> car s' c = car s c /\ cdr s' c = cdr s c).
Proof.
  induction n as [|m IH];
    intros fuel s r q lo Hn Hfuel Pr Pq Br Bq Hr Hz Hq Hf Hal Hheap Hroom.
  - (* CHAR(0) f z -> z *)
    destruct fuel as [|[|[|f3]]]; try lia.
    unfold eval. rewrite bind_get.
    rewrite (bind_Ok_intro _ _ _ _ _ (rs_push_ok r s ltac:(lia))).
    set (s0 := set_rd_stack (fun st => r :: st) s).
    destruct (turn_char (S (S f3)) (eval (S (S f3))) (sp s) s0 r q
                (mkchar 0) (rd_stack s))
      as (s1 & H1 & Hst1 & Hzero & _ & Hsame1 & Hha1 & Hin1 & Hout1);
      try assumption; try reflexivity;
      try (subst s0; unfold sp; regs; cbn [length]; lia);
      try (rewrite charof_mkchar; lia).
    destruct Hzero as (Hcar1 & Hcdr1 & Hfp1);
      [rewrite charof_mkchar; lia|].
    rewrite (eval_loop_continue _ _ _ _ H1).
    set (s1' := set_reductions (int32 (reductions s1 + 1)) s1).
    rewrite (eval_loop_continue _ _ s1' _
               (turn_I_any (S f3) _ (sp s) s1' r (rd_stack s) Hst1 Pr Hcar1
                  ltac:(unfold sp; subst s1'; regs; rewrite Hst1; cbn [length]; lia)
                  ltac:(lia)
                  ltac:(subst s1'; regs; rewrite Hst1; cbn [length]; lia))).
    set (s2 := set_rd_stack (fun _ => cdr s1' r :: rd_stack s) s1').
    set (s2' := set_reductions (int32 (reductions s2 + 1)) s2).
    assert (Hst2 : rd_stack s2' = mkint 0 :: rd_stack s).
    { subst s2' s2 s1'. counted. rewrite Hcdr1. subst s0. counted.
      rewrite Hz. reflexivity. }
    rewrite (eval_loop_return _ _ s2' s2'
               (turn_return f3 _ (sp s) s2' (mkint 0) (rd_stack s) Hst2
                  (ispair_mkint 0)
                  (int_returns (sp s) s2' 0 (rd_stack s) Hst2
                     ltac:(unfold sp; rewrite Hst2; cbn [length]; lia))
                  ltac:(lia))).
    exists s2'. split; [reflexivity|]. split; [exact Hst2|].
    subst s2' s2 s1'. counted.
    rewrite Hin1, Hout1, Hha1, Hfp1. subst s0. counted.
    splits; try reflexivity; try assumption; try lia.
    intros c Hc. counted. apply Hsame1; lia.
  - (* CHAR(m+1) f z -> f (CHAR(m) f z) *)
    destruct fuel as [|[|[|[|f4]]]]; try lia.
    unfold eval. rewrite bind_get.
    rewrite (bind_Ok_intro _ _ _ _ _ (rs_push_ok r s ltac:(lia))).
    set (s0 := set_rd_stack (fun st => r :: st) s).
    assert (Hch : charof (mkchar (Z.of_nat (S m))) = Z.of_nat (S m))
      by (apply charof_mkchar; lia).
    destruct (turn_char (S (S (S f4))) (eval (S (S (S f4)))) (sp s) s0 r q
                (mkchar (Z.of_nat (S m))) (rd_stack s))
      as (s1 & H1 & Hst1 & _ & Hsucc & Hsame1 & Hha1 & Hin1 & Hout1);
      try assumption; try reflexivity;
      try (subst s0; unfold sp; regs; cbn [length]; lia);
      try apply ischar_mkchar.
    { intros _. subst s0. regs. unfold padd, PAIR_SIZE in *. lia. }
    destruct Hsucc as (Hcar1 & Hcdr1 & Hcar1b & Hcdr1b & Hcar1a & Hcdr1a & Hfp1);
      [lia|].
    rewrite Hch in Hcar1a.
    replace (Z.of_nat (S m) - 1) with (Z.of_nat m) in Hcar1a by lia.
    rewrite int32_small in Hcar1a by lia.
    change (cdr s0 q) with (cdr s q) in *.
    change (cdr s0 r) with (cdr s r) in *.
    change (free_ptr s0) with (free_ptr s) in *.
    change (heap_area s0) with (heap_area s) in *.
    change (input s0) with (input s) in *.
    change (output s0) with (output s) in *.
    rewrite Hf in Hcar1, Hcdr1a. rewrite Hz in Hcdr1b.
    rewrite (eval_loop_continue _ _ _ _ H1).
    set (s1' := set_reductions (int32 (reductions s1 + 1)) s1).
    (* the nested eval *)
    destruct (IH (S (S f4)) s1' (padd (free_ptr s) 1) (free_ptr s) lo)
      as (s2 & Hev & Hst2 & Hin2 & Hout2 & Hha2 & Hal2 & Hfp2 & Hsame2);
      try (subst s1'; counted; assumption); try lia.
    { apply aligned_ispair, aligned_padd, Hal. }
    { apply aligned_ispair, Hal. }
    { subst s1'. counted. rewrite Hfp1. unfold padd, PAIR_SIZE. lia. }
    { subst s1'. counted. rewrite Hfp1. unfold padd, PAIR_SIZE. lia. }
    { subst s1'. counted. rewrite Hfp1. auto using aligned_padd. }
    { subst s1'. counted. rewrite Hfp1, Hha1. unfold padd, PAIR_SIZE in *. lia. }
    { subst s1'. counted. rewrite Hst1. cbn [length]. lia. }
    assert (Hst1' : rd_stack s1' = r :: rd_stack s) by exact Hst1.
    rewrite Hst1' in Hst2.
    assert (Hcdr1' : cdr s1' r = padd (free_ptr s) 1) by exact Hcdr1.
    rewrite <- Hcdr1' in Hev.
    rewrite (eval_loop_continue _ _ s1' _
               (turn_INC (S (S f4)) _ (sp s) s1' s2 r (mkint (Z.of_nat m))
                  (rd_stack s) Hst1' Pr Hcar1
                  ltac:(unfold sp; rewrite Hst1'; cbn [length]; lia)
                  ltac:(lia)
                  ltac:(rewrite Hst1'; cbn [length]; lia)
                  Hev Hst2 (isint_mkint _))).
    rewrite intof_mkint by lia.
    replace (Z.of_nat m + 1) with (Z.of_nat (S m)) by lia.
    set (s3 := SET r COMB_I (mkint (Z.of_nat (S m)))
                 (set_rd_stack (fun _ => r :: rd_stack s) s2)).
    set (s3' := set_reductions (int32 (reductions s3 + 1)) s3).
    assert (Hst3 : rd_stack s3' = r :: rd_stack s) by reflexivity.
    assert (Hcar3 : car s3' r = COMB_I)
      by (subst s3' s3; counted; apply car_SET_eq).
    assert (Hcdr3 : cdr s3' r = mkint (Z.of_nat (S m)))
      by (subst s3' s3; counted; apply cdr_SET_eq).
    rewrite (eval_loop_continue _ _ s3' _
               (turn_I_any (S f4) _ (sp s) s3' r (rd_stack s) Hst3 Pr Hcar3
                  ltac:(unfold sp; rewrite Hst3; cbn [length]; lia)
                  ltac:(lia)
                  ltac:(rewrite Hst3; cbn [length]; lia))).
    rewrite Hcdr3.
    set (s4 := set_rd_stack (fun _ => mkint (Z.of_nat (S m)) :: rd_stack s)
                 s3').
    set (s4' := set_reductions (int32 (reductions s4 + 1)) s4).
    assert (Hst4 : rd_stack s4' = mkint (Z.of_nat (S m)) :: rd_stack s)
      by reflexivity.
    rewrite (eval_loop_return _ _ s4' s4'
               (turn_return f4 _ (sp s) s4' _ (rd_stack s) Hst4
                  (ispair_mkint _)
                  (int_returns (sp s) s4' _ (rd_stack s) Hst4
                     ltac:(unfold sp; rewrite Hst4; cbn [length]; lia))
                  ltac:(lia))).
    exists s4'. split; [reflexivity|]. split; [exact Hst4|].
    assert (Hne : forall c, c < lo -> c <> r) by (intros; lia).
    subst s4' s4 s3' s3. counted.
    rewrite Hin2, Hout2, Hha2. subst s1'. counted.
    rewrite Hin1, Hout1, Hha1, Hfp1 in *.
    splits; try reflexivity; try assumption.
    + unfold padd, PAIR_SIZE in *. lia.
    + intros c Hc. counted.
      rewrite car_SET_ne, cdr_SET_ne by (apply Hne, Hc). counted.
      destruct (Hsame2 c Hc) as [-> ->]. counted.
      apply Hsame1; [lia | apply Hne, Hc].
Qed.

Lemma car_set_output o s c : car (set_output o s) c = car s c.
Proof. reflexivity. Qed.
Lemma cdr_set_output o s c : cdr (set_output o s) c = cdr s c.
Proof. reflexivity. Qed.

(** X26: the [PUTC] rule on a character.  With [PUTC x y i] on the stack
    and [x] the character [CHAR(b)], [b <= 256], the rule builds
    [x INC 0], whose nested evaluation counts [b] up from [0]; for
    [b < 256] the byte [b] is appended to the output, the input is left
    alone and the redex becomes [WRITE y]; for [b = 256] the run exits
    on the invalid character 256 with nothing written.  The heap has
    room for the [2 + 2b] Pairs and the stack for the [b] nested
    evaluations. *)
Theorem PUTC_character (fuel : nat) (bottom : Z) (s : state)
    (n1 n2 n3 : Cell) (rest : list Cell) (b : nat) :
  rd_stack s = COMB_PUTC :: n1 :: n2 :: n3 :: rest ->
  bottom - sp s > 3 ->
  cdr s n1 = mkchar (Z.of_nat b) -> Z.of_nat b <= 256 ->
  n2 < free_ptr s ->
  aligned (free_ptr s) ->
  padd (free_ptr s) (2 + 2 * Z.of_nat b) <= heap_area s ->
  Z.of_nat (length (rd_stack s)) + Z.of_nat b + 1 <= RDSTACK_SIZE ->
  (2 * b + 6 <= fuel)%nat ->
  exists s',
    reduce fuel (eval fuel) bottom s
    = (if Z.of_nat b <? 256 then Ok Continue s'
       else Exit (Err_invalid_character 256) s') /\
    output s'
    = (if Z.of_nat b <? 256 then output s ++ [Z.of_nat b] else output s) /\
    input s' = input s /\
    (Z.of_nat b < 256 ->
     rd_stack s' = n3 :: rest /\
     car s' n3 = COMB_WRITE /\ cdr s' n3 = cdr s n2).
Proof.
  intros Hst Hd Hx Hb B2 Hal Hheap Hroom Hfuel.
  rewrite (reduce_at_PUTC fuel _ bottom s _ Hst Hd). unfold reduce_PUTC.
  assert (Hlen : length (rd_stack s) = S (S (S (S (length rest)))))
    by (rewrite Hst; reflexivity).
  rewrite (bind_Ok_intro _ _ _ _ _
             (reduce_PUTC_start_spec fuel s COMB_PUTC n1 (n2 :: n3 :: rest) Hst
                ltac:(lia)
                ltac:(unfold padd, PAIR_SIZE in *; lia))).
  rewrite Hx.
  set (s1 := set_rd_stack _ _).
  assert (Hne : padd (free_ptr s) 1 <> free_ptr s)
    by (unfold padd, PAIR_SIZE; lia).
  assert (Hst1 : rd_stack s1 = n2 :: n3 :: rest)
    by (subst s1; regs; rewrite Hst; reflexivity).
  destruct (eval_char b fuel s1 (padd (free_ptr s) 1) (free_ptr s)
              (free_ptr s))
    as (s2 & Hev & Hst2 & Hin2 & Hout2 & Hha2 & Hal2 & Hfp2 & Hsame2);
    try assumption.
  - apply aligned_ispair, aligned_padd, Hal.
  - apply aligned_ispair, Hal.
  - subst s1. regs. unfold padd, PAIR_SIZE. lia.
  - subst s1. regs. unfold padd, PAIR_SIZE. lia.
  - subst s1. cells.
  - subst s1. cells.
  - subst s1. cells.
  - subst s1. cells.
  - subst s1. regs. apply aligned_padd, Hal.
  - subst s1. regs. unfold padd, PAIR_SIZE in *. lia.
  - rewrite Hst1. cbn [length]. lia.
  - rewrite (bind_Ok_intro _ _ _ _ _ Hev). rewrite Hst1 in Hst2.
    rewrite (reduce_PUTC_finish_spec s2 _ n2 n3 rest Hst2).
    rewrite isint_mkint, intof_mkint by lia. cbn [negb].
    destruct (Z.ltb_spec (Z.of_nat b) 256) as [Hlt|Hge].
    + destruct (Z.geb_spec (Z.of_nat b) 256) as [?|_]; [lia|].
      eexists. split; [reflexivity|].
      rewrite Z.mod_small by lia.
      split; [regs; rewrite Hout2; reflexivity|].
      split; [regs; rewrite Hin2; reflexivity|].
      intros _. split; [regs; rewrite Hst2; reflexivity|].
      destruct (Hsame2 n2 B2) as [_ E]. rewrite E.
      split; cells. subst s1. cells.
    + destruct (Z.geb_spec (Z.of_nat b) 256) as [_|?]; [|lia].
      replace (Z.of_nat b) with 256 by lia.
      exists s2. split; [reflexivity|].
      split; [rewrite Hout2; reflexivity|].
      split; [rewrite Hin2; reflexivity|]. lia.
Qed.

Lemma PUTC_character_witness :
  exists s',
    reduce 136 (eval 136) RDSTACK_SIZE (at_PUTC (mkchar 65)) = Ok Continue s' /\
    output s' = [65] /\ input s' = input (at_PUTC (mkchar 65)) /\
    rd_stack s' = [4112] /\ car s' 4112 = COMB_WRITE /\ cdr s' 4112 = NIL.
Proof.
  destruct
    (PUTC_character 136 RDSTACK_SIZE (at_PUTC (mkchar 65)) 4096 4104 4112 []
       65
       ltac:(vm_compute; reflexivity) ltac:(vm_compute; reflexivity)
       ltac:(vm_compute; reflexivity) ltac:(vm_compute; discriminate)
       ltac:(vm_compute; reflexivity) ltac:(vm_compute; reflexivity)
       ltac:(vm_compute; discriminate) ltac:(vm_compute; discriminate)
       ltac:(lia))
    as (s' & Hred & Hout & Hin & Hrest).
  destruct (Hrest ltac:(lia)) as (Hst & Hcar & Hcdr).
  exists s'.
  repeat split;
    [exact Hred | exact Hout | exact Hin | exact Hst | exact Hcar | exact Hcdr].
Defined.

#[local] Instance quiet_preorder : PreOrder quiet.
Proof.
  split.
  - intros s. split; reflexivity.
  - intros s1 s2 s3. unfold quiet. intuition congruence.
Qed.

Section LoaderKeeps.

Context (R : state -> state -> Prop) `{!PreOrder R}.
(** What the loader writes: what the collector writes, the input
    stream, and the stack. *)
Hypothesis R_mem : forall f s, R s (set_mem f s).
Hypothesis R_free_ptr : forall p s, R s (set_free_ptr p s).
Hypothesis R_heap_area : forall p s, R s (set_heap_area p s).
Hypothesis R_free_area : forall p s, R s (set_free_area p s).
Hypothesis R_brk : forall s p, brk s <= p -> R s (set_brk p s).
Hypothesis R_stack : forall f s, R s (set_rd_stack f s).
Hypothesis R_heap_size : forall n s, R s (set_heap_size n s).
Hypothesis R_next :
  forall n s, next_heap_size s <= n -> R s (set_next_heap_size n s).
Hypothesis R_input : forall i s, R s (set_input i s).

Lemma keeps_pair_loader fuel a b : keeps R (pair fuel a b).
Proof. apply keeps_pair; auto. Qed.

Lemma keeps_push_loader c : keeps R (rs_push c).
Proof. apply keeps_rs_push; auto. Qed.

Lemma keeps_DROP_loader n : keeps R (DROP n).
Proof. apply keeps_DROP; auto. Qed.

Lemma keeps_POP_loader : keeps R POP.
Proof.
  pose proof keeps_DROP_loader. unfold POP. keeps_auto.
Qed.

Lemma keeps_set_PUSHED_loader n c : keeps R (set_PUSHED n c).
Proof. apply keeps_set_PUSHED; auto. Qed.

Hint Resolve keeps_pair_loader keeps_push_loader keeps_DROP_loader
  keeps_POP_loader keeps_set_PUSHED_loader : core.

Lemma keeps_read_char : keeps R read_char.
Proof.
  unfold read_char. keeps_auto.
Qed.

Lemma keeps_read_bit : keeps R read_bit.
Proof. pose proof keeps_read_char. unfold read_bit. keeps_auto. Qed.

Lemma keeps_read_index fuel : forall i, keeps R (read_index fuel i).
Proof.
  pose proof keeps_read_bit.
  induction fuel as [|fuel IH]; intros i; simpl; keeps_auto.
Qed.

Lemma keeps_parse fuel : keeps R (parse fuel).
Proof.
  pose proof keeps_read_bit.
  induction fuel as [|fuel IH]; simpl; [keeps_auto|].
  pose proof (keeps_read_index fuel). keeps_auto.
Qed.

Lemma keeps_unabstract_combine fuel f g :
  keeps R (unabstract_combine fuel f g).
Proof. unfold unabstract_combine. keeps_auto. Qed.

Lemma keeps_unabstract fuel : forall t, keeps R (unabstract fuel t).
Proof.
  induction fuel as [|fuel IH]; intros t; simpl; [keeps_auto|].
  pose proof (keeps_unabstract_combine fuel). keeps_auto.
Qed.

Lemma keeps_translate fuel : forall t, keeps R (translate fuel t).
Proof.
  induction fuel as [|fuel IH]; intros t; simpl; [keeps_auto|].
  pose proof (keeps_unabstract fuel). keeps_auto.
Qed.

Lemma keeps_load_program fuel : keeps R (load_program fuel).
Proof.
  pose proof (keeps_parse fuel). pose proof (keeps_translate fuel).
  unfold load_program. keeps_auto.
Qed.

End LoaderKeeps.

Lemma load_program_quiet fuel : keeps quiet (load_program fuel).
Proof. apply (keeps_load_program quiet); intros; split; reflexivity. Qed.

(** X27: loading the program writes nothing and counts no reduction,
    however it ends: on return, on an error exit (end of input in the
    middle of a term, a file that cannot be opened, no room) and on a
    failed assertion, the output and the count of reductions are those
    of the start. *)
Theorem load_program_writes_nothing (fuel : nat) (s : state) :
  match load_program fuel s with
  | Ok _ s' | Exit _ s' | AssertFail s' =>
      output s' = output s /\ reductions s' = reductions s
  | Undefined | OutOfFuel => True
  end.
Proof. exact (load_program_quiet fuel s). Qed.








(** * The loader and the room it takes *)


Lemma parse_pairs_nonneg T : 0 <= parse_pairs T.
Proof. induction T; cbn [parse_pairs]; lia. Qed.

Lemma parse_slots_nonneg T : 0 <= parse_slots T.
Proof. induction T; cbn [parse_slots]; lia. Qed.

(** [parse] with the room it takes and no more. *)
Lemma parse_exact :
  forall T fuel s bs,
    input_ok s -> next_bits s = encode T ++ bs ->
    bits T <= Z.of_nat fuel ->
    aligned (free_ptr s) ->
    padd (free_ptr s) (parse_pairs T) <= heap_area s ->
    Z.of_nat (length (rd_stack s)) + parse_slots T <= RDSTACK_SIZE ->
    total (parse fuel) s
      (parsed (free_ptr s) (parse_pairs T) s bs (tree_of T)).
Proof.
  unfold bits.
  induction T as [k | f IHf g IHg | b IHb];
    intros fuel s bs Hok Hbits Hfuel Hal Hroom Hstack;
    (destruct fuel as [|fuel]; [simpl in Hfuel; lia|]);
    cbn [encode app] in Hbits;
    destruct (read_bit_spec _ _ _ Hok Hbits) as (i1 & Hrb1 & Hnext1 & Hok1);
    cbn [parse]; apply total_bind;
    (eapply total_eq; [exact Hrb1|]).
  - change (negb (1 =? 0)) with true. cbv iota.
    rewrite <- app_assoc in Hnext1. cbn [app] in Hnext1.
    cbn [encode length] in Hfuel. rewrite length_app, repeat_length in Hfuel.
    cbn [length] in Hfuel.
    destruct (read_index_spec k fuel 0 _ bs Hok1 Hnext1 ltac:(lia))
      as (i2 & r & Hri & Hr & Hnext2 & Hok2).
    apply total_bind. eapply total_eq; [exact Hri|].
    apply total_ret. exists ∅. cbn [tree_of parse_pairs].
    rewrite (mkint_cong r (Z.of_nat k)) by (rewrite Hr; f_equal; lia).
    regs. splits; auto; try (unfold padd, PAIR_SIZE in *; lia).
    + apply repr_Leaf, ispair_mkint.
    + apply within_empty.
  - change (negb (0 =? 0)) with false. cbv iota.
    destruct (read_bit_spec _ _ _ Hok1 Hnext1) as (i2 & Hrb2 & Hnext2 & Hok2).
    apply total_bind. eapply total_eq; [exact Hrb2|].
    change (negb (1 =? 0)) with true. cbv iota.
    cbn [encode length parse_pairs parse_slots] in *. rewrite length_app in *.
    rewrite <- app_assoc in Hnext2.
    pose proof (parse_pairs_nonneg f) as Pf.
    pose proof (parse_pairs_nonneg g) as Pg.
    pose proof (parse_slots_nonneg f) as Sf.
    pose proof (parse_slots_nonneg g) as Sg.
    set (s2 := set_input i2 (set_input i1 s)) in *.
    apply total_bind.
    eapply total_weaken.
    { eapply (IHf fuel s2 _ Hok2 Hnext2); subst s2; regs;
        try assumption; try (unfold padd, PAIR_SIZE in *; lia). }
    intros c1 s3 (F1 & Hc1 & W1 & Hfp3 & Hal3 & Hm3 & Hha3 & Hst3 & Hnext3 & Hok3).
    subst s2; regs.
    apply total_bind. eapply total_eq;
      [apply rs_push_ok; rewrite Hst3; lia|].
    set (s4 := set_rd_stack _ s3).
    apply total_bind.
    eapply total_weaken.
    { eapply (IHg fuel s4 bs); subst s4; regs;
        try assumption; try (unfold padd, PAIR_SIZE in *; lia).
      rewrite Hst3. cbn [length]. lia. }
    intros c2 s5 (F2 & Hc2 & W2 & Hfp5 & Hal5 & Hm5 & Hha5 & Hst5 & Hnext5 & Hok5).
    subst s4; regs.
    apply total_bind. eapply total_eq;
      [apply (PUSHED_ok 0 c1); rewrite Hst5; reflexivity|].
    apply total_bind. eapply total_eq;
      [apply pair_bump; unfold padd, PAIR_SIZE in *; lia|].
    apply total_bind. eapply total_eq;
      [apply (POP_ok c1 (rd_stack s3)); regs; exact Hst5|].
    apply total_ret.
    assert (Hc1' : repr s5 c1 (tree_of f) F1).
    { eapply (repr_within _ _ _ _ _ _ Hc1 W1). intros a Ha'. apply Hm5. lia. }
    eexists. split.
    { cbn [tree_of].
      apply repr_Node; [apply aligned_ispair; exact Hal5| | | | |].
      - repr_solve.
      - repr_solve.
      - eapply within_disjoint; [exact W1 | exact W2].
      - set_arith.
      - set_arith. }
    regs.
    splits; auto; try (unfold padd, PAIR_SIZE in *; lia); try congruence.
    + within_solve.
    + apply (aligned_padd _ 1). exact Hal5.
    + intros a Ha'. mem_frame. rewrite Hm5, Hm3 by lia. reflexivity.
    + rewrite Hst5. simpl. exact Hst3.
  - change (negb (0 =? 0)) with false. cbv iota.
    destruct (read_bit_spec _ _ _ Hok1 Hnext1) as (i2 & Hrb2 & Hnext2 & Hok2).
    apply total_bind. eapply total_eq; [exact Hrb2|].
    change (negb (0 =? 0)) with false. cbv iota.
    cbn [encode length parse_pairs parse_slots] in *.
    pose proof (parse_pairs_nonneg b) as Pb.
    set (s2 := set_input i2 (set_input i1 s)) in *.
    apply total_bind.
    eapply total_weaken.
    { eapply (IHb fuel s2 _ Hok2 Hnext2); subst s2; regs;
        try assumption; try (unfold padd, PAIR_SIZE in *; lia). }
    intros c1 s3 (F1 & Hc1 & W1 & Hfp3 & Hal3 & Hm3 & Hha3 & Hst3 & Hnext3 & Hok3).
    subst s2; regs.
    eapply total_eq;
      [apply pair_bump; unfold padd, PAIR_SIZE in *; lia|].
    eexists. split.
    { cbn [tree_of].
      apply repr_Node; [apply aligned_ispair; exact Hal3| | | | |].
      - repr_solve.
      - repr_solve.
      - set_arith.
      - set_arith.
      - set_arith. }
    regs.
    splits; auto; try (unfold padd, PAIR_SIZE in *; lia); try congruence.
    + within_solve.
    + apply (aligned_padd _ 1). exact Hal3.
    + intros a Ha'. mem_frame. rewrite Hm3 by lia. reflexivity.
Qed.

Lemma combine_pairs_bounds f g : 0 <= combine_pairs f g <= 2.
Proof.
  unfold combine_pairs.
  destruct (is_K f), (is_I g), (is_K g), (is_B g), (is_B f); lia.
Qed.

Lemma unabstract_pairs_nonneg T : 0 <= unabstract_pairs T.
Proof.
  induction T as [c | L IHL R IHR]; cbn [unabstract_pairs].
  - destruct (c =? mkint 0); lia.
  - pose proof (combine_pairs_bounds (unabstract_spec L) (unabstract_spec R)).
    lia.
Qed.

Lemma unabstract_slots_nonneg T : 0 <= unabstract_slots T.
Proof. induction T; cbn [unabstract_slots]; lia. Qed.

Lemma unabstract_combine_exact fuel s f g Tf Tg Ff Fg lo rest :
  repr s f Tf Ff -> repr s g Tg Fg -> Ff ## Fg ->
  within lo (free_ptr s) Ff -> within lo (free_ptr s) Fg ->
  lo <= free_ptr s ->
  aligned (free_ptr s) ->
  padd (free_ptr s) (combine_pairs Tf Tg) <= heap_area s ->
  rd_stack s = f :: g :: rest ->
  total (unabstract_combine fuel f g) s 
    (wrote lo (combine_pairs Tf Tg) s (peephole_spec Tf Tg)).
Proof.
  intros Hf Hg Hdis Wf Wg Hlo Hal Hroom Hst.
  unfold total, wrote, unabstract_combine, peephole_spec.
  unfold combine_pairs in *.
  mrun.
  rewrite (IS_K1_repr _ _ _ _ Hf).
  destruct (is_K Tf) as [X|] eqn:HKf.
  - destruct (repr_K_inv _ _ _ _ _ Hf HKf) as (Fx & Hpf & Hcf & Hx & -> & Hfx).
    rewrite (is_I_repr _ _ _ _ Hg).
    destruct (is_I Tg) eqn:HIg.
    + eexists _, _. split; [reflexivity|].
      exists Fx. apply within_union_inv in Wf as [_ Wx].
      unfold padd, PAIR_SIZE. splits; auto; try lia.
    + mrun. rewrite (IS_K1_repr _ _ _ _ Hg).
      destruct (is_K Tg) as [Y|] eqn:HKg.
      * destruct (repr_K_inv _ _ _ _ _ Hg HKg) as (Fy & Hpg & Hcg & Hy & -> & Hgy).
        mrun. eexists _, _. split; [reflexivity|].
        assert (Hfg : f <> g) by set_solver.
        eexists. split.
        { apply repr_Node; [exact Hpf| | | | |].
          - heap_rw. rewrite Hcf. leaf_solve.
          - repr_solve.
          - set_solver.
          - set_solver.
          - set_solver. }
        regs. splits; auto; try (unfold padd, PAIR_SIZE; lia).
        -- within_solve.
        -- intros a Ha. mem_frame.
      * mrun. rewrite (IS_B2_repr _ _ _ _ Hg).
        destruct (is_B Tg) as [[Y Z]|] eqn:HBg.
        -- destruct (repr_B_inv _ _ _ _ _ _ Hg HBg)
             as (Fy & Fz & Hpg & Hpb & Hcb & Hy & Hz & -> & Hyz & Hby & Hbz & Hgb & Hgy & Hgz).
           mrun. eexists _, _. split; [reflexivity|].
           assert (Hfg : f <> g) by set_solver.
           heap_rw.
           assert (Hfb : f <> car s g) by set_solver.
           eexists. split.
           { apply repr_Node; [exact Hpg| | | | |].
             - heap_rw.
               apply repr_Node; [exact Hpb| | | | |].
               + heap_rw.
                 apply repr_Node; [exact Hpf| | | | |].
                 * heap_rw. leaf_solve.
                 * repr_solve.
                 * set_solver.
                 * set_solver.
                 * set_solver.
               + repr_solve.
               + set_solver.
               + set_solver.
               + set_solver.
             - repr_solve.
             - set_solver.
             - set_solver.
             - set_solver. }
           regs. splits; auto; try (unfold padd, PAIR_SIZE; lia).
           ++ within_solve.
           ++ intros a Ha. mem_frame.
        -- mrun. rewrite pair_bump by (regs; unfold padd, PAIR_SIZE in *; lia).
           eexists _, _. split; [reflexivity|].
           regs.
           eexists. split.
           { apply repr_Node; [apply aligned_ispair; exact Hal| | | | |].
             - heap_rw.
               apply repr_Node; [exact Hpf| | | | |].
               + heap_rw. leaf_solve.
               + repr_solve.
               + set_solver.
               + set_solver.
               + set_solver.
             - repr_solve.
             - set_arith.
             - set_arith.
             - set_arith. }
           regs. splits; auto; try (unfold padd, PAIR_SIZE; lia).
           ++ within_solve.
           ++ apply (aligned_padd _ 1). exact Hal.
           ++ intros a Ha. mem_frame.
  - mrun. rewrite (IS_K1_repr _ _ _ _ Hg).
    destruct (is_K Tg) as [Y|] eqn:HKg.
    + destruct (repr_K_inv _ _ _ _ _ Hg HKg) as (Fy & Hpg & Hcg & Hy & -> & Hgy).
      mrun. rewrite (IS_B2_repr _ _ _ _ Hf).
      destruct (is_B Tf) as [[X Z]|] eqn:HBf.
      * destruct (repr_B_inv _ _ _ _ _ _ Hf HBf)
          as (Fx & Fz & Hpf & Hpb & Hcb & Hx & Hz & -> & Hxz & Hbx & Hbz & Hfb & Hfx & Hfz).
        mrun. eexists _, _. split; [reflexivity|].
        assert (Hfg : f <> g) by set_solver.
        assert (Hgb : g <> car s f) by set_solver.
        eexists. split.
        { apply repr_Node; [exact Hpg| | | | |].
          - heap_rw.
            apply repr_Node; [exact Hpf| | | | |].
            + heap_rw.
              apply repr_Node; [exact Hpb| | | | |].
              * heap_rw. leaf_solve.
              * repr_solve.
              * set_solver.
              * set_solver.
              * set_solver.
            + repr_solve.
            + set_solver.
            + set_solver.
            + set_solver.
          - repr_solve.
          - set_solver.
          - set_solver.
          - set_solver. }
        regs. splits; auto; try (unfold padd, PAIR_SIZE; lia).
        -- within_solve.
        -- intros a Ha. mem_frame.
      * mrun. erewrite bind_Ok_intro by (apply (PUSHED_ok 0 f); rewrite Hst; reflexivity).
        mrun. rewrite pair_bump by (regs; unfold padd, PAIR_SIZE in *; lia).
        eexists _, _. split; [reflexivity|].
        eexists. split.
        { apply repr_Node; [apply aligned_ispair; exact Hal| | | | |].
          - heap_rw.
            apply repr_Node; [exact Hpg| | | | |].
            + heap_rw. leaf_solve.
            + repr_solve.
            + set_arith.
            + set_arith.
            + set_arith.
          - repr_solve.
          - set_arith.
          - set_arith.
          - set_arith. }
        regs. splits; auto; try (unfold padd, PAIR_SIZE; lia).
        -- within_solve.
        -- apply (aligned_padd _ 1). exact Hal.
        -- intros a Ha. mem_frame.
    + mrun. rewrite (IS_B2_repr _ _ _ _ Hf).
      destruct (is_B Tf) as [[X Y]|] eqn:HBf.
      * destruct (repr_B_inv _ _ _ _ _ _ Hf HBf)
          as (Fx & Fy & Hpf & Hpb & Hcb & Hx & Hy & -> & Hxy & Hbx & Hby & Hfb & Hfx & Hfy).
        mrun. rewrite pair_bump by (regs; unfold padd, PAIR_SIZE in *; lia).
        eexists _, _. split; [reflexivity|].
        eexists. split.
        { apply repr_Node; [apply aligned_ispair; exact Hal| | | | |].
          - heap_rw.
            apply repr_Node; [exact Hpf| | | | |].
            + heap_rw.
              apply repr_Node; [exact Hpb| | | | |].
              * heap_rw. leaf_solve.
              * repr_solve.
              * set_solver.
              * set_solver.
              * set_solver.
            + repr_solve.
            + set_solver.
            + set_solver.
            + set_solver.
          - repr_solve.
          - set_arith.
          - set_arith.
          - set_arith. }
        regs. splits; auto; try (unfold padd, PAIR_SIZE; lia).
        -- within_solve.
        -- apply (aligned_padd _ 1). exact Hal.
        -- intros a Ha. mem_frame.
      * mrun.
        erewrite bind_Ok_intro
          by (apply pair_bump; regs; unfold padd, PAIR_SIZE in *; lia).
        erewrite bind_Ok_intro
          by (apply (PUSHED_ok 1 g); regs; rewrite Hst; reflexivity).
        rewrite pair_bump by (regs; unfold padd, PAIR_SIZE in *; lia).
        eexists _, _. split; [reflexivity|].
        eexists. split.
        { apply repr_Node; [apply aligned_ispair; regs; apply (aligned_padd _ 1); exact Hal| | | | |].
          - heap_rw.
            apply repr_Node; [apply aligned_ispair; exact Hal| | | | |].
            + heap_rw. leaf_solve.
            + repr_solve.
            + set_arith.
            + set_arith.
            + set_arith.
          - repr_solve.
          - set_arith.
          - set_arith.
          - set_arith. }
        regs. splits; auto; try (unfold padd, PAIR_SIZE; lia).
        -- within_solve.
        -- apply (aligned_padd _ 1). apply (aligned_padd _ 1). exact Hal.
        -- intros a Ha. mem_frame.
Qed.


Lemma unabstract_exact :
  forall T fuel t s F lo0,
    repr s t T F -> within lo0 (free_ptr s) F ->
    size T <= Z.of_nat fuel ->
    aligned (free_ptr s) ->
    padd (free_ptr s) (unabstract_pairs T) <= heap_area s ->
    Z.of_nat (length (rd_stack s)) + unabstract_slots T <= RDSTACK_SIZE ->
    total (unabstract fuel t) s
      (wrote (free_ptr s) (unabstract_pairs T) s (unabstract_spec T)).
Proof.
  induction T as [c | L IHL R IHR]; intros fuel t s F lo0 Hr W Hfuel Hal Hroom Hstack.
  - pose proof (repr_root _ _ _ _ Hr) as [-> Hp].
    destruct fuel as [|fuel]; [simpl in Hfuel; lia|].
    simpl in *.
    destruct (isint c) eqn:Hint.
    + destruct (Z.eqb_spec c (mkint 0)) as [->|Hne].
      * apply total_ret. exists ∅. unfold padd, PAIR_SIZE in *.
        splits; auto; try lia.
        -- apply repr_Leaf. reflexivity.
        -- apply within_empty.
      * rewrite mkint_int32.
        eapply total_eq; [apply pair_bump; unfold padd, PAIR_SIZE in *; lia|].
        eexists. split.
        { apply repr_Node; [apply aligned_ispair; exact Hal| | | | |].
          - heap_rw. leaf_solve.
          - heap_rw. apply repr_Leaf. apply ispair_mkint.
          - set_solver.
          - set_solver.
          - set_solver. }
        regs. splits; auto; try (unfold padd, PAIR_SIZE; lia).
        -- within_solve.
        -- apply (aligned_padd _ 1). exact Hal.
        -- intros a Ha. mem_frame.
    + rewrite Hp.
      assert (Hc0 : (c =? mkint 0) = false).
      { apply Z.eqb_neq. intros ->. rewrite isint_mkint in Hint.
        discriminate. }
      rewrite Hc0 in *.
      eapply total_eq; [apply pair_bump; unfold padd, PAIR_SIZE in *; lia|].
      eexists. split.
      { apply repr_Node; [apply aligned_ispair; exact Hal| | | | |].
        - heap_rw. leaf_solve.
        - heap_rw. apply repr_Leaf. assumption.
        - set_solver.
        - set_solver.
        - set_solver. }
      regs. splits; auto; try (unfold padd, PAIR_SIZE; lia).
      -- within_solve.
      -- apply (aligned_padd _ 1). exact Hal.
      -- intros a Ha. mem_frame.
  - inversion Hr as [|c' L' R' Fa Fd Hp Ha Hd Hdis Hca Hcd]; subst.
    pose proof (size_pos L) as HsL. pose proof (size_pos R) as HsR.
    apply within_union_inv in W as [W Wd].
    apply within_union_inv in W as [Wt Wa].
    destruct fuel as [|fuel]; [simpl in Hfuel; lia|].
    cbn [unabstract size unabstract_pairs unabstract_slots] in *.
    pose proof (unabstract_pairs_nonneg L) as PL.
    pose proof (unabstract_pairs_nonneg R) as PR.
    pose proof (unabstract_slots_nonneg L) as SL.
    pose proof (unabstract_slots_nonneg R) as SR.
    pose proof (combine_pairs_bounds (unabstract_spec L) (unabstract_spec R))
      as PC.
    rewrite (ispair_not_isint _ Hp), Hp.
    apply total_bind, total_get.
    apply total_bind. eapply total_eq; [apply rs_push_ok; lia|].
    set (s1 := set_rd_stack _ s).
    apply total_bind, total_get.
    apply total_bind.
    eapply total_weaken.
    { eapply (IHL fuel (car s t) s1 Fa lo0); subst s1; regs;
        try assumption; try (unfold padd, PAIR_SIZE in *; lia).
      - apply (repr_same_mem s); [reflexivity|exact Ha].
      - cbn [length]. lia. }
    intros f s2 (Ff & Hf & Wf & Hfp2 & Hal2 & Hm2 & Hha2 & Hst2 & Hin2).
    subst s1; regs.
    apply total_bind. eapply total_eq;
      [apply rs_push_ok; rewrite Hst2; cbn [length]; lia|].
    set (s3 := set_rd_stack _ s2).
    apply total_bind. eapply total_eq;
      [apply (PUSHED_ok 1 (cdr s t)); subst s3; regs; rewrite Hst2; reflexivity|].
    apply total_bind.
    eapply total_weaken.
    { eapply (IHR fuel (cdr s t) s3 Fd lo0); subst s3; regs;
        try assumption; try (unfold padd, PAIR_SIZE in *; lia).
      - eapply (repr_within _ _ _ _ _ _ Hd Wd). intros a Ha'. regs. apply Hm2. lia.
      - eapply within_weaken; [exact Wd| |]; lia.
      - rewrite Hst2. cbn [length]. lia. }
    intros g s4 (Fg & Hg & Wg & Hfp4 & Hal4 & Hm4 & Hha4 & Hst4 & Hin4).
    subst s3; regs.
    apply total_bind. eapply total_eq;
      [apply set_PUSHED_ok; rewrite Hst4, Hst2; cbn [length]; lia|].
    set (s5 := set_rd_stack _ s4).
    apply total_bind. eapply total_eq;
      [apply (PUSHED_ok 0 f); subst s5; regs; rewrite Hst4, Hst2; reflexivity|].
    apply total_bind.
    eapply total_weaken.
    { eapply (unabstract_combine_exact fuel s5 f g (unabstract_spec L)
                (unabstract_spec R) Ff Fg (free_ptr s) (rd_stack s));
        subst s5; regs; try assumption; try (unfold padd, PAIR_SIZE in *; lia).
      - apply (repr_same_mem s4); [reflexivity|].
        eapply (repr_within _ _ _ _ _ _ Hf Wf). intros a Ha'. apply Hm4. lia.
      - apply (repr_same_mem s4); [reflexivity|exact Hg].
      - eapply within_disjoint; [exact Wf | exact Wg].
      - eapply within_weaken; [exact Wf| |]; lia.
      - eapply within_weaken; [exact Wg| |]; lia.
      - rewrite Hst4, Hst2. reflexivity. }
    intros c s6 (Fc & Hc & Wc & Hfp6 & Hal6 & Hm6 & Hha6 & Hst6 & Hin6).
    subst s5; regs.
    rewrite Hst4, Hst2 in Hst6. cbn in Hst6.
    apply total_bind. eapply total_eq;
      [apply (DROP_ok 2); rewrite Hst6; cbn [length]; lia|].
    apply total_ret.
    exists Fc. regs. splits; try assumption; try (unfold padd, PAIR_SIZE in *; lia).
    + apply (repr_same_mem s6); [reflexivity|exact Hc].
    + intros a Ha'. rewrite Hm6, Hm4, Hm2 by lia. reflexivity.
    + rewrite Hst6. reflexivity.
    + congruence.
Qed.











(** ** What a returning [parse] has read *)

Lemma bits_from_01 ch : forall n bit,
  Forall (fun b => b = 0 \/ b = 1) (bits_from n ch bit).
Proof.
  induction n as [|n IH]; intros bit; cbn [bits_from]; [constructor|].
  destruct (bit =? 0); [constructor|].
  constructor; [|apply IH].
  destruct (Z.land ch bit =? 0); auto.
Qed.

Lemma next_bits_01 s : Forall (fun b => b = 0 \/ b = 1) (next_bits s).
Proof.
  unfold next_bits. apply Forall_app. split; [apply bits_from_01|].
  induction (pending (input s)) as [|b l IH]; cbn [flat_map]; [constructor|].
  apply Forall_app. split; [apply bits_from_01 | exact IH].
Qed.

Lemma read_bit_inv s b s' :
  input_ok s -> read_bit s = Ok b s' ->
  (b = 0 \/ b = 1) /\ next_bits s = b :: next_bits s' /\ input_ok s'.
Proof.
  intros Hok H.
  destruct (next_bits s) as [|b0 bs] eqn:E.
  - destruct (read_bit_cut s Hok E) as (s1 & H1). congruence.
  - destruct (read_bit_spec s b0 bs Hok E) as (i & Hr & Hn & Hok').
    rewrite Hr in H. injection H as <- <-.
    pose proof (next_bits_01 s) as B. rewrite E in B.
    apply Forall_cons in B as [B _].
    rewrite Hn. auto.
Qed.

Lemma read_index_inv fuel : forall i s r s',
  input_ok s -> read_index fuel i s = Ok r s' ->
  exists k, next_bits s = repeat 1 k ++ 0 :: next_bits s' /\ input_ok s'.
Proof.
  induction fuel as [|fuel IH]; intros i s r s' Hok H; [discriminate|].
  cbn [read_index] in H.
  bind_open H as b s1 Hb.
  destruct (read_bit_inv _ _ _ Hok Hb) as (B & Hn & Hok1).
  destruct B as [-> | ->].
  - change (0 =? 0) with true in H. cbv iota in H.
    unfold ret in H. injection H as _ <-.
    exists 0%nat. exact (conj Hn Hok1).
  - change (1 =? 0) with false in H. cbv iota in H.
    destruct (IH _ _ _ _ Hok1 H) as (k & Hk & Hok').
    exists (S k). rewrite Hn, Hk. auto.
Qed.

Lemma pair_same_io fuel a b s c s' :
  pair fuel a b s = Ok c s' -> same_io s s'.
Proof.
  intros H.
  pose proof (keeps_pair same_io ltac:(keeps_side) ltac:(keeps_side)
                ltac:(keeps_side) ltac:(keeps_side) ltac:(keeps_side)
                ltac:(keeps_side) ltac:(keeps_side) ltac:(keeps_side)
                fuel a b s) as K.
  rewrite H in K. exact K.
Qed.

Lemma next_bits_same s s' : input s' = input s -> next_bits s' = next_bits s.
Proof. intros E. unfold next_bits. rewrite E. reflexivity. Qed.

Lemma input_ok_same s s' : input s' = input s -> input_ok s -> input_ok s'.
Proof. intros E. unfold input_ok. rewrite E. auto. Qed.

Lemma rs_push_Ok c s u s' :
  rs_push c s = Ok u s' -> s' = set_rd_stack (fun st => c :: st) s.
Proof.
  unfold rs_push, bind, get, errexit, modify.
  destruct (sp s <=? 0); [discriminate|]. intros H. injection H as _ <-.
  reflexivity.
Qed.

Lemma PUSHED_Ok n s c s' : PUSHED n s = Ok c s' -> s' = s.
Proof.
  unfold PUSHED. destruct (rd_stack s !! n); [|discriminate].
  intros H. injection H as _ <-. reflexivity.
Qed.

Lemma POP_Ok s c s' :
  POP s = Ok c s' -> s' = set_rd_stack (fun st => drop 1 st) s.
Proof.
  unfold POP, TOP. intros H. bind_open H as t s1 Ht.
  apply PUSHED_Ok in Ht as ->.
  bind_open H as u s2 Hd. unfold DROP in Hd.
  destruct (decide (1 <= length (rd_stack s))%nat); [|discriminate].
  injection Hd as _ <-. unfold ret in H. injection H as _ <-. reflexivity.
Qed.

(** Whatever the state, a call of [parse] that returns has read the bits
    of one term and nothing after them. *)
Lemma parse_consumes fuel : forall s c s',
  input_ok s -> parse fuel s = Ok c s' ->
  exists T, next_bits s = encode T ++ next_bits s' /\ input_ok s'.
Proof.
  induction fuel as [|fuel IH]; intros s c s' Hok H; [discriminate|].
  cbn [parse] in H.
  bind_open H as b1 s1 Hb1.
  destruct (read_bit_inv _ _ _ Hok Hb1) as (B1 & Hn1 & Hok1).
  destruct B1 as [-> | ->].
  - change (negb (0 =? 0)) with false in H. cbv iota in H.
    bind_open H as b2 s2 Hb2.
    destruct (read_bit_inv _ _ _ Hok1 Hb2) as (B2 & Hn2 & Hok2).
    destruct B2 as [-> | ->].
    + (* lambda *)
      change (negb (0 =? 0)) with false in H. cbv iota in H.
      bind_open H as c1 s3 Hp.
      destruct (IH _ _ _ Hok2 Hp) as (Tb & Hb & Hok3).
      apply pair_same_io in H as (Hin & _).
      exists (Lam Tb). cbn [encode app].
      rewrite Hn1, Hn2, Hb, (next_bits_same _ _ Hin).
      split; [reflexivity | exact (input_ok_same _ _ Hin Hok3)].
    + (* application *)
      change (negb (1 =? 0)) with true in H. cbv iota in H.
      bind_open H as c1 s3 Hp1.
      destruct (IH _ _ _ Hok2 Hp1) as (Tf & Hf & Hok3).
      bind_open H as u s4 Hpush. apply rs_push_Ok in Hpush as ->.
      bind_open H as c2 s5 Hp2.
      destruct (IH (set_rd_stack (fun st => c1 :: st) s3) _ _
                  (input_ok_same s3 _ eq_refl Hok3) Hp2)
        as (Tg & Hg & Hok5).
      bind_open H as f s6 Htop. apply PUSHED_Ok in Htop as ->.
      bind_open H as c3 s7 Hpair. apply pair_same_io in Hpair as (Hin & _).
      bind_open H as c4 s8 Hpop. apply POP_Ok in Hpop as ->.
      unfold ret in H. injection H as _ <-.
      exists (App Tf Tg). cbn [encode app].
      rewrite Hn1, Hn2, Hf.
      change (next_bits (set_rd_stack (fun st => c1 :: st) s3))
        with (next_bits s3) in Hg.
      rewrite Hg, <- app_assoc.
      change (next_bits (set_rd_stack (fun st => drop 1 st) s7))
        with (next_bits s7).
      rewrite (next_bits_same _ _ Hin).
      split; [reflexivity|].
      apply (input_ok_same s7); [reflexivity|].
      exact (input_ok_same _ _ Hin Hok5).
  - (* variable *)
    change (negb (1 =? 0)) with true in H. cbv iota in H.
    bind_open H as i s2 Hi.
    destruct (read_index_inv _ _ _ _ _ Hok1 Hi) as (k & Hk & Hok2).
    unfold ret in H. injection H as _ <-.
    exists (Var k). cbn [encode app]. rewrite Hn1, Hk, <- app_assoc.
    split; [reflexivity | exact Hok2].
Qed.

Lemma ones_zero_inj k : forall k' (r r' : list Z),
  repeat 1 k ++ 0 :: r = repeat 1 k' ++ 0 :: r' -> k = k' /\ r = r'.
Proof.
  induction k as [|k IH]; intros [|k'] r r' E; cbn [repeat app] in E;
    try discriminate.
  - injection E as <-. auto.
  - injection E as E. destruct (IH _ _ _ E) as [-> ->]. auto.
Qed.

(** No term's bits begin another term's bits. *)
Lemma encode_prefix_free T : forall T' r r',
  encode T ++ r = encode T' ++ r' -> T = T' /\ r = r'.
Proof.
  induction T as [k | f IHf g IHg | b IHb]; intros [k' | f' g' | b'] r r' E;
    cbn [encode app] in E; try discriminate.
  - injection E as E. rewrite <- !app_assoc in E. cbn [app] in E.
    destruct (ones_zero_inj _ _ _ _ E) as [-> ->]. auto.
  - injection E as E. rewrite <- !app_assoc in E.
    destruct (IHf _ _ _ E) as [-> E'].
    destruct (IHg _ _ _ E') as [-> ->]. auto.
  - injection E as E. destruct (IHb _ _ _ E) as [-> ->]. auto.
Qed.

Lemma parse_cut_never T fuel s p q c s' :
  input_ok s -> next_bits s = p -> encode T = p ++ q -> q <> [] ->
  parse fuel s <> Ok c s'.
Proof.
  intros Hok Hp Henc Hq H.
  destruct (parse_consumes fuel s c s' Hok H) as (T' & E & _).
  rewrite Hp in E. rewrite E, <- app_assoc in Henc.
  rewrite <- (app_nil_r (encode T)) in Henc.
  destruct (encode_prefix_free _ _ _ _ Henc) as [_ Hnil].
  symmetry in Hnil. apply app_eq_nil in Hnil as [_ ->]. contradiction.
Qed.

Lemma parse_cut_exact :
  forall T fuel s p q,
    input_ok s -> next_bits s = p -> encode T = p ++ q -> q <> [] ->
    bits T <= Z.of_nat fuel ->
    aligned (free_ptr s) ->
    padd (free_ptr s) (parse_pairs T) <= heap_area s ->
    Z.of_nat (length (rd_stack s)) + parse_slots T <= RDSTACK_SIZE ->
    exists s', parse fuel s = Exit Err_unexpected_EOF s'.
Proof.
  unfold bits.
  induction T as [k | f IHf g IHg | b IHb];
    intros fuel s p q Hok Hbits Henc Hq Hfuel Hal Hroom Hstack;
    (destruct fuel as [|fuel]; [simpl in Hfuel; lia|]);
    cbn [encode] in Henc; cbn [parse];
    (destruct p as [|b1 p];
     [destruct (read_bit_cut s Hok Hbits) as (s' & H);
      exists s'; apply bind_Exit, H|]);
    cbn [app] in Henc; injection Henc as <- Henc;
    destruct (read_bit_spec _ _ _ Hok Hbits) as (i1 & Hrb1 & Hnext1 & Hok1);
    rewrite (bind_Ok_intro _ _ _ _ _ Hrb1).
  - change (negb (1 =? 0)) with true. cbv iota.
    destruct (ones_prefix k p q (eq_sym Henc) Hq) as (j & Hj & ->).
    cbn [encode length] in Hfuel. rewrite length_app, repeat_length in Hfuel.
    cbn [length] in Hfuel.
    destruct (read_index_cut j fuel 0 _ Hok1 Hnext1 ltac:(lia)) as (s' & H).
    exists s'. apply bind_Exit, H.
  - change (negb (0 =? 0)) with false. cbv iota.
    destruct p as [|b2 p];
      [destruct (read_bit_cut _ Hok1 Hnext1) as (s' & H);
       exists s'; apply bind_Exit, H|].
    cbn [app] in Henc; injection Henc as <- Henc.
    destruct (read_bit_spec _ _ _ Hok1 Hnext1) as (i2 & Hrb2 & Hnext2 & Hok2).
    rewrite (bind_Ok_intro _ _ _ _ _ Hrb2).
    change (negb (1 =? 0)) with true. cbv iota.
    cbn [encode length parse_pairs parse_slots] in *. rewrite length_app in *.
    pose proof (parse_pairs_nonneg f) as Pf.
    pose proof (parse_pairs_nonneg g) as Pg.
    pose proof (parse_slots_nonneg f) as Sf.
    pose proof (parse_slots_nonneg g) as Sg.
    set (s2 := set_input i2 (set_input i1 s)) in *.
    destruct (prefix_split _ _ _ _ (eq_sym Henc) Hq) as [(q' & Hq' & E)|(p' & -> & E)].
    + destruct (IHf fuel s2 p q' Hok2 Hnext2 E Hq') as (s' & H);
        subst s2; regs; try assumption;
        try (unfold padd, PAIR_SIZE in *; lia).
      exists s'. apply bind_Exit, H.
    + destruct (parse_exact f fuel s2 p' Hok2 Hnext2)
        as (c1 & s3 & Hp1 & F1 & Hc1 & W1 & Hfp3 & Hal3 & Hm3 & Hha3 & Hst3
            & Hnext3 & Hok3);
        unfold bits; subst s2; regs; try assumption;
        try (unfold padd, PAIR_SIZE in *; lia).
      rewrite (bind_Ok_intro _ _ _ _ _ Hp1).
      erewrite bind_Ok_intro by (apply rs_push_ok; rewrite Hst3; lia).
      set (s4 := set_rd_stack _ s3).
      destruct (IHg fuel s4 p' q) as (s' & H);
        subst s4; regs; try assumption;
        try (unfold padd, PAIR_SIZE in *; lia).
      all: unfold bits in *;
        try (rewrite Hst3; cbn [length]); try (unfold padd, PAIR_SIZE in *; lia).
      exists s'. apply bind_Exit, H.
  - change (negb (0 =? 0)) with false. cbv iota.
    destruct p as [|b2 p];
      [destruct (read_bit_cut _ Hok1 Hnext1) as (s' & H);
       exists s'; apply bind_Exit, H|].
    cbn [app] in Henc; injection Henc as <- Henc.
    destruct (read_bit_spec _ _ _ Hok1 Hnext1) as (i2 & Hrb2 & Hnext2 & Hok2).
    rewrite (bind_Ok_intro _ _ _ _ _ Hrb2).
    change (negb (0 =? 0)) with false. cbv iota.
    cbn [encode length parse_pairs parse_slots] in *.
    pose proof (parse_pairs_nonneg b) as Pb.
    set (s2 := set_input i2 (set_input i1 s)) in *.
    destruct (IHb fuel s2 p q Hok2 Hnext2 Henc Hq) as (s' & H);
      subst s2; regs; try assumption;
      try (unfold padd, PAIR_SIZE in *; lia).
    exists s'. apply bind_Exit, H.
Qed.


(** X9: a program that ends before its term is complete, at whatever
    bit, makes [parse] end the run.  For every term and every proper
    prefix of its bits, the empty one included, a call of [parse] on an
    input that holds this prefix and nothing more never returns,
    whatever the heap and the stack; and when the heap has room for the
    Pairs of the term, so that no collection runs, and the stack for
    its pending applications, the run ends with [unexpected EOF]. *)
Theorem parse_truncated (T : term) (fuel : nat) (s : state) (p q : list Z) :
  input_ok s ->
  next_bits s = p ->
  encode T = p ++ q -> q <> [] ->
  (forall c s', parse fuel s <> Ok c s') /\
  (bits T <= Z.of_nat fuel ->
   aligned (free_ptr s) ->
   padd (free_ptr s) (parse_pairs T) <= heap_area s ->
   Z.of_nat (length (rd_stack s)) + parse_slots T <= RDSTACK_SIZE ->
   exists s', parse fuel s = Exit Err_unexpected_EOF s').
Proof.
  intros Hok Hp Henc Hq. split.
  - intros c s'. exact (parse_cut_never T fuel s p q c s' Hok Hp Henc Hq).
  - intros Hfuel Hal Hroom Hstack.
    exact (parse_cut_exact T fuel s p q Hok Hp Henc Hq Hfuel Hal Hroom
             Hstack).
Qed.

Lemma parse_truncated_witness :
  (forall c s', parse 20 demo_cut <> Ok c s') /\
  exists s', parse 20 demo_cut = Exit Err_unexpected_EOF s'.
Proof.
  destruct (parse_truncated (Lam (App (Var 0) (Lam (Var 0)))) 20 demo_cut
              [0; 0; 0; 1; 1; 0; 0; 0] [1; 0]
              ltac:(vm_compute; splits; try discriminate;
                    repeat constructor; discriminate)
              ltac:(reflexivity) ltac:(reflexivity) ltac:(discriminate))
    as [Hnever Hexit].
  split; [exact Hnever|].
  apply Hexit; try reflexivity; vm_compute; discriminate.
Defined.


(** ** Where the collector leaves the allocation pointer *)

Lemma grows_refl s : grows s s.
Proof. unfold grows. lia. Qed.

Lemma grows_trans s1 s2 s3 : grows s1 s2 -> grows s2 s3 -> grows s1 s3.
Proof. unfold grows. intros (?&?&?&?) (?&?&?&?). splits; lia. Qed.

Lemma copy_cell_grows fuel c s r s' :
  copy_cell fuel c s = Ok r s' -> grows s s'.
Proof.
  intros H. unfold copy_cell in H.
  destruct (ispair c); cbn [negb] in H.
  2: { unfold ret in H. injection H as _ <-. apply grows_refl. }
  unfold bind at 1, get at 1 in H.
  destruct (car s c =? COPIED).
  - unfold get in H. injection H as _ <-. apply grows_refl.
  - bind_open H as fp t1 E1. apply get_Ok in E1 as [-> ->].
    bind_open H as u1 t2 E2. unfold modify in E2. injection E2 as _ <-.
    bind_open H as u2 t3 E3. unfold modify in E3. injection E3 as _ <-.
    bind_open H as a' t4 E4. apply get_Ok in E4 as [-> ->].
    bind_open H as u3 t5 E5.
    assert (G : grows s t5).
    { lazymatch type of E5 with
      | (if ?b then _ else _) _ = _ => destruct b
      end.
      - bind_open E5 as tmp t6 E6. apply get_Ok in E6 as [-> ->].
        bind_open E5 as tmp' t7 E7. apply skip_I_sound in E7 as (-> & _).
        unfold modify in E5. injection E5 as _ <-.
        unfold grows, padd, PAIR_SIZE. cbn. lia.
      - bind_open E5 as d t6 E6. apply get_Ok in E6 as [-> ->].
        unfold modify in E5. injection E5 as _ <-.
        unfold grows, padd, PAIR_SIZE. cbn. lia. }
    unfold bind, modify, ret in H. injection H as _ <-.
    destruct G as (?&?&?&?). unfold grows. cbn. auto.
Qed.

Lemma rs_copy_loop_grows fuel : forall k s u s',
  rs_copy_loop fuel k s = Ok u s' -> grows s s'.
Proof.
  induction k as [|k IH]; intros s u s' H; cbn [rs_copy_loop] in H.
  - unfold ret in H. injection H as _ <-. apply grows_refl.
  - bind_open H as slot t1 E1. apply get_Ok in E1 as [-> ->].
    destruct (rd_stack s !! k); [|discriminate].
    bind_open H as r t2 E2. apply copy_cell_grows in E2.
    bind_open H as u1 t3 E3. unfold modify in E3. injection E3 as _ <-.
    apply IH in H. eapply grows_trans; [exact E2|]. exact H.
Qed.

Lemma copy_save_grows fuel x s r s' :
  copy_save fuel x s = Ok r s' -> grows s s'.
Proof.
  unfold copy_save. destruct x as [c|]; intros H.
  - bind_open H as r1 t1 E1. apply copy_cell_grows in E1.
    unfold ret in H. injection H as _ <-. exact E1.
  - unfold ret in H. injection H as _ <-. apply grows_refl.
Qed.

Lemma gc_scan_grows fuel : forall scan s u s',
  gc_scan fuel scan s = Ok u s' -> grows s s'.
Proof.
  induction fuel as [|fuel IH]; intros scan s u s' H; [discriminate|].
  cbn [gc_scan] in H.
  bind_open H as fp t1 E1. apply get_Ok in E1 as [-> ->].
  destruct (scan <? free_ptr s).
  - bind_open H as a t2 E2. apply get_Ok in E2 as [-> ->].
    bind_open H as a' t3 E3. apply copy_cell_grows in E3.
    bind_open H as u1 t4 E4. unfold modify in E4. injection E4 as _ <-.
    bind_open H as d t5 E5. apply get_Ok in E5 as [-> ->].
    bind_open H as d' t6 E6. apply copy_cell_grows in E6.
    bind_open H as u2 t7 E7. unfold modify in E7. injection E7 as _ <-.
    apply IH in H.
    eapply grows_trans; [exact E3|].
    eapply grows_trans; [|exact H].
    destruct E6 as (?&?&?&?). unfold grows. cbn in *. auto.
  - unfold ret in H. injection H as _ <-. apply grows_refl.
Qed.

(** After a collection the heap is [heap_size] Pairs below [heap_area],
    and the allocation pointer lies in it. *)
Lemma gc_run_base fuel : forall s1 s2 s r s',
  gc_run fuel s1 s2 s = Ok r s' ->
  padd (heap_area s') (- heap_size s') <= free_ptr s'.
Proof.
  induction fuel as [|fuel IH]; intros s1 s2 s r s' H; [discriminate|].
  cbn [gc_run] in H.
  bind_open H as fa t1 E1. apply get_Ok in E1 as [-> ->].
  bind_open H as to t2 E2.
  bind_open H as u1 t3 E3. unfold modify in E3. injection E3 as _ <-.
  bind_open H as old t4 E4. apply get_Ok in E4 as [-> ->].
  bind_open H as u2 t5 E5. unfold modify in E5. injection E5 as _ <-.
  bind_open H as n t6 E6. apply get_Ok in E6 as [-> ->].
  bind_open H as u3 t7 E7. unfold modify in E7. injection E7 as _ <-.
  bind_open H as u4 t8 E8. unfold rs_copy in E8.
  bind_open E8 as len t9 E9. apply get_Ok in E9 as [-> ->].
  apply rs_copy_loop_grows in E8.
  bind_open H as x1 t10 E10. apply copy_save_grows in E10.
  bind_open H as x2 t11 E11. apply copy_save_grows in E11.
  bind_open H as u5 t12 E12. apply gc_scan_grows in E12.
  pose proof (grows_trans _ _ _ E8 (grows_trans _ _ _ E10
                (grows_trans _ _ _ E11 E12))) as G.
  clear E8 E10 E11 E12.
  bind_open H as alive t13 E13. apply get_Ok in E13 as [-> ->].
  bind_open H as hs t14 E14. apply get_Ok in E14 as [-> ->].
  bind_open H as n' t15 E15. apply get_Ok in E15 as [-> ->].
  bind_open H as u6 t16 E16.
  bind_open H as fp t17 E17. apply get_Ok in E17 as [-> ->].
  bind_open H as ha t18 E18. apply get_Ok in E18 as [-> ->].
  destruct (free_ptr t16 >=? heap_area t16).
  - eapply IH, H.
  - unfold ret in H. injection H as _ <-.
    destruct G as (Gf & Ga & Gs & Gn). cbn in Gf, Ga, Gs, Gn.
    assert (Hs : heap_size t16 = next_heap_size t2 /\
                 free_ptr t16 = free_ptr t12 /\
                 heap_area t16 = heap_area t12).
    { revert E16. unfold bind, get, modify, ret.
      destruct (heap_size t12 =? next_heap_size t12) eqn:Q1; cbn [negb orb];
        destruct (int32 _ >? next_heap_size t12) eqn:Q2;
        intros E; injection E as _ <-; cbn;
        try apply Z.eqb_eq in Q1; repeat split; lia. }
    destruct Hs as (-> & -> & ->). rewrite Ga.
    unfold padd, PAIR_SIZE in *. lia.
Qed.

Lemma pair_base fuel a b s c s' :
  pair fuel a b s = Ok c s' ->
  padd (heap_area s) (- heap_size s) <= free_ptr s ->
  padd (heap_area s') (- heap_size s') <= c.
Proof.
  intros H Hb. unfold pair in H.
  bind_open H as fp t1 E1. apply get_Ok in E1 as [-> ->].
  bind_open H as ha t2 E2. apply get_Ok in E2 as [-> ->].
  bind_open H as ab t3 E3.
  assert (Hb3 : padd (heap_area t3) (- heap_size t3) <= free_ptr t3).
  { destruct (free_ptr s >=? heap_area s).
    - bind_open E3 as rr t4 E4. destruct rr as [r1 r2].
      apply gc_run_base in E4.
      unfold ret in E3. injection E3 as _ <-. exact E4.
    - unfold ret in E3. injection E3 as _ <-. exact Hb. }
  destruct ab as [a' b'].
  bind_open H as fp t4 E4. apply get_Ok in E4 as [-> ->].
  bind_open H as ha t5 E5. apply get_Ok in E5 as [-> ->].
  bind_open H as u t6 E6. unfold assert in E6.
  destruct (free_ptr t3 <? heap_area t3); [|discriminate].
  injection E6 as _ <-.
  unfold bind, modify, ret in H. injection H as <- <-.
  cbn. exact Hb3.
Qed.

(** X12: [pair] never fails its assertion, with or without a collection
    on the way; the Pair it returns is the one below the new allocation
    pointer and lies inside the heap, that is, in the [heap_size] Pairs
    that end at [heap_area], provided the allocation pointer did so
    when [pair] was called; and an operand that is no Pair is stored as
    it was given. *)
Theorem pair_is_safe (fuel : nat) (a b : Cell) (s : state) :
  (forall s', pair fuel a b s <> AssertFail s') /\
  (forall c s',
     pair fuel a b s = Ok c s' ->
     free_ptr s' = padd c 1 /\ c < heap_area s' /\
     (padd (heap_area s) (- heap_size s) <= free_ptr s ->
      padd (heap_area s') (- heap_size s') <= c) /\
     (ispair a = false -> car s' c = a) /\
     (ispair b = false -> cdr s' c = b)).
Proof.
  split.
  - intros s' H. pose proof (pair_unfailing fuel a b s) as U.
    rewrite H in U. exact U.
  - intros c s' H.
    destruct (pair_after_gc fuel a b s c s' H) as (H1 & H2 & H3 & H4).
    splits; auto. apply (pair_base fuel a b s c s' H).
Qed.

Lemma pair_is_safe_witness :
  match pair 9 COMB_READ NIL demo_tight with
  | Ok c s' =>
      padd (heap_area s') (- heap_size s') <= c < heap_area s' /\
      car s' c = COMB_READ /\ cdr s' c = NIL
  | _ => False
  end.
Proof.
  destruct (pair 9 COMB_READ NIL demo_tight) as [c s'| | | |] eqn:E;
    try (vm_compute in E; discriminate).
  destruct (proj2 (pair_is_safe 9 COMB_READ NIL demo_tight) c s' E)
    as (_ & Hhi & Hlo & Ha & Hb).
  split; [split; [apply Hlo; vm_compute; discriminate | exact Hhi]|].
  split; [apply Ha | apply Hb]; reflexivity.
Defined.


(** * The claims on the loader *)

(** ** The grammar [parse] decodes *)




(** ** The peephole table of [unabstract] *)

(** C3, as amended: when no collection runs during the call, that is,
    when the free part of the heap holds the Pairs the call takes (one
    for each cell that is no Pair and not the Int 0, and those of the
    rows of the table that apply) and the stack its two slots for each
    level of the tree, [unabstract], given a tree stored in the heap,
    returns a cell at which the tree of the specification is stored:
    [I] for the Int 0, [K] applied to the Int [n - 1] for another Int
    [n], [K c] for any other cell that is not a Pair, and for an
    application the first matching row of the peephole table applied to
    the abstracted parts. *)
Theorem unabstract_table (T : tree) (fuel : nat) (t : Cell) (s : state) :
  stored s t T ->
  size T <= Z.of_nat fuel ->
  aligned (free_ptr s) -> 0 <= free_ptr s ->
  padd (free_ptr s) (unabstract_pairs T) <= heap_area s ->
  Z.of_nat (length (rd_stack s)) + unabstract_slots T <= RDSTACK_SIZE ->
  exists c s',
    unabstract fuel t s = Ok c s' /\ stored s' c (unabstract_spec T).
Proof.
  intros (F & Hr & W) Hfuel Hal Hpos Hroom Hstack.
  destruct (unabstract_exact T fuel t s F 0 Hr W Hfuel Hal Hroom Hstack)
    as (c & s' & Hu & F' & Hr' & W' & Hfp & _).
  exists c, s'. split; [exact Hu|].
  exists F'. split; [exact Hr'|].
  eapply within_weaken; [exact W'| |]; lia.
Qed.

Lemma unabstract_table_witness :
  exists c s',
    unabstract 64 (fst demo_app_parsed) (snd demo_app_parsed) = Ok c s' /\
    stored s' c (K_ (Node (Leaf (mkint 0)) (Leaf (mkint 0)))).
Proof.
  apply (unabstract_table (Node (Leaf (mkint 1)) (Leaf (mkint 1))) 64).
  - apply stored_check_sound. vm_compute. reflexivity.
  - vm_compute. discriminate.
  - vm_compute. reflexivity.
  - vm_compute. discriminate.
  - vm_compute. discriminate.
  - vm_compute. discriminate.
Defined.

(** C3, as it is stated: in a heap of six Pairs of which three are free,
    [unabstract] of the tree [(I (I K)) K], which takes four Pairs,
    collects on the way; the collector shortens the chain [I (I K)] of
    the part still to be abstracted, and the call returns
    [K ((I K) K)], not the [K ((I (I K)) K)] of the table. *)
Lemma unabstract_collects_counterexample :
  stored (snd demo_collect) (fst demo_collect) demo_collect_tree /\
  unabstract_spec demo_collect_tree
  = K_ (Node (Node (Leaf COMB_I) (Node (Leaf COMB_I) (Leaf COMB_K)))
          (Leaf COMB_K)) /\
  exists c s',
    unabstract 64 (fst demo_collect) (snd demo_collect) = Ok c s' /\
    stored s' c (K_ (Node (Node (Leaf COMB_I) (Leaf COMB_K)) (Leaf COMB_K))) /\
    ~ stored s' c (unabstract_spec demo_collect_tree).
Proof.
  split; [apply stored_check_sound; vm_compute; reflexivity|].
  split; [reflexivity|].
  destruct (unabstract 64 (fst demo_collect) (snd demo_collect))
    as [c s'| | | |] eqn:E; try (vm_compute in E; discriminate).
  exists c, s'. split; [reflexivity|].
  assert (Hs : stored s' c
                 (K_ (Node (Node (Leaf COMB_I) (Leaf COMB_K)) (Leaf COMB_K)))).
  { apply stored_check_sound.
    assert (Hc : match unabstract 64 (fst demo_collect) (snd demo_collect) with
                 | Ok c s' =>
                     stored_check s' c
                       (K_ (Node (Node (Leaf COMB_I) (Leaf COMB_K))
                              (Leaf COMB_K)))
                 | _ => false
                 end = true) by (vm_compute; reflexivity).
    rewrite E in Hc. exact Hc. }
  split; [exact Hs|].
  intros (F' & Hr' & _). destruct Hs as (F & Hr & _).
  destruct (repr_functional _ _ _ _ Hr _ _ Hr') as [Ht _].
  discriminate Ht.
Qed.

(** ** What loading leaves in the graph *)




(** X17: bracket abstraction is sound for the rules of the reducer.
    When no collection runs during the call (the free part of the heap
    holds the Pairs the call takes, and the stack its two slots for
    each level of the body), the graph [unabstract] returns for a body
    stored in the heap reads as a term [U] such that, for every
    argument [X], [U X] and the body with [X] for the Int 0 and every
    other Int lowered by one are equal under the rules of [eval]. *)
Theorem unabstract_sound (T : tree) (fuel : nat) (t : Cell) (s : state) :
  stored s t T ->
  size T <= Z.of_nat fuel ->
  aligned (free_ptr s) -> 0 <= free_ptr s ->
  padd (free_ptr s) (unabstract_pairs T) <= heap_area s ->
  Z.of_nat (length (rd_stack s)) + unabstract_slots T <= RDSTACK_SIZE ->
  exists c s' U,
    unabstract fuel t s = Ok c s' /\ stored s' c U /\
    forall X, converts (U · X) (instantiate X T).
Proof.
  intros (F & Hr & W) Hfuel Hal Hpos Hroom Hstack.
  destruct (unabstract_exact T fuel t s F 0 Hr W Hfuel Hal Hroom Hstack)
    as (c & s' & Hu & F' & Hr' & W' & Hfp & _).
  exists c, s', (unabstract_spec T). split; [exact Hu|]. split.
  - exists F'. split; [exact Hr'|].
    eapply within_weaken; [exact W'| |]; lia.
  - intros X. apply unabstract_spec_sound.
Qed.

Lemma unabstract_sound_witness :
  exists c s' U,
    unabstract 64 (fst demo_app_parsed) (snd demo_app_parsed) = Ok c s' /\
    stored s' c U /\
    forall X, converts (U · X) (Leaf (mkint 0) · Leaf (mkint 0)).
Proof.
  apply (unabstract_sound (Node (Leaf (mkint 1)) (Leaf (mkint 1))) 64).
  - apply stored_check_sound. vm_compute. reflexivity.
  - vm_compute. discriminate.
  - vm_compute. reflexivity.
  - vm_compute. discriminate.
  - vm_compute. discriminate.
  - vm_compute. discriminate.
Defined.
